(** * Escape from Atlantis: the game engine of [main.py], embedded and verified

    The Python program keeps one [Game] object whose tiles, villagers and
    players are shared mutable objects.  The embedding keeps that sharing:
    tile objects live in the list [tiles] (the source's [self.tiles], which
    holds every tile ever created), villager objects live in an allocation
    ordered store, and the board, the occupant lists and the [tile] field of
    a villager hold references (indices) into these stores.

    Console input is a list of lines, [random] is a list of raw draws, and
    a raised Python exception is a value of the result type. *)

From stdpp Require Import base option list gmap strings.
From Stdlib Require Import ZArith Lia.

Local Open Scope Z_scope.

(** ** Results of Python computations *)

Inductive exn : Type :=
  | EOFError        (* input() on an exhausted console *)
  | ValueError      (* list.remove(x) with x absent, max() of an empty list *)
  | IndexError      (* pop from an empty list, subscript out of range *)
  | AttributeError  (* attribute access on None *)
  | BadRef.         (* a reference outside the object stores; no Python
                       object graph has one, see [wf] *)

Inductive res (A : Type) : Type :=
  | Ret (a : A)
  | Raise (e : exn)
  | Timeout.        (* a fuelled loop ran out of fuel *)
Arguments Ret {A} a.
Arguments Raise {A} e.
Arguments Timeout {A}.

Global Instance res_ret : MRet res := fun A a => Ret a.
Global Instance res_bind : MBind res := fun A B k m =>
  match m with
  | Ret a => k a
  | Raise e => Raise e
  | Timeout => Timeout
  end.

Definition of_option {A} (e : exn) (o : option A) : res A :=
  match o with Some a => Ret a | None => Raise e end.

(** ** Python list primitives used by the program *)

Section PyList.
Context {A : Type}.

(** [min(l, key=key)]: the first element whose key is minimal. *)
Fixpoint min_from (key : A -> Z) (best : A) (l : list A) : A :=
  match l with
  | [] => best
  | x :: l' => min_from key (if key x <? key best then x else best) l'
  end.

Definition py_min (key : A -> Z) (l : list A) : option A :=
  match l with
  | [] => None
  | x :: l' => Some (min_from key x l')
  end.

(** [max(l, key=key)]: the first element whose key is maximal. *)
Fixpoint max_from (key : A -> Z) (best : A) (l : list A) : A :=
  match l with
  | [] => best
  | x :: l' => max_from key (if key best <? key x then x else best) l'
  end.

Definition py_max (key : A -> Z) (l : list A) : option A :=
  match l with
  | [] => None
  | x :: l' => Some (max_from key x l')
  end.

(** [l.pop()]: the last element and the list without it. *)
Definition py_pop (l : list A) : res (A * list A) :=
  match reverse l with
  | [] => Raise IndexError
  | x :: r => Ret (x, reverse r)
  end.
End PyList.

(** [l.remove(x)] on a list of references: drops the first occurrence. *)
Fixpoint py_remove (x : nat) (l : list nat) : option (list nat) :=
  match l with
  | [] => None
  | y :: l' => if decide (y = x) then Some l'
               else cons y <$> py_remove x l'
  end.

(** ** The outside world: console and random source *)

(** A console line, classified the way the prompts read it:
    [strip().lower()] equal to "y" or "n", a string of digits with its
    value, a column letter A..E (as its index) followed by an integer
    literal, or anything else. *)
Inductive Line : Type :=
  | Yes
  | No
  | Digits (n : Z)
  | Coord (col : nat) (row_number : Z)
  | Junk.

Record World : Type := mkWorld {
  rand : list nat;    (* raw draws still to come; all 0 once used up *)
  input : list Line   (* lines still to be typed *)
}.

Definition draw (w : World) : nat * World :=
  match rand w with
  | [] => (0%nat, w)
  | d :: r => (d, mkWorld r (input w))
  end.

(** [input(...)] *)
Definition read_line (w : World) : res (Line * World) :=
  match input w with
  | [] => Raise EOFError
  | l :: ls => Ret (l, mkWorld (rand w) ls)
  end.

(** [random.randint(1, 6)] *)
Definition randint_1_6 (w : World) : Z * World :=
  let '(d, w') := draw w in (1 + Z.of_nat (d mod 6), w').

(** [random.choice(l)] for a non-empty [l]. *)
Definition choice {A} (l : list A) (w : World) : res (A * World) :=
  let '(d, w') := draw w in
  match l !! (d mod length l)%nat with
  | Some x => Ret (x, w')
  | None => Raise IndexError
  end.

(** ** Data model *)

Inductive tile_type : Type := beach | forest | mountain | volcano.

Global Instance tile_type_eq_dec : EqDecision tile_type.
Proof. solve_decision. Defined.

(** [TILE_INFO[t]["distance"]] *)
Definition TILE_INFO_distance (t : tile_type) : Z :=
  match t with
  | beach => 3
  | forest => 2
  | mountain => 1
  | volcano => 1
  end.

Definition MAX_TURNS : Z := 20.

Module Tile.
Record t : Type := mk {
  id : Z;
  type : tile_type;
  distance : Z;
  villagers : list nat;   (* references into the villager store *)
  capacity : nat
}.

(** [Tile.__init__] *)
Definition init (i : Z) (ty : tile_type) : t :=
  mk i ty (TILE_INFO_distance ty) [] 3.

Definition set_villagers (l : list nat) (x : t) : t :=
  mk (id x) (type x) (distance x) l (capacity x).
End Tile.

Inductive vstate : Type := land | water | safe | dead.

Global Instance vstate_eq_dec : EqDecision vstate.
Proof. solve_decision. Defined.

Module Villager.
Record t : Type := mk {
  id : Z;
  owner : string;
  treasure : Z;
  state : vstate;
  distance_remaining : Z;
  tile : option nat       (* reference into the tile store, or None *)
}.

Definition set_state (s : vstate) (v : t) : t :=
  mk (id v) (owner v) (treasure v) s (distance_remaining v) (tile v).
Definition set_distance_remaining (d : Z) (v : t) : t :=
  mk (id v) (owner v) (treasure v) (state v) d (tile v).
Definition set_tile (o : option nat) (v : t) : t :=
  mk (id v) (owner v) (treasure v) (state v) (distance_remaining v) o.

(** [v.state in ["land", "water"]] *)
Definition movable (v : t) : bool :=
  match state v with land | water => true | _ => false end.
End Villager.

Module Player.
Record t : Type := mk {
  name : string;
  is_human : bool;
  villagers : list nat;   (* references into the villager store *)
  score : Z
}.

Definition init (n : string) (h : bool) : t := mk n h [] 0.

Definition set_villagers (l : list nat) (p : t) : t :=
  mk (name p) (is_human p) l (score p).
Definition set_score (s : Z) (p : t) : t :=
  mk (name p) (is_human p) (villagers p) s.
End Player.

Record Game : Type := mkGame {
  players : list Player.t;
  board : list (list (option nat));  (* a slot is a tile reference or None *)
  tiles : list Tile.t;               (* self.tiles: every tile object *)
  vstore : list Villager.t;          (* every villager object, by creation *)
  total_turns : Z;
  villager_counter : Z;
  game_end_reason : string
}.

Definition set_players (ps : list Player.t) (g : Game) : Game :=
  mkGame ps (board g) (tiles g) (vstore g) (total_turns g)
         (villager_counter g) (game_end_reason g).
Definition set_board (b : list (list (option nat))) (g : Game) : Game :=
  mkGame (players g) b (tiles g) (vstore g) (total_turns g)
         (villager_counter g) (game_end_reason g).
Definition set_tiles (ts : list Tile.t) (g : Game) : Game :=
  mkGame (players g) (board g) ts (vstore g) (total_turns g)
         (villager_counter g) (game_end_reason g).
Definition set_vstore (vs : list Villager.t) (g : Game) : Game :=
  mkGame (players g) (board g) (tiles g) vs (total_turns g)
         (villager_counter g) (game_end_reason g).
Definition set_total_turns (n : Z) (g : Game) : Game :=
  mkGame (players g) (board g) (tiles g) (vstore g) n
         (villager_counter g) (game_end_reason g).
Definition set_villager_counter (n : Z) (g : Game) : Game :=
  mkGame (players g) (board g) (tiles g) (vstore g) (total_turns g)
         n (game_end_reason g).
Definition set_game_end_reason (s : string) (g : Game) : Game :=
  mkGame (players g) (board g) (tiles g) (vstore g) (total_turns g)
         (villager_counter g) s.

(** ** [Game.__init__] *)

(** The inner loop [for c in range(5)] of row [r]; [pool] is
    [remaining_types], [ts] the tile objects created so far. *)
Fixpoint init_row (r : nat) (cs : list nat) (pool : list tile_type)
    (tile_id : Z) (ts : list Tile.t) (row : list (option nat))
    : res (list tile_type * Z * list Tile.t * list (option nat)) :=
  match cs with
  | [] => Ret (pool, tile_id, ts, row)
  | c :: cs' =>
      '(ty, pool') ← (if decide (r = 1%nat /\ c = 2%nat)
                       then Ret (volcano, pool)
                       else py_pop pool);
      init_row r cs' pool' (tile_id + 1)
               (ts ++ [Tile.init tile_id ty]) (row ++ [Some (length ts)])
  end.

(** The outer loop [for r in range(3)]. *)
Fixpoint init_rows (rs : list nat) (pool : list tile_type) (tile_id : Z)
    (ts : list Tile.t) (b : list (list (option nat)))
    : res (list Tile.t * list (list (option nat))) :=
  match rs with
  | [] => Ret (ts, b)
  | r :: rs' =>
      '(pool', tile_id', ts', row) ← init_row r (seq 0 5) pool tile_id ts [];
      init_rows rs' pool' tile_id' ts' (b ++ [row])
  end.

(** [shuffled] is [remaining_types] after [random.shuffle]. *)
Definition Game_init (shuffled : list tile_type) : res Game :=
  '(ts, b) ← init_rows (seq 0 3) shuffled 1 [] [];
  Ret (mkGame [Player.init "Human" true;
               Player.init "Computer1" false;
               Player.init "Computer2" false]
              b ts [] 0 1 EmptyString).

(** The pool before shuffling. *)
Definition remaining_types : list tile_type :=
  replicate 7 beach ++ replicate 4 forest ++ replicate 3 mountain.

(** ** Board queries *)

(** [get_all_tiles]: the references held by the non-empty slots, row by row. *)
Definition get_all_tiles (g : Game) : list nat :=
  omap id (concat (board g)).

Fixpoint find_in_row (ts : list Tile.t) (tid : Z) (c : nat)
    (row : list (option nat)) : option (nat * nat) :=
  match row with
  | [] => None
  | slot :: row' =>
      match slot with
      | Some a =>
          match ts !! a with
          | Some tl => if decide (Tile.id tl = tid) then Some (c, a)
                       else find_in_row ts tid (S c) row'
          | None => find_in_row ts tid (S c) row'
          end
      | None => find_in_row ts tid (S c) row'
      end
  end.

Fixpoint find_in_rows (ts : list Tile.t) (tid : Z) (r : nat)
    (b : list (list (option nat))) : option (nat * nat * nat) :=
  match b with
  | [] => None
  | row :: b' =>
      match find_in_row ts tid 0 row with
      | Some (c, a) => Some (r, c, a)
      | None => find_in_rows ts tid (S r) b'
      end
  end.

(** [find_tile_by_id]: row, column and tile of the first slot holding a
    tile with that id; [None] stands for the triple of Nones. *)
Definition find_tile_by_id (g : Game) (tid : Z) : option (nat * nat * nat) :=
  find_in_rows (tiles g) tid 0 (board g).

(** [all_tiles_sunk] *)
Definition all_tiles_sunk (g : Game) : bool :=
  bool_decide (get_all_tiles g = []).


(** ** Placement: [setup] *)

(** [len(tile.villagers) < tile.capacity] for the tile behind a reference. *)
Definition has_room (g : Game) (a : nat) : bool :=
  match tiles g !! a with
  | Some tl => bool_decide (length (Tile.villagers tl) < Tile.capacity tl)%nat
  | None => false
  end.

(** [[tile for tile in self.get_all_tiles()
      if len(tile.villagers) < tile.capacity]] *)
Definition valid_tiles (g : Game) : list nat :=
  filter (fun a => has_room g a = true) (get_all_tiles g).

(** [_coord_to_index]: the column letter is already an index; the row
    number is checked exactly as the source does. *)
Definition _coord_to_index (coord : Line) : option (nat * nat) :=
  match coord with
  | Coord col_index row_number =>
      let row_index := row_number - 1 in
      if (row_index <? 0) || (3 <=? row_index) || (5 <=? Z.of_nat col_index)
      then None
      else Some (Z.to_nat row_index, col_index)
  | _ => None
  end.

(** [self.board[rr][cc]] *)
Definition board_at (g : Game) (rr cc : nat) : res (option nat) :=
  of_option IndexError (board g !! rr ≫= fun row => row !! cc).

(** [coordinate_to_index_reprompt]; the [while attempts > 0] loop is
    structural in [attempts]. *)
Fixpoint reprompt_loop (g : Game) (attempts : nat) (coord_input : Line)
    (w : World) : res (option (nat * nat) * World) :=
  match attempts with
  | O => Ret (None, w)
  | S n =>
      let again :=
        match n with
        | O => Ret (None, w)
        | S _ => '(l, w') ← read_line w; reprompt_loop g n l w'
        end in
      match _coord_to_index coord_input with
      | None => again
      | Some (rr, cc) =>
          chosen_tile ← board_at g rr cc;
          match chosen_tile with
          | None => again
          | Some a => if has_room g a then Ret (Some (rr, cc), w) else again
          end
      end
  end.

Definition coordinate_to_index_reprompt (g : Game) (coord_input : Line)
    (w : World) : res (option (nat * nat) * World) :=
  reprompt_loop g 3 coord_input w.

(** The tail of one iteration of [for _ in range(10)]: create the villager
    on the tile behind [a] for player number [i] and link it both ways. *)
Definition place (g : Game) (i : nat) (treasure : Z) (a : nat) : res Game :=
  p ← of_option BadRef (players g !! i);
  tl ← of_option BadRef (tiles g !! a);
  let villager := Villager.mk (villager_counter g) (Player.name p) treasure
                              land (Tile.distance tl) (Some a) in
  let va := length (vstore g) in
  Ret (mkGame
         (<[i := Player.set_villagers (Player.villagers p ++ [va]) p]>
            (players g))
         (board g)
         (<[a := Tile.set_villagers (Tile.villagers tl ++ [va]) tl]> (tiles g))
         (vstore g ++ [villager])
         (total_turns g)
         (villager_counter g + 1)
         (game_end_reason g)).

(** The choice of [chosen_tile] in one iteration. *)
Definition choose_tile (g : Game) (by_hand : bool) (valid : list nat)
    (w : World) : res (nat * World) :=
  if by_hand then
    '(coord_input, w1) ← read_line w;
    '(r_c, w2) ← coordinate_to_index_reprompt g coord_input w1;
    match r_c with
    | None => choice valid w2
    | Some (rr, cc) =>
        slot ← board_at g rr cc;
        a ← of_option AttributeError slot;
        Ret (a, w2)
    end
  else choice valid w.

(** [for _ in range(n)] for player number [i]; [break] when no tile has
    room. *)
Fixpoint place_villagers (n : nat) (i : nat) (random_place : bool)
    (g : Game) (w : World) : res (Game * World) :=
  match n with
  | O => Ret (g, w)
  | S n' =>
      p ← of_option BadRef (players g !! i);
      let '(treasure, w1) := randint_1_6 w in
      let valid := valid_tiles g in
      match valid with
      | [] => Ret (g, w1)
      | _ :: _ =>
          '(a, w2) ← choose_tile g (Player.is_human p && negb random_place)
                                 valid w1;
          g' ← place g i treasure a;
          place_villagers n' i random_place g' w2
      end
  end.

(** The body of [for player in self.players]. *)
Definition setup_player (i : nat) (g : Game) (w : World)
    : res (Game * World) :=
  p ← of_option BadRef (players g !! i);
  '(random_place, w1) ←
     (if Player.is_human p then
        '(l, w') ← read_line w;
        Ret (match l with Yes => true | _ => false end, w')
      else Ret (false, w));
  place_villagers 10 i random_place g w1.

Fixpoint setup_from (idx : list nat) (g : Game) (w : World)
    : res (Game * World) :=
  match idx with
  | [] => Ret (g, w)
  | i :: idx' => '(g', w') ← setup_player i g w; setup_from idx' g' w'
  end.

Definition setup (g : Game) (w : World) : res (Game * World) :=
  setup_from (seq 0 (length (players g))) g w.


(** ** Movement: [player_move_phase] *)

(** The villagers of a player as (reference, object) pairs, in list order. *)
Definition villagers_of (g : Game) (p : Player.t) : list (nat * Villager.t) :=
  omap (fun a => pair a <$> vstore g !! a) (Player.villagers p).

Definition is_movable (x : nat * Villager.t) : bool := Villager.movable x.2.
Definition on_land (x : nat * Villager.t) : bool :=
  bool_decide (Villager.state x.2 = land).
Definition dist_key (x : nat * Villager.t) : Z :=
  Villager.distance_remaining x.2.

(** One applied move, recorded for the statements about a phase: which
    object moved, its state and distance when chosen, the points the
    player had, and the points spent. *)
Record Move : Type := mkMove {
  mv_villager : nat;
  mv_state : vstate;
  mv_distance : Z;
  mv_points : Z;
  mv_spent : Z
}.

(** The local variables of [player_move_phase]. *)
Record Locals : Type := mkLocals {
  points : Z;
  water_moved : gset Z;
  moves : list Move      (* ghost: the moves applied so far *)
}.

(** The block both branches end with:
    [v.distance_remaining -= move_points; points -= move_points;
     if v.distance_remaining <= 0: v.state = "safe"; if v.tile:
     v.tile.villagers.remove(v) else: if v.state == "water":
     water_moved.add(v.id)]. *)
Definition apply_move (g : Game) (va : nat) (move_points : Z) (loc : Locals)
    : res (Game * Locals) :=
  v ← of_option BadRef (vstore g !! va);
  let v1 := Villager.set_distance_remaining
              (Villager.distance_remaining v - move_points) v in
  let log := moves loc ++ [mkMove va (Villager.state v)
                             (Villager.distance_remaining v) (points loc)
                             move_points] in
  let points' := points loc - move_points in
  if Villager.distance_remaining v1 <=? 0 then
    let g1 := set_vstore (<[va := Villager.set_state safe v1]> (vstore g)) g in
    match Villager.tile v1 with
    | Some ta =>
        tl ← of_option BadRef (tiles g !! ta);
        l ← of_option ValueError (py_remove va (Tile.villagers tl));
        Ret (set_tiles (<[ta := Tile.set_villagers l tl]> (tiles g1)) g1,
             mkLocals points' (water_moved loc) log)
    | None => Ret (g1, mkLocals points' (water_moved loc) log)
    end
  else
    let g1 := set_vstore (<[va := v1]> (vstore g)) g in
    Ret (g1, mkLocals points'
               (if decide (Villager.state v1 = water)
                then {[Villager.id v1]} ∪ water_moved loc
                else water_moved loc)
               log).

(** [max_move] as both branches first compute it. *)
Definition max_move_of (v : Villager.t) (pts : Z) : Z :=
  if decide (Villager.state v = land)
  then Z.min pts (Villager.distance_remaining v)
  else 1.

(** *** The human branch *)

(** The [while True] loop around the y/n question. *)
Fixpoint ask_yes_no (inp : list Line) : res (bool * list Line) :=
  match inp with
  | [] => Raise EOFError
  | Yes :: r => Ret (true, r)
  | No :: r => Ret (false, r)
  | _ :: r => ask_yes_no r
  end.

(** [next((v for v in player.villagers
           if v.id == vid and v.state in ["land", "water"]), None)] *)
Definition lookup_movable (g : Game) (p : Player.t) (vid : Z)
    : option (nat * Villager.t) :=
  head (filter (fun x => Villager.id x.2 = vid /\ is_movable x = true)
               (villagers_of g p)).

(** [prompt_for_villager_id] *)
Fixpoint ask_villager_id (g : Game) (p : Player.t) (wm : gset Z)
    (inp : list Line) : res (nat * Villager.t * list Line) :=
  match inp with
  | [] => Raise EOFError
  | Digits vid :: r =>
      match lookup_movable g p vid with
      | None => ask_villager_id g p wm r
      | Some (va, v) =>
          if decide (Villager.state v = water /\ Villager.id v ∈ wm)
          then ask_villager_id g p wm r
          else Ret (va, v, r)
      end
  | _ :: r => ask_villager_id g p wm r
  end.

Definition prompt_for_villager_id (g : Game) (p : Player.t) (wm : gset Z)
    (w : World) : res (nat * Villager.t * World) :=
  '(va, v, r) ← ask_villager_id g p wm (input w);
  Ret (va, v, mkWorld (rand w) r).

(** [prompt_for_move_points] *)
Fixpoint ask_move_points (max_move : Z) (inp : list Line)
    : res (Z * list Line) :=
  match inp with
  | [] => Raise EOFError
  | Digits n :: r =>
      if (n <? 1) || (max_move <? n) then ask_move_points max_move r
      else Ret (n, r)
  | _ :: r => ask_move_points max_move r
  end.

Definition prompt_for_move_points (max_move : Z) (w : World)
    : res (Z * World) :=
  '(n, r) ← ask_move_points max_move (input w);
  Ret (n, mkWorld (rand w) r).

(** One pass through the loop body for a human player: [None] is [break],
    [Some] carries the state the next test of the loop condition sees
    (a [continue] leaves game and locals as they are). *)
Definition human_iter (g : Game) (p : Player.t) (loc : Locals) (w : World)
    : res (option (Game * Locals) * World) :=
  '(yes, r) ← ask_yes_no (input w);
  let w1 := mkWorld (rand w) r in
  if negb yes then Ret (None, w1) else
  '(va, v, w2) ← prompt_for_villager_id g p (water_moved loc) w1;
  let max_move := max_move_of v (points loc) in
  if max_move <=? 0 then Ret (Some (g, loc), w2) else
  '(move_points, w3) ← prompt_for_move_points max_move w2;
  if move_points <? 1 then Ret (Some (g, loc), w3) else
  r ← apply_move g va move_points loc;
  Ret (Some r, w3).

(** *** The computer branch *)

(** The villager the computer settles on: the first movable one of least
    distance; when that one is in the water and already marked, the first
    land villager of least distance; [None] when the loop breaks here. *)
Definition comp_select (g : Game) (p : Player.t) (wm : gset Z)
    : option (nat * Villager.t) :=
  let comp_movable := filter (fun x => is_movable x = true)
                             (villagers_of g p) in
  match py_min dist_key comp_movable with
  | None => None
  | Some v =>
      if decide (Villager.state v.2 = water /\ Villager.id v.2 ∈ wm) then
        let land_only := filter (fun x => on_land x = true) comp_movable in
        py_min dist_key land_only
      else Some v
  end.

(** [max_move] in the computer branch; [None] is the [break] of a marked
    water villager. *)
Definition comp_max_move (v : Villager.t) (loc : Locals) : option Z :=
  if decide (Villager.state v = land)
  then Some (Z.min (points loc) (Villager.distance_remaining v))
  else if decide (Villager.id v ∈ water_moved loc) then None
  else Some 1.

Definition comp_iter (g : Game) (p : Player.t) (loc : Locals)
    : res (option (Game * Locals)) :=
  match comp_select g p (water_moved loc) with
  | None => Ret None
  | Some (va, v) =>
      match comp_max_move v loc with
      | None => Ret None
      | Some max_move =>
          if max_move <=? 0 then Ret None else
          let move_points := max_move in
          r ← apply_move g va move_points loc;
          Ret (Some r)
      end
  end.

(** *** The loop *)

(** [points > 0 and any(v.state in ["land", "water"]
                        for v in player.villagers)] *)
Definition move_cond (g : Game) (p : Player.t) (loc : Locals) : bool :=
  (0 <? points loc) && existsb is_movable (villagers_of g p).

Fixpoint move_loop (fuel : nat) (i : nat) (g : Game) (loc : Locals)
    (w : World) : res (Game * Locals * World) :=
  match fuel with
  | O => Timeout
  | S fuel' =>
      p ← of_option BadRef (players g !! i);
      if move_cond g p loc then
        if Player.is_human p then
          '(o, w') ← human_iter g p loc w;
          match o with
          | None => Ret (g, loc, w')
          | Some (g', loc') => move_loop fuel' i g' loc' w'
          end
        else
          o ← comp_iter g p loc;
          match o with
          | None => Ret (g, loc, w)
          | Some (g', loc') => move_loop fuel' i g' loc' w
          end
      else Ret (g, loc, w)
  end.

(** [points = 3; water_moved = set()] *)
Definition move_start : Locals := mkLocals 3 ∅ [].

(** Every pass of a human player reads a line and every pass of a computer
    spends a point, so this many passes are never used up (see
    [move_loop_fuel]). *)
Definition move_fuel (w : World) : nat := S (length (input w) + 3).

(** [player_move_phase] for player number [i], with the list of moves it
    applied. *)
Definition player_move_phase_log (i : nat) (g : Game) (w : World)
    : res (Game * Locals * World) :=
  move_loop (move_fuel w) i g move_start w.

Definition player_move_phase (i : nat) (g : Game) (w : World)
    : res (Game * World) :=
  '(g', _, w') ← player_move_phase_log i g w; Ret (g', w').


(** ** Environmental phases *)

(** [t.type == ty] for the tile behind a reference. *)
Definition has_type (g : Game) (ty : tile_type) (a : nat) : bool :=
  match tiles g !! a with
  | Some tl => bool_decide (Tile.type tl = ty)
  | None => false
  end.

(** [[t for t in tiles if t.type == ty]] *)
Definition tiles_of_type (g : Game) (ty : tile_type) : list nat :=
  filter (fun a => has_type g ty a = true) (get_all_tiles g).

(** The [if beach_tiles: ... elif ...] cascade that sets [tile_to_sink]. *)
Definition choose_tile_to_sink (g : Game) (w : World)
    : res (option nat * World) :=
  let pick l := '(a, w') ← choice l w; Ret (Some a, w') in
  match tiles_of_type g beach with
  | (_ :: _) as beach_tiles => pick beach_tiles
  | [] =>
  match tiles_of_type g forest with
  | (_ :: _) as forest_tiles => pick forest_tiles
  | [] =>
  match tiles_of_type g mountain with
  | (_ :: _) as mountain_tiles => pick mountain_tiles
  | [] =>
  match tiles_of_type g volcano with
  | (_ :: _) as volcano_tiles => pick volcano_tiles
  | [] => Ret (None, w)
  end end end end.

(** One pass of [for v in tile.villagers]. *)
Definition drown_one (vs : list Villager.t) (va : nat) : list Villager.t :=
  match vs !! va with
  | Some v =>
      if decide (Villager.state v = land)
      then <[va := Villager.set_tile None (Villager.set_state water v)]> vs
      else vs
  | None => vs
  end.

Definition drown (occupants : list nat) (vs : list Villager.t)
    : list Villager.t :=
  foldl drown_one vs occupants.

(** [self.board[r][c] = None] *)
Definition clear_slot (r c : nat) (b : list (list (option nat)))
    : list (list (option nat)) :=
  alter (fun row => <[c := None]> row) r b.

(** [sink_tile], also returning the slot it emptied and the tile that was
    there ([None] when there was nothing left to sink). *)
Definition sink_tile_at (g : Game) (w : World)
    : res (Game * option (nat * nat * nat) * World) :=
  '(tile_to_sink, w1) ← choose_tile_to_sink g w;
  match tile_to_sink with
  | Some a0 =>
      t0 ← of_option BadRef (tiles g !! a0);
      '(r, c, a) ← of_option AttributeError (find_tile_by_id g (Tile.id t0));
      tl ← of_option BadRef (tiles g !! a);
      Ret (set_board (clear_slot r c (board g))
             (set_vstore (drown (Tile.villagers tl) (vstore g)) g),
           Some (r, c, a), w1)
  | None => Ret (g, None, w1)
  end.

Definition sink_tile (g : Game) (w : World) : res (Game * World) :=
  '(g', _, w') ← sink_tile_at g w; Ret (g', w').

(** The list [all_water] built by the two nested loops. *)
Definition in_water (g : Game) (va : nat) : bool :=
  match vstore g !! va with
  | Some v => bool_decide (Villager.state v = water)
  | None => false
  end.

Definition all_water (g : Game) : list nat :=
  concat (map (fun p => filter (fun va => in_water g va = true)
                               (Player.villagers p))
              (players g)).

(** [victim.state = "dead"] *)
Definition kill (va : nat) (g : Game) : Game :=
  set_vstore (alter (Villager.set_state dead) va (vstore g)) g.

(** [creature_phase], also returning the roll and the victim. *)
Definition creature_phase_at (g : Game) (w : World)
    : res (Game * Z * option nat * World) :=
  let '(roll, w1) := randint_1_6 w in
  if bool_decide (roll = 1 \/ roll = 2) then
    match all_water g with
    | (_ :: _) as aw =>
        '(victim, w2) ← choice aw w1;
        Ret (kill victim g, roll, Some victim, w2)
    | [] => Ret (g, roll, None, w1)
    end
  else Ret (g, roll, None, w1).

Definition creature_phase (g : Game) (w : World) : res (Game * World) :=
  '(g', _, _, w') ← creature_phase_at g w; Ret (g', w').

(** ** The controller: [play] *)

Definition all_sunk_reason : string := "All tiles have sunk!".
Definition erupts_reason : string := "Reached maximum turns (volcano erupts)!".

(** The body of [for player in self.players]; the flag is [True] when the
    body ends in [game_over = True; break]. *)
Definition player_turn (i : nat) (g : Game) (w : World)
    : res (Game * bool * World) :=
  if all_tiles_sunk g then Ret (set_game_end_reason all_sunk_reason g, true, w)
  else
    '(g1, w1) ← player_move_phase i g w;
    if all_tiles_sunk g1
    then Ret (set_game_end_reason all_sunk_reason g1, true, w1)
    else
      '(g2, w2) ← sink_tile g1 w1;
      if all_tiles_sunk g2
      then Ret (set_game_end_reason all_sunk_reason g2, true, w2)
      else
        '(g3, w3) ← creature_phase g2 w2;
        Ret (g3, false, w3).

Fixpoint for_players (idx : list nat) (g : Game) (w : World)
    : res (Game * bool * World) :=
  match idx with
  | [] => Ret (g, false, w)
  | i :: idx' =>
      '(g', game_over, w') ← player_turn i g w;
      if game_over : bool then Ret (g', true, w') else for_players idx' g' w'
  end.

(** What follows the [for] loop in a round:
    [if self.total_turns >= MAX_TURNS and not game_over: ...]. *)
Definition check_max_turns (g : Game) (game_over : bool) : Game * bool :=
  if (MAX_TURNS <=? total_turns g) && negb game_over
  then (set_game_end_reason erupts_reason g, true)
  else (g, game_over).

(** One pass of [while not game_over], entered with tiles on the board. *)
Definition play_round (g : Game) (w : World) : res (Game * bool * World) :=
  let g1 := set_total_turns (total_turns g + 1) g in
  '(g2, game_over, w2) ← for_players (seq 0 (length (players g1))) g1 w;
  let '(g3, game_over') := check_max_turns g2 game_over in
  Ret (g3, game_over', w2).

Fixpoint play_loop (fuel : nat) (g : Game) (w : World) : res (Game * World) :=
  match fuel with
  | O => Timeout
  | S fuel' =>
      if all_tiles_sunk g then Ret (set_game_end_reason all_sunk_reason g, w)
      else
        '(g', game_over, w') ← play_round g w;
        if game_over : bool then Ret (g', w') else play_loop fuel' g' w'
  end.

(** A round that does not end the game leaves the counter below
    [MAX_TURNS], so this many rounds are never used up (see
    [play_loop_fuel]). *)
Definition play_fuel (g : Game) : nat :=
  S (Z.to_nat (MAX_TURNS - total_turns g)).

(** ** Scores and winner *)

(** [[v for v in player.villagers if v.state == "safe"]] *)
Definition safe_villagers (g : Game) (p : Player.t)
    : list (nat * Villager.t) :=
  filter (fun x => Villager.state x.2 = safe) (villagers_of g p).

(** [sum(v.treasure for v in safe_villagers)] *)
Definition score_of (g : Game) (p : Player.t) : Z :=
  foldr Z.add 0 (map (fun x => Villager.treasure x.2) (safe_villagers g p)).

(** The loop [for player in self.players: ... player.score = score]. *)
Definition compute_scores (g : Game) : Game :=
  set_players (map (fun p => Player.set_score (score_of g p) p) (players g)) g.

(** [max(self.players, key=lambda p: p.score)], with the position of the
    winner in [self.players]. *)
Definition winner (g : Game) : res (nat * Player.t) :=
  of_option ValueError
    (py_max (fun x : nat * Player.t => Player.score x.2)
            (imap (fun i p => (i, p)) (players g))).

(** What follows the [while] loop. *)
Definition finish (g : Game) : res (Game * (nat * Player.t)) :=
  let g1 := if decide (game_end_reason g = EmptyString)
            then set_game_end_reason "End condition met." g else g in
  let g2 := compute_scores g1 in
  win ← winner g2;
  Ret (g2, win).

(** [play] on a freshly constructed game. *)
Definition play (g : Game) (w : World)
    : res (Game * (nat * Player.t) * World) :=
  '(g1, w1) ← setup g w;
  '(g2, w2) ← play_loop (play_fuel g1) g1 w1;
  '(g3, win) ← finish g2;
  Ret (g3, win, w2).


(** * Notions used by the statements *)

(** The villager as [apply_move] leaves it. *)
Definition moved (k : Z) (v : Villager.t) : Villager.t :=
  let v1 := Villager.set_distance_remaining
              (Villager.distance_remaining v - k) v in
  if Villager.distance_remaining v1 <=? 0
  then Villager.set_state safe v1 else v1.

(** A move the rules allow for player [p] with locals [loc]: the villager
    is one of the player's, is on land or in the water, is not a marked
    swimmer, and the amount is between 1 and [max_move]. *)
Definition legal_move (g : Game) (p : Player.t) (loc : Locals)
    (va : nat) (v : Villager.t) (k : Z) : Prop :=
  (va, v) ∈ villagers_of g p /\
  Villager.movable v = true /\
  (Villager.state v = water -> Villager.id v ∉ water_moved loc) /\
  1 <= k <= max_move_of v (points loc).


(** The sink priority of a tile type: beach first, volcano last. *)
Definition tier (ty : tile_type) : nat :=
  match ty with
  | beach => 0
  | forest => 1
  | mountain => 2
  | volcano => 3
  end.

(** A villager after falling into the water. *)
Definition wet (v : Villager.t) : Villager.t :=
  Villager.set_tile None (Villager.set_state water v).

(** One state change of the game, as the program performs it: placing a
    villager, one pass of a movement loop that goes on, sinking a tile, a
    creature phase, and the book-keeping of the controller. *)
Inductive step : Game -> Game -> Prop :=
  | step_place g i by_hand treasure a w w' g' :
      valid_tiles g <> [] ->
      choose_tile g by_hand (valid_tiles g) w = Ret (a, w') ->
      place g i treasure a = Ret g' ->
      step g g'
  | step_human g i p loc w g' loc' w' :
      players g !! i = Some p ->
      human_iter g p loc w = Ret (Some (g', loc'), w') ->
      step g g'
  | step_comp g i p loc g' loc' :
      players g !! i = Some p ->
      comp_iter g p loc = Ret (Some (g', loc')) ->
      step g g'
  | step_sink g w g' w' :
      sink_tile g w = Ret (g', w') -> step g g'
  | step_creature g w g' w' :
      creature_phase g w = Ret (g', w') -> step g g'
  | step_turn g :
      step g (set_total_turns (total_turns g + 1) g)
  | step_reason g s :
      step g (set_game_end_reason s g)
  | step_scores g :
      step g (compute_scores g).

(** A game as [Game()] builds it, for some outcome of the shuffle. *)
Definition fresh (g : Game) : Prop :=
  exists shuffled,
    shuffled ≡ₚ remaining_types /\ Game_init shuffled = Ret g.

Definition reachable (g : Game) : Prop :=
  exists g0, fresh g0 /\ rtc step g0 g.

(** The object graph of a reachable game. *)
Record wf (g : Game) : Prop := mkWf {
  wf_tile_id : forall a t,
    tiles g !! a = Some t -> Tile.id t = Z.of_nat a + 1;
  wf_tile_shape : forall a t,
    tiles g !! a = Some t ->
    Tile.capacity t = 3%nat /\
    Tile.distance t = TILE_INFO_distance (Tile.type t);
  wf_capacity : forall a t,
    tiles g !! a = Some t ->
    (length (Tile.villagers t) <= Tile.capacity t)%nat;
  wf_board : forall a,
    a ∈ get_all_tiles g -> is_Some (tiles g !! a);
  wf_land : forall va v,
    vstore g !! va = Some v -> Villager.state v = land ->
    exists ta t, Villager.tile v = Some ta /\ tiles g !! ta = Some t /\
                 va ∈ Tile.villagers t;
  wf_swim : forall va v,
    vstore g !! va = Some v ->
    Villager.state v = water \/ Villager.state v = dead ->
    Villager.tile v = None;
  wf_dist : forall va v,
    vstore g !! va = Some v ->
    (Villager.state v = safe <-> Villager.distance_remaining v <= 0);
  wf_vid : forall va v,
    vstore g !! va = Some v -> Villager.id v = Z.of_nat va + 1;
  wf_counter :
    villager_counter g = Z.of_nat (length (vstore g)) + 1;
  wf_players :
    map (fun p => (Player.name p, Player.is_human p)) (players g) =
    [("Human", true); ("Computer1", false); ("Computer2", false)]
}.

(** ** Games used as examples *)

(** [Game()] when the shuffle leaves the pool as it was. *)
Definition game0 : Game :=
  Eval vm_compute in
    match Game_init remaining_types with
    | Ret g => g
    | _ => mkGame [] [] [] [] 0 1 EmptyString
    end.

(** Nobody types anything and every random draw is 0. *)
Definition quiet : World := mkWorld [] [].



(** The human asks for random placement; the draws are digits of pi. *)
Definition seeded : World :=
  mkWorld [3; 1; 4; 1; 5; 9; 2; 6; 5; 3; 5; 8; 9; 7; 9; 3; 2; 3; 8; 4;
           6; 2; 6; 4; 3; 3; 8; 3; 2; 7; 9; 5; 0; 2; 8; 8; 4; 1; 9; 7;
           1; 6; 9; 3; 9; 9; 3; 7; 5; 1; 0; 5; 8; 2; 0; 9; 7; 4; 9; 4]%nat
          [Yes].

(** [game0] after [setup] in the world [seeded]. *)
Definition placed_game : Game :=
  Eval vm_compute in
    match setup game0 seeded with
    | Ret (g, _) => g
    | _ => game0
    end.

(** [placed_game] after [sink_tile] with draw 0: tile 9, a beach, sank. *)
Definition sunk_game : Game :=
  Eval vm_compute in
    match sink_tile placed_game quiet with
    | Ret (g, _) => g
    | _ => placed_game
    end.

(** No tile has an occupant in [g'] that it did not have in [g]. *)
Definition adds_no_occupant (g g' : Game) : Prop :=
  forall a t', tiles g' !! a = Some t' ->
    exists t, tiles g !! a = Some t /\
              forall va, va ∈ Tile.villagers t' -> va ∈ Tile.villagers t.

(** What a villager reference adds to its owner's score. *)
Definition treasure_if_safe (g : Game) (va : nat) : Z :=
  match vstore g !! va with
  | Some v => if decide (Villager.state v = safe)
              then Villager.treasure v else 0
  | None => 0
  end.

(** The moves of the list that took the villager behind [va] through the
    water. *)
Definition water_moves_of (va : nat) (log : list Move) : list Move :=
  filter (fun m => mv_villager m = va /\ mv_state m = water) log.

(** What the movement loop maintains about its list of moves: a villager
    that has moved through the water is safe or marked, and each such
    move spent one point. *)
Definition marks_ok (g : Game) (loc : Locals) : Prop :=
  (forall va, water_moves_of va (moves loc) <> [] ->
     length (water_moves_of va (moves loc)) = 1%nat /\
     exists v, vstore g !! va = Some v /\
               (Villager.state v = safe \/
                (Villager.state v = water /\
                 Villager.id v ∈ water_moved loc))) /\
  Forall (fun m => mv_state m = water -> mv_spent m = 1) (moves loc).

(** [placed_game] after the movement phase of Computer1. *)
Definition moved_game : Game :=
  Eval vm_compute in
    match player_move_phase 1 placed_game quiet with
    | Ret (g, _) => g
    | _ => placed_game
    end.

(** The number of occupants over all tiles. *)
Definition occupancy (g : Game) : nat :=
  sum_list_with (fun t => length (Tile.villagers t)) (tiles g).

Definition full_board : list (list (option nat)) :=
  [[Some 0; Some 1; Some 2; Some 3; Some 4];
   [Some 5; Some 6; Some 7; Some 8; Some 9];
   [Some 10; Some 11; Some 12; Some 13; Some 14]]%nat.

(** A game during [setup]: no tile has sunk and every villager stands on
    a tile. *)
Definition placing (g : Game) : Prop :=
  wf g /\ board g = full_board /\ length (tiles g) = 15%nat /\
  occupancy g = length (vstore g) /\ total_turns g = 0.

(** The number of tiles on the board. *)
Definition tiles_left (g : Game) : nat := length (get_all_tiles g).

(** * More of the program *)

(** ** Console output

    The print functions are embedded as the data they print; the text
    layout (padding, colour codes) is left out.  A coordinate such as B2
    is the line [Coord 1 2]: the index of the column letter in
    [COL_LETTERS] and the row number. *)

Definition COL_LETTERS : list string := ["A"; "B"; "C"; "D"; "E"].

(** [TILE_INFO[t]["letter"]] *)
Definition TILE_INFO_letter (t : tile_type) : string :=
  match t with
  | beach => "B"
  | forest => "F"
  | mountain => "M"
  | volcano => "V"
  end.

(** What a print function can raise while it builds a coordinate. *)
Inductive print_exn : Type :=
  | TypeError          (* COL_LETTERS[None], after a failed lookup *)
  | LetterIndexError   (* COL_LETTERS[c] with c out of range *)
  | LostRef.           (* a reference outside the tile store, see [BadRef] *)

(** [f"{COL_LETTERS[c]}{r+1}"] for the [r, c] that [find_tile_by_id]
    returned. *)
Definition coord_label (found : option (nat * nat * nat))
    : print_exn + Line :=
  match found with
  | None => inl TypeError
  | Some (r, c, _) =>
      match COL_LETTERS !! c with
      | Some _ => inr (Coord c (Z.of_nat r + 1))
      | None => inl LetterIndexError
      end
  end.

(** A [for] loop that prints one line per element and stops at the first
    exception. *)
Fixpoint print_each {A B} (f : A -> print_exn + B) (l : list A)
    : print_exn + list B :=
  match l with
  | [] => inr []
  | x :: l' =>
      match f x with
      | inl e => inl e
      | inr y =>
          match print_each f l' with
          | inl e => inl e
          | inr ys => inr (y :: ys)
          end
      end
  end.

(** A cell of [print_board]: the marker of a sunk tile, or the letter and
    the number of occupants of the tile.  [LostCell] is the cell of a slot
    whose reference is outside the tile store. *)
Inductive cell : Type :=
  | SunkCell
  | TileCell (letter : string) (occupants : nat)
  | LostCell.

Definition cell_of (g : Game) (slot : option nat) : cell :=
  match slot with
  | None => SunkCell
  | Some a =>
      match tiles g !! a with
      | Some tl => TileCell (TILE_INFO_letter (Tile.type tl))
                            (length (Tile.villagers tl))
      | None => LostCell
      end
  end.

(** [print_board]: the cells, row by row. *)
Definition print_board (g : Game) : list (list cell) :=
  map (map (cell_of g)) (board g).

(** [sum(1 for v in player.villagers if ...)] for a test on the state. *)
Definition count_villagers (test : vstate -> bool) (g : Game) (p : Player.t)
    : nat :=
  length (filter (fun x : nat * Villager.t =>
                    test (Villager.state x.2) = true)
                 (villagers_of g p)).

(** [print_player_statuses]: name, remaining, saved and killed of every
    player. *)
Definition print_player_statuses (g : Game)
    : list (string * nat * nat * nat) :=
  map (fun p =>
         (Player.name p,
          count_villagers (fun s => match s with
                                    | land | water => true
                                    | _ => false end) g p,
          count_villagers (fun s => bool_decide (s = safe)) g p,
          count_villagers (fun s => bool_decide (s = dead)) g p))
      (players g).

(** One line of [print_human_villagers]: id, coordinate ([None] stands for
    the text "in water") and moves needed. *)
Definition villager_line (g : Game) (x : nat * Villager.t)
    : print_exn + (Z * option Line * Z) :=
  let v := x.2 in
  match Villager.state v, Villager.tile v with
  | land, Some ta =>
      match tiles g !! ta with
      | Some tl =>
          match coord_label (find_tile_by_id g (Tile.id tl)) with
          | inr coord => inr (Villager.id v, Some coord,
                              Villager.distance_remaining v)
          | inl e => inl e
          end
      | None => inl LostRef
      end
  | _, _ => inr (Villager.id v, None, Villager.distance_remaining v)
  end.

(** [print_human_villagers] *)
Definition print_human_villagers (g : Game) (p : Player.t)
    : print_exn + list (Z * option Line * Z) :=
  print_each (villager_line g)
    (filter (fun x => is_movable x = true) (villagers_of g p)).

(** The list "Available Tiles" that [setup] prints before it asks for a
    coordinate: coordinate, type and id of every tile with room. *)
Definition available_line (g : Game) (a : nat)
    : print_exn + (Line * tile_type * Z) :=
  match tiles g !! a with
  | Some tl =>
      match coord_label (find_tile_by_id g (Tile.id tl)) with
      | inr coord => inr (coord, Tile.type tl, Tile.id tl)
      | inl e => inl e
      end
  | None => inl LostRef
  end.

Definition print_available_tiles (g : Game)
    : print_exn + list (Line * tile_type * Z) :=
  print_each (available_line g) (valid_tiles g).

(** ** Further notions *)

(** How the state of a villager can change in one step. *)
Definition forward (s s' : vstate) : Prop :=
  match s with
  | land => s' = land \/ s' = water \/ s' = safe
  | water => s' = water \/ s' = safe \/ s' = dead
  | safe => s' = safe
  | dead => s' = dead
  end.

(** More of the object graph of a reachable game: the shape of the board,
    the place of every tile, the two-way link between a tile on the board
    and the villagers standing on it, the range of the remaining distance,
    and who owns whom. *)
Record linked (g : Game) : Prop := mkLinked {
  lk_shape : forall r c,
    (r < 3)%nat -> (c < 5)%nat -> exists slot, board_at g r c = Ret slot;
  lk_slot : forall r c a,
    board_at g r c = Ret (Some a) ->
    a = (5 * r + c)%nat /\ (r < 3)%nat /\ (c < 5)%nat;
  lk_volcano : forall a t,
    tiles g !! a = Some t -> (Tile.type t = volcano <-> a = 7%nat);
  lk_occ_valid : forall ta tl va,
    tiles g !! ta = Some tl -> va ∈ Tile.villagers tl ->
    is_Some (vstore g !! va);
  lk_occ_nodup : forall ta tl,
    tiles g !! ta = Some tl -> NoDup (Tile.villagers tl);
  lk_occupant : forall ta tl va,
    ta ∈ get_all_tiles g -> tiles g !! ta = Some tl ->
    va ∈ Tile.villagers tl ->
    exists v, vstore g !! va = Some v /\ Villager.state v = land /\
              Villager.tile v = Some ta;
  lk_on_board : forall va v ta,
    vstore g !! va = Some v -> Villager.state v = land ->
    Villager.tile v = Some ta -> ta ∈ get_all_tiles g;
  lk_range : forall va v,
    vstore g !! va = Some v ->
    0 <= Villager.distance_remaining v <= 3;
  lk_owned : forall i p va,
    players g !! i = Some p -> va ∈ Player.villagers p ->
    exists v, vstore g !! va = Some v /\
              Villager.owner v = Player.name p
}.

(** The points spent by a list of moves. *)
Definition spent (log : list Move) : Z :=
  foldr Z.add 0 (map mv_spent log).

(** The villagers that stand on the tile behind [a]: on land, with their
    tile reference on that tile; in the order of the villager store. *)
Definition stands_on (g : Game) (a : nat) (va : nat) : bool :=
  match vstore g !! va with
  | Some v => bool_decide (Villager.state v = land /\
                           Villager.tile v = Some a)
  | None => false
  end.

Definition standing_on (g : Game) (a : nat) : list nat :=
  filter (fun va => stands_on g a va = true) (seq 0 (length (vstore g))).

(** What [coordinate_to_index_reprompt] does with one typed line: the slot
    it accepts, when the line is a coordinate of the grid whose slot holds
    a tile with room; [None] when it asks again. *)
Definition accepts (g : Game) (l : Line) : option (nat * nat) :=
  match _coord_to_index l with
  | Some (rr, cc) =>
      match board_at g rr cc with
      | Ret (Some a) => if has_room g a then Some (rr, cc) else None
      | _ => None
      end
  | None => None
  end.

(** [n] calls of [sink_tile] in a row, each drawing 0. *)
Fixpoint sinks (n : nat) (g : Game) : Game :=
  match n with
  | O => g
  | S n' =>
      match sink_tile g quiet with
      | Ret (g', _) => sinks n' g'
      | _ => g
      end
  end.

(** [game0] after fourteen tiles have sunk: only the volcano stands. *)
Definition volcano_left : Game := Eval vm_compute in sinks 14 game0.

(** The book-keeping of a movement phase adds up: the points spent and the
    points left make the 3 points of the phase, the points left are not
    negative, and every applied move spent at least one point, no more
    than the player had and no more than the villager had to go. *)
Definition budget_ok (loc : Locals) : Prop :=
  spent (moves loc) + points loc = 3 /\ 0 <= points loc /\
  Forall (fun m => 1 <= mv_spent m /\ mv_spent m <= mv_points m /\
                   mv_spent m <= mv_distance m) (moves loc).



(** Who is in the game: id, owner and treasure of every villager, in the
    order of creation. *)
Definition roster (g : Game) : list (Z * string * Z) :=
  map (fun v => (Villager.id v, Villager.owner v, Villager.treasure v))
      (vstore g).

(** The villagers as [setup] leaves them: on land, with a treasure that
    [randint(1, 6)] drew, on a tile whose distance they still have to go. *)
Definition placed_ok (g : Game) : Prop :=
  forall va v, vstore g !! va = Some v ->
    Villager.state v = land /\ 1 <= Villager.treasure v <= 6 /\
    exists ta tl, Villager.tile v = Some ta /\ tiles g !! ta = Some tl /\
                  Villager.distance_remaining v = Tile.distance tl.

(** The human asks for random placement and then never moves a villager;
    the draws are those of [seeded]. *)
Definition idle : World := mkWorld (rand seeded) [Yes; No; No; No; No; No].





(** * Properties *)

(** ** The list primitives *)

Section PyListFacts.
Context {A : Type} (key : A -> Z).

Lemma min_from_elem best l :
  min_from key best l = best \/ min_from key best l ∈ l.
Proof.
  revert best; induction l as [|x l IH]; intros best; simpl; [by left|].
  destruct (IH (if key x <? key best then x else best)) as [E|E].
  - rewrite E. destruct (key x <? key best); [right; left | by left].
  - right; by right.
Qed.

Lemma min_from_le_best best l : key (min_from key best l) <= key best.
Proof.
  revert best; induction l as [|x l IH]; intros best; simpl; [lia|].
  specialize (IH (if key x <? key best then x else best)).
  destruct (Z.ltb_spec (key x) (key best)); lia.
Qed.

Lemma min_from_le best l y : y ∈ l -> key (min_from key best l) <= key y.
Proof.
  revert best; induction l as [|x l IH]; intros best Hy; simpl.
  - by apply elem_of_nil in Hy.
  - apply elem_of_cons in Hy as [->|Hy]; [|by apply IH].
    pose proof (min_from_le_best (if key x <? key best then x else best) l).
    destruct (Z.ltb_spec (key x) (key best)); lia.
Qed.

(** [min] returns an element of the list whose key is least. *)
Lemma py_min_spec l m :
  py_min key l = Some m -> m ∈ l /\ forall y, y ∈ l -> key m <= key y.
Proof.
  destruct l as [|x l]; simpl; [done|]. intros [= <-]. split.
  - destruct (min_from_elem x l) as [->|E]; [left | by right].
  - intros y [->|Hy]%elem_of_cons.
    + apply min_from_le_best.
    + by apply min_from_le.
Qed.


Lemma max_from_ge_best best l : key best <= key (max_from key best l).
Proof.
  revert best; induction l as [|x l IH]; intros best; simpl; [lia|].
  specialize (IH (if key best <? key x then x else best)).
  destruct (Z.ltb_spec (key best) (key x)); lia.
Qed.

Lemma max_from_ge best l y : y ∈ l -> key y <= key (max_from key best l).
Proof.
  revert best; induction l as [|x l IH]; intros best Hy; simpl.
  - by apply elem_of_nil in Hy.
  - apply elem_of_cons in Hy as [->|Hy]; [|by apply IH].
    pose proof (max_from_ge_best (if key best <? key x then x else best) l).
    destruct (Z.ltb_spec (key best) (key x)); lia.
Qed.

(** The result of [max_from] is [best] itself, or sits at a position of
    [l] before which every key, and the key of [best], is strictly less. *)
Lemma max_from_first best l :
  max_from key best l = best \/
  exists i, l !! i = Some (max_from key best l) /\
            key best < key (max_from key best l) /\
            forall j y, (j < i)%nat -> l !! j = Some y ->
                        key y < key (max_from key best l).
Proof.
  revert best; induction l as [|x l IH]; intros best; simpl; [by left|].
  destruct (Z.ltb_spec (key best) (key x)) as [Hlt|Hge].
  - destruct (IH x) as [E|(i & Hi & Hk & Hbefore)].
    + right. exists 0%nat. rewrite E. split; [done|]. split; [done|].
      intros j y Hj; lia.
    + right. exists (S i). split; [done|]. split; [lia|].
      intros [|j] y Hj; simpl; [intros [= <-]; lia|].
      intros Hy. apply (Hbefore j); [lia|done].
  - destruct (IH best) as [E|(i & Hi & Hk & Hbefore)]; [by left|].
    right. exists (S i). split; [done|]. split; [done|].
    intros [|j] y Hj; simpl; [intros [= <-]; lia|].
    intros Hy. apply (Hbefore j); [lia|done].
Qed.

(** [max] returns the first element of greatest key. *)
Lemma py_max_spec l m :
  py_max key l = Some m ->
  exists i, l !! i = Some m /\
            (forall y, y ∈ l -> key y <= key m) /\
            (forall j y, (j < i)%nat -> l !! j = Some y -> key y < key m).
Proof.
  destruct l as [|x l]; simpl; [done|]. intros [= <-].
  destruct (max_from_first x l) as [E|(i & Hi & Hk & Hbefore)].
  - exists 0%nat. rewrite E. split; [done|]. split.
    + intros y [->|Hy]%elem_of_cons; [lia|].
      pose proof (max_from_ge x l y Hy) as Hm. by rewrite E in Hm.
    + intros j y Hj; lia.
  - exists (S i). split; [done|]. split.
    + intros y [->|Hy]%elem_of_cons; [lia | by apply max_from_ge].
    + intros [|j] y Hj; simpl; [intros [= <-]; lia|].
      intros Hy. apply (Hbefore j); [lia|done].
Qed.
End PyListFacts.

Lemma py_remove_length x l l' :
  py_remove x l = Some l' -> length l = S (length l').
Proof.
  revert l'; induction l as [|y l IH]; intros l'; simpl; [done|].
  case_decide; [by intros [= ->]|].
  destruct (py_remove x l) as [l0|]; simpl; [|done].
  intros [= <-]. simpl. f_equal. by apply IH.
Qed.

Lemma py_remove_other x l l' y :
  py_remove x l = Some l' -> y <> x -> y ∈ l -> y ∈ l'.
Proof.
  revert l'; induction l as [|z l IH]; intros l'; simpl; [done|].
  case_decide as Hz.
  - intros [= ->] Hne [->|Hy]%elem_of_cons; [congruence | done].
  - destruct (py_remove x l) as [l0|]; simpl; [|done].
    intros [= <-] Hne [->|Hy]%elem_of_cons; [left | right; by apply IH].
Qed.


(** ** The random source *)

Lemma choice_spec {A} (l : list A) w x w' :
  choice l w = Ret (x, w') ->
  x ∈ l /\ input w' = input w /\
  l !! (fst (draw w) mod length l)%nat = Some x /\ w' = snd (draw w).
Proof.
  unfold choice. destruct (draw w) as [d w1] eqn:Hd; simpl.
  destruct (l !! (d mod length l)%nat) as [y|] eqn:Hl; [|done].
  intros [= <- <-]. split; [by eapply list_elem_of_lookup_2|].
  split; [|done]. unfold draw in Hd.
  destruct (rand w); by inversion Hd.
Qed.

Lemma choice_total {A} (l : list A) w :
  l <> [] -> exists x, choice l w = Ret (x, snd (draw w)).
Proof.
  intros Hl. unfold choice. destruct (draw w) as [d w1]; simpl.
  destruct (lookup_lt_is_Some_2 l (d mod length l)%nat) as [x Hx].
  - apply Nat.mod_upper_bound. by destruct l.
  - exists x. by rewrite Hx.
Qed.

Lemma draw_input w : input (snd (draw w)) = input w.
Proof. unfold draw. by destruct (rand w). Qed.

Lemma randint_range w : 1 <= fst (randint_1_6 w) <= 6.
Proof.
  unfold randint_1_6. destruct (draw w) as [d w']; simpl.
  pose proof (Nat.mod_upper_bound d 6). lia.
Qed.

(** ** The board *)

Lemma elem_of_concat {A} (x : A) (ls : list (list A)) :
  x ∈ concat ls <-> exists l, l ∈ ls /\ x ∈ l.
Proof.
  induction ls as [|l ls IH]; simpl.
  - split; [by intros ?%elem_of_nil | by intros (l & ?%elem_of_nil & _)].
  - rewrite elem_of_app, IH. split.
    + intros [H|(l' & H1 & H2)]; [exists l; split; [left|done] |].
      exists l'. split; [by right | done].
    + intros (l' & [->|H1]%elem_of_cons & H2); [by left|].
      right. by exists l'.
Qed.

(** A tile is on the board when some slot holds a reference to it. *)
Lemma elem_of_get_all_tiles g a :
  a ∈ get_all_tiles g <->
  exists r row c, board g !! r = Some row /\ row !! c = Some (Some a).
Proof.
  unfold get_all_tiles. rewrite list_elem_of_omap. split.
  - intros (o & Ho & E). simpl in E. subst o.
    apply elem_of_concat in Ho as (row & Hrow & Ha).
    apply list_elem_of_lookup in Hrow as [r Hr].
    apply list_elem_of_lookup in Ha as [c Hc]. eauto.
  - intros (r & row & c & Hr & Hc). exists (Some a). split; [|done].
    apply elem_of_concat. exists row.
    split; eapply list_elem_of_lookup_2; eauto.
Qed.

Lemma all_tiles_sunk_spec g : all_tiles_sunk g = true <-> get_all_tiles g = [].
Proof. unfold all_tiles_sunk. apply bool_decide_eq_true. Qed.

Lemma find_in_row_spec ts tid c0 row c a :
  find_in_row ts tid c0 row = Some (c, a) ->
  exists k t, c = (c0 + k)%nat /\ row !! k = Some (Some a) /\
              ts !! a = Some t /\ Tile.id t = tid.
Proof.
  revert c0; induction row as [|slot row IH]; intros c0; simpl; [done|].
  assert (find_in_row ts tid (S c0) row = Some (c, a) ->
          exists k t, c = (c0 + k)%nat /\ (slot :: row) !! k = Some (Some a) /\
                      ts !! a = Some t /\ Tile.id t = tid) as Hrec.
  { intros (k & t & -> & Hk & Ht)%IH. exists (S k), t.
    split; [lia | done]. }
  destruct slot as [b|]; [|done].
  destruct (ts !! b) as [tl|] eqn:Hb; [|done].
  case_decide as Hid; [|done].
  intros [= <- <-]. exists 0%nat, tl. split; [lia | done].
Qed.

Lemma find_in_row_None ts tid c0 row k a t :
  find_in_row ts tid c0 row = None ->
  row !! k = Some (Some a) -> ts !! a = Some t -> Tile.id t <> tid.
Proof.
  revert c0 k; induction row as [|slot row IH]; intros c0 k; simpl; [done|].
  intros Hf Hk Ht. destruct k as [|k]; simpl in Hk.
  - injection Hk as ->. rewrite Ht in Hf. by case_decide.
  - eapply (IH (S c0) k); [|done..].
    destruct slot as [b|]; [|done].
    destruct (ts !! b); [|done]. by case_decide.
Qed.

Lemma find_in_rows_spec ts tid r0 b r c a :
  find_in_rows ts tid r0 b = Some (r, c, a) ->
  exists k row t, r = (r0 + k)%nat /\ b !! k = Some row /\
                  row !! c = Some (Some a) /\
                  ts !! a = Some t /\ Tile.id t = tid.
Proof.
  revert r0; induction b as [|row b IH]; intros r0; simpl; [done|].
  destruct (find_in_row ts tid 0 row) as [[c' a']|] eqn:Hrow.
  - intros [= <- <- <-].
    apply find_in_row_spec in Hrow as (k & t & -> & Hk & Ht & Hid).
    exists 0%nat, row, t. split; [lia | done].
  - intros (k & row' & t & -> & Hk & H)%IH.
    exists (S k), row', t. split; [lia | done].
Qed.

Lemma find_in_rows_None ts tid r0 b k row c a t :
  find_in_rows ts tid r0 b = None ->
  b !! k = Some row -> row !! c = Some (Some a) -> ts !! a = Some t ->
  Tile.id t <> tid.
Proof.
  revert r0 k; induction b as [|row0 b IH]; intros r0 k; simpl; [done|].
  destruct (find_in_row ts tid 0 row0) as [[c' a']|] eqn:Hrow; [done|].
  intros Hf Hk Hc Ht. destruct k as [|k]; simpl in Hk.
  - injection Hk as ->. by eapply find_in_row_None.
  - by eapply (IH (S r0) k).
Qed.

(** [find_tile_by_id] returns a slot that holds a tile with the id. *)
Lemma find_tile_by_id_spec g tid r c a :
  find_tile_by_id g tid = Some (r, c, a) ->
  exists row t, board g !! r = Some row /\ row !! c = Some (Some a) /\
                tiles g !! a = Some t /\ Tile.id t = tid.
Proof.
  intros (k & row & t & -> & H)%find_in_rows_spec. by exists row, t.
Qed.

(** It finds every tile that is on the board. *)
Lemma find_tile_by_id_total g a t :
  a ∈ get_all_tiles g -> tiles g !! a = Some t ->
  is_Some (find_tile_by_id g (Tile.id t)).
Proof.
  intros (r & row & c & Hr & Hc)%elem_of_get_all_tiles Ht.
  destruct (find_tile_by_id g (Tile.id t)) as [x|] eqn:Hf; [by eexists|].
  by destruct (find_in_rows_None _ _ _ _ _ _ _ _ _ Hf Hr Hc Ht).
Qed.

(** Emptying a slot. *)
Lemma clear_slot_lookup r c b r' c' :
  (clear_slot r c b !! r' ≫= fun row => row !! c') =
  if decide (r' = r /\ c' = c /\ is_Some (b !! r ≫= fun row => row !! c))
  then Some None
  else b !! r' ≫= fun row => row !! c'.
Proof.
  unfold clear_slot. destruct (decide (r' = r)) as [->|Hr].
  - rewrite list_lookup_alter_eq. destruct (b !! r) as [row|]; simpl.
    + destruct (decide (c' = c)) as [->|Hc].
      * destruct (row !! c) as [x|] eqn:Hx.
        -- rewrite list_lookup_insert_eq by by eapply lookup_lt_Some.
           rewrite decide_True; [done|]. split; [done|]. split; [done|].
           by eexists.
        -- rewrite list_insert_ge by by apply lookup_ge_None.
           rewrite Hx, decide_False; [done|]. by intros (_ & _ & [? [=]]).
      * rewrite list_lookup_insert_ne by done.
        rewrite decide_False; [done|]. by intros (_ & ? & _).
    + rewrite decide_False; [done|]. by intros (_ & _ & [? [=]]).
  - rewrite list_lookup_alter_ne by done.
    rewrite decide_False; [done|]. by intros (? & _).
Qed.

Lemma get_all_tiles_clear_slot g r c a :
  a ∈ omap id (concat (clear_slot r c (board g))) -> a ∈ get_all_tiles g.
Proof.
  intros Ha. apply elem_of_get_all_tiles.
  apply list_elem_of_omap in Ha as (o & Ho & E). simpl in E. subst o.
  apply elem_of_concat in Ho as (row & Hrow & Ha).
  apply list_elem_of_lookup in Hrow as [r' Hr'].
  apply list_elem_of_lookup in Ha as [c' Hc'].
  pose proof (clear_slot_lookup r c (board g) r' c') as E.
  rewrite Hr' in E. simpl in E. rewrite Hc' in E.
  case_decide; [done|].
  destruct (board g !! r') as [row'|] eqn:Hrow'; [|done]. simpl in E.
  exists r', row', c'. by rewrite <- E.
Qed.

(** ** What a move does *)

Lemma elem_of_villagers_of g p va v :
  (va, v) ∈ villagers_of g p <->
  va ∈ Player.villagers p /\ vstore g !! va = Some v.
Proof.
  unfold villagers_of. rewrite list_elem_of_omap. split.
  - intros (a & Ha & E). destruct (vstore g !! a) as [v'|] eqn:Hv; [|done].
    simpl in E. by injection E as -> ->.
  - intros [Ha Hv]. exists va. by rewrite Hv.
Qed.

Lemma apply_move_spec g va k loc g' loc' :
  apply_move g va k loc = Ret (g', loc') ->
  exists v,
    vstore g !! va = Some v /\
    vstore g' = <[va := moved k v]> (vstore g) /\
    players g' = players g /\ board g' = board g /\
    total_turns g' = total_turns g /\
    villager_counter g' = villager_counter g /\
    game_end_reason g' = game_end_reason g /\
    points loc' = points loc - k /\
    moves loc' = moves loc ++ [mkMove va (Villager.state v)
                                 (Villager.distance_remaining v)
                                 (points loc) k] /\
    (if Villager.distance_remaining v - k <=? 0
     then water_moved loc' = water_moved loc /\
          match Villager.tile v with
          | Some ta => exists tl l,
              tiles g !! ta = Some tl /\
              py_remove va (Tile.villagers tl) = Some l /\
              tiles g' = <[ta := Tile.set_villagers l tl]> (tiles g)
          | None => tiles g' = tiles g
          end
     else tiles g' = tiles g /\
          water_moved loc' =
            if decide (Villager.state v = water)
            then {[Villager.id v]} ∪ water_moved loc else water_moved loc).
Proof.
  unfold apply_move. destruct (vstore g !! va) as [v|] eqn:Hv; [|done].
  simpl. unfold moved. simpl.
  destruct (Villager.distance_remaining v - k <=? 0) eqn:Hd.
  - destruct (Villager.tile v) as [ta|] eqn:Hta.
    + destruct (tiles g !! ta) as [tl|] eqn:Htl; [|done]. simpl.
      destruct (py_remove va (Tile.villagers tl)) as [l|] eqn:Hl; [|done].
      simpl. intros [= <- <-]. exists v. simpl. rewrite Hd, Hta.
      repeat (split; [done|]). by exists tl, l.
    + intros [= <- <-]. exists v. simpl. rewrite Hd, Hta.
      by repeat (split; [done|]).
  - intros [= <- <-]. exists v. simpl. rewrite Hd.
    by repeat (split; [done|]).
Qed.

Lemma ask_villager_id_spec g p wm inp va v r :
  ask_villager_id g p wm inp = Ret (va, v, r) ->
  (va, v) ∈ villagers_of g p /\ Villager.movable v = true /\
  (Villager.state v = water -> Villager.id v ∉ wm) /\
  (length r < length inp)%nat.
Proof.
  induction inp as [|l inp IH]; simpl; [done|].
  assert (ask_villager_id g p wm inp = Ret (va, v, r) ->
          (va, v) ∈ villagers_of g p /\ Villager.movable v = true /\
          (Villager.state v = water -> Villager.id v ∉ wm) /\
          (length r < S (length inp))%nat) as Hrec.
  { intros (? & ? & ? & ?)%IH. repeat split; [done..|lia]. }
  destruct l as [| |vid| |]; try done.
  unfold lookup_movable.
  destruct (filter _ (villagers_of g p)) as [|[va' v'] rest] eqn:Hf;
    simpl; [done|].
  case_decide as Hmark; [done|]. intros [= -> -> ->].
  assert ((va, v) ∈ filter
            (fun x => Villager.id x.2 = vid /\ is_movable x = true)
            (villagers_of g p)) as Hin by (rewrite Hf; left).
  apply list_elem_of_filter in Hin as [[_ Hmov] Hin].
  split; [done|]. split; [done|]. split; [|lia].
  intros Hw Hwm. by apply Hmark.
Qed.

Lemma ask_move_points_spec max_move inp n r :
  ask_move_points max_move inp = Ret (n, r) ->
  1 <= n <= max_move /\ (length r < length inp)%nat.
Proof.
  induction inp as [|l inp IH]; simpl; [done|].
  assert (ask_move_points max_move inp = Ret (n, r) ->
          1 <= n <= max_move /\ (length r < S (length inp))%nat) as Hrec.
  { intros [? ?]%IH. split; [done|lia]. }
  destruct l as [| |m| |]; try done.
  destruct (Z.ltb_spec m 1); simpl; [done|].
  destruct (Z.ltb_spec max_move m); simpl; [done|].
  intros [= -> ->]. split; lia.
Qed.

Lemma ask_yes_no_spec inp b r :
  ask_yes_no inp = Ret (b, r) -> (length r < length inp)%nat.
Proof.
  induction inp as [|l inp IH]; simpl; [done|].
  destruct l; try (intros ?%IH; lia); intros [= _ <-]; lia.
Qed.

(** A pass of a human player that goes on either changed nothing or
    applied a legal move; it always used up console input. *)
Lemma human_iter_spec g p loc w g' loc' w' :
  human_iter g p loc w = Ret (Some (g', loc'), w') ->
  (length (input w') < length (input w))%nat /\ rand w' = rand w /\
  ((g' = g /\ loc' = loc) \/
   exists va v k, legal_move g p loc va v k /\
                  apply_move g va k loc = Ret (g', loc')).
Proof.
  unfold human_iter.
  destruct (ask_yes_no (input w)) as [[yes r]| |] eqn:Hyn; simpl; [|done..].
  apply ask_yes_no_spec in Hyn.
  destruct yes; simpl; [|done].
  unfold prompt_for_villager_id. simpl.
  destruct (ask_villager_id g p (water_moved loc) r)
    as [[[va v] r1]| |] eqn:Hid; simpl; [|done..].
  apply ask_villager_id_spec in Hid as (Hin & Hmov & Hmark & Hlen).
  destruct (Z.leb_spec (max_move_of v (points loc)) 0) as [Hmax|Hmax].
  { intros [= <- <- <-]. simpl. split; [lia|]. split; [done|]. by left. }
  unfold prompt_for_move_points. simpl.
  destruct (ask_move_points (max_move_of v (points loc)) r1)
    as [[k r2]| |] eqn:Hk; simpl; [|done..].
  apply ask_move_points_spec in Hk as [Hk Hlen2].
  destruct (Z.ltb_spec k 1); [lia|].
  destruct (apply_move g va k loc) as [[g1 loc1]| |] eqn:Hmove;
    simpl; [|done..].
  intros [= <- <- <-]. simpl. split; [lia|]. split; [done|].
  right. by exists va, v, k.
Qed.

Lemma human_iter_break g p loc w w' :
  human_iter g p loc w = Ret (None, w') ->
  (length (input w') < length (input w))%nat /\ rand w' = rand w.
Proof.
  unfold human_iter.
  destruct (ask_yes_no (input w)) as [[yes r]| |] eqn:Hyn; simpl; [|done..].
  apply ask_yes_no_spec in Hyn.
  destruct yes; simpl; [|by intros [= <-]].
  unfold prompt_for_villager_id. simpl.
  destruct (ask_villager_id g p (water_moved loc) r)
    as [[[va v] r1]| |]; simpl; [|done..].
  destruct (max_move_of v (points loc) <=? 0); [done|].
  unfold prompt_for_move_points. simpl.
  destruct (ask_move_points (max_move_of v (points loc)) r1)
    as [[k r2]| |]; simpl; [|done..].
  destruct (k <? 1); [done|].
  by destruct (apply_move g va k loc) as [[g1 loc1]| |].
Qed.

Lemma comp_select_spec g p wm va v :
  comp_select g p wm = Some (va, v) ->
  (va, v) ∈ villagers_of g p /\ Villager.movable v = true.
Proof.
  unfold comp_select.
  destruct (py_min dist_key _) as [m|] eqn:Hm; [|done].
  apply py_min_spec in Hm as [Hm _].
  apply list_elem_of_filter in Hm as [Hmov Hm].
  case_decide as Hmark.
  - intros [Hx _]%py_min_spec.
    apply list_elem_of_filter in Hx as [Hland Hx].
    apply list_elem_of_filter in Hx as [Hmov' Hx]. by split.
  - intros [= ->]. by split.
Qed.

Lemma comp_max_move_spec v loc k :
  comp_max_move v loc = Some k ->
  k = max_move_of v (points loc) /\
  (Villager.state v <> land -> Villager.id v ∉ water_moved loc).
Proof.
  unfold comp_max_move, max_move_of. case_decide as Hland.
  - by intros [= <-].
  - case_decide; [done|]. by intros [= <-].
Qed.

(** A pass of a computer player that goes on applied a legal move, to the
    villager [comp_select] names and by the largest legal amount. *)
Lemma comp_iter_spec g p loc g' loc' :
  comp_iter g p loc = Ret (Some (g', loc')) ->
  exists va v k,
    comp_select g p (water_moved loc) = Some (va, v) /\
    k = max_move_of v (points loc) /\
    legal_move g p loc va v k /\
    apply_move g va k loc = Ret (g', loc').
Proof.
  unfold comp_iter.
  destruct (comp_select g p (water_moved loc)) as [[va v]|] eqn:Hsel;
    [|done].
  destruct (comp_max_move v loc) as [k|] eqn:Hk; [|done].
  destruct (Z.leb_spec k 0) as [|Hpos]; [done|].
  destruct (apply_move g va k loc) as [r| |] eqn:Hmove; simpl; [|done..].
  intros [= ->]. exists va, v, k.
  apply comp_max_move_spec in Hk as [Hk Hmark].
  destruct (comp_select_spec _ _ _ _ _ Hsel) as [Hin Hmov].
  split; [done|]. split; [done|]. split; [|done].
  split; [done|]. split; [done|]. split; [|lia].
  intros Hw. apply Hmark. by rewrite Hw.
Qed.

(** ** What sinking a tile does *)

Lemma elem_of_tiles_of_type g ty a :
  a ∈ tiles_of_type g ty <->
  a ∈ get_all_tiles g /\
  exists t, tiles g !! a = Some t /\ Tile.type t = ty.
Proof.
  unfold tiles_of_type, has_type. rewrite list_elem_of_filter. split.
  - intros [Ht Ha]. split; [done|].
    destruct (tiles g !! a) as [t|]; [|done].
    apply bool_decide_eq_true in Ht. by exists t.
  - intros [Ha (t & Ht & Hty)]. split; [|done].
    rewrite Ht. by apply bool_decide_eq_true.
Qed.

Lemma choose_tile_to_sink_spec g w o w' :
  choose_tile_to_sink g w = Ret (o, w') ->
  match o with
  | Some a0 =>
      exists ty, a0 ∈ tiles_of_type g ty /\
                 forall ty', (tier ty' < tier ty)%nat ->
                             tiles_of_type g ty' = []
  | None => (forall ty, tiles_of_type g ty = []) /\ w' = w
  end.
Proof.
  unfold choose_tile_to_sink.
  destruct (tiles_of_type g beach) as [|x0 l0] eqn:Hb.
  2:{ destruct (choice (x0 :: l0) w) as [[a w1]| |] eqn:Hc; simpl; [|done..].
      intros [= <- <-]. exists beach. rewrite Hb.
      split; [by apply choice_spec in Hc as [? _]|].
      intros [] ?; simpl in *; lia. }
  destruct (tiles_of_type g forest) as [|x1 l1] eqn:Hf.
  2:{ destruct (choice (x1 :: l1) w) as [[a w1]| |] eqn:Hc; simpl; [|done..].
      intros [= <- <-]. exists forest. rewrite Hf.
      split; [by apply choice_spec in Hc as [? _]|].
      intros [] ?; simpl in *; (done || lia). }
  destruct (tiles_of_type g mountain) as [|x2 l2] eqn:Hm.
  2:{ destruct (choice (x2 :: l2) w) as [[a w1]| |] eqn:Hc; simpl; [|done..].
      intros [= <- <-]. exists mountain. rewrite Hm.
      split; [by apply choice_spec in Hc as [? _]|].
      intros [] ?; simpl in *; (done || lia). }
  destruct (tiles_of_type g volcano) as [|x3 l3] eqn:Hv.
  2:{ destruct (choice (x3 :: l3) w) as [[a w1]| |] eqn:Hc; simpl; [|done..].
      intros [= <- <-]. exists volcano. rewrite Hv.
      split; [by apply choice_spec in Hc as [? _]|].
      intros [] ?; simpl in *; (done || lia). }
  intros [= <- <-]. split; [|done]. by intros [].
Qed.

Lemma choose_tile_to_sink_total g w :
  exists o w', choose_tile_to_sink g w = Ret (o, w').
Proof.
  unfold choose_tile_to_sink.
  destruct (tiles_of_type g beach) as [|x0 l0].
  2:{ destruct (choice_total (x0 :: l0) w) as [a ->]; [done|].
      simpl. eauto. }
  destruct (tiles_of_type g forest) as [|x1 l1].
  2:{ destruct (choice_total (x1 :: l1) w) as [a ->]; [done|].
      simpl. eauto. }
  destruct (tiles_of_type g mountain) as [|x2 l2].
  2:{ destruct (choice_total (x2 :: l2) w) as [a ->]; [done|].
      simpl. eauto. }
  destruct (tiles_of_type g volcano) as [|x3 l3].
  2:{ destruct (choice_total (x3 :: l3) w) as [a ->]; [done|].
      simpl. eauto. }
  eauto.
Qed.

Lemma drown_one_lookup vs x va :
  drown_one vs x !! va =
  match vs !! va with
  | Some v => Some (if decide (va = x /\ Villager.state v = land)
                    then wet v else v)
  | None => None
  end.
Proof.
  unfold drown_one. destruct (decide (va = x)) as [->|Hne].
  - destruct (vs !! x) as [v|] eqn:Hv; [|by rewrite Hv].
    case_decide as Hland.
    + rewrite list_lookup_insert_eq by by eapply lookup_lt_Some.
      by rewrite decide_True.
    + rewrite Hv, decide_False; [done|]. by intros [_ ?].
  - transitivity (vs !! va).
    + destruct (vs !! x) as [v|]; [|done].
      destruct (decide (Villager.state v = land)); [|done].
      by apply list_lookup_insert_ne.
    + destruct (vs !! va) as [v|]; [|done].
      rewrite decide_False; [done|]. by intros [? _].
Qed.

(** After the loop over the occupants, exactly the occupants that were on
    land are in the water without a tile; every other villager is as
    before. *)
Lemma drown_lookup occ vs va :
  drown occ vs !! va =
  match vs !! va with
  | Some v => Some (if decide (va ∈ occ /\ Villager.state v = land)
                    then wet v else v)
  | None => None
  end.
Proof.
  unfold drown. revert vs; induction occ as [|x occ IH]; intros vs.
  - simpl. destruct (vs !! va) as [v|]; [|done].
    destruct (decide (va ∈ [] /\ Villager.state v = land))
      as [[?%elem_of_nil _]|]; done.
  - change (foldl drown_one vs (x :: occ))
      with (foldl drown_one (drown_one vs x) occ).
    rewrite IH, drown_one_lookup. destruct (vs !! va) as [v|]; [|done].
    f_equal. destruct (decide (va = x /\ Villager.state v = land))
      as [[-> Hland]|Hno].
    + destruct (decide (x ∈ occ /\ Villager.state (wet v) = land))
        as [[_ ?]|_]; [done|].
      destruct (decide (x ∈ x :: occ /\ Villager.state v = land))
        as [|Hn]; [done|]. destruct Hn. split; [left | done].
    + destruct (decide (va ∈ occ /\ Villager.state v = land))
        as [[Hin Hland]|Hno'];
      destruct (decide (va ∈ x :: occ /\ Villager.state v = land))
        as [[Hin' Hland']|Hno'']; try done.
      * destruct Hno''. split; [by right | done].
      * apply elem_of_cons in Hin' as [->|Hin']; [by destruct Hno|].
        by destruct Hno'.
Qed.

Lemma drown_length occ vs : length (drown occ vs) = length vs.
Proof.
  unfold drown. revert vs; induction occ as [|x occ IH]; intros vs; simpl;
    [done|].
  rewrite IH. unfold drown_one. destruct (vs !! x) as [v|]; [|done].
  case_decide; [by rewrite length_insert | done].
Qed.

(** [sink_tile] either finds no tile at all and changes nothing, or empties
    the slot of a tile that carries the id of a tile of the first
    non-empty tier, after dropping that tile's land occupants in the
    water. *)
Lemma sink_tile_at_spec g w g' o w' :
  sink_tile_at g w = Ret (g', o, w') ->
  match o with
  | Some (r, c, a) =>
      exists a0 t0 ty row tl,
        a0 ∈ tiles_of_type g ty /\
        (forall ty', (tier ty' < tier ty)%nat -> tiles_of_type g ty' = []) /\
        tiles g !! a0 = Some t0 /\
        board g !! r = Some row /\ row !! c = Some (Some a) /\
        tiles g !! a = Some tl /\ Tile.id tl = Tile.id t0 /\
        g' = set_board (clear_slot r c (board g))
               (set_vstore (drown (Tile.villagers tl) (vstore g)) g)
  | None => (forall ty, tiles_of_type g ty = []) /\ g' = g /\ w' = w
  end.
Proof.
  unfold sink_tile_at.
  destruct (choose_tile_to_sink g w) as [[o1 w1]| |] eqn:Hc; simpl; [|done..].
  apply choose_tile_to_sink_spec in Hc.
  destruct o1 as [a0|].
  - destruct (tiles g !! a0) as [t0|] eqn:Ht0; simpl; [|done].
    destruct (find_tile_by_id g (Tile.id t0)) as [[[r c] a]|] eqn:Hf;
      simpl; [|done].
    apply find_tile_by_id_spec in Hf as (row & tl & Hr & Hcol & Htl & Hid).
    rewrite Htl. simpl. intros [= <- <- <-].
    destruct Hc as (ty & Hin & Hfirst).
    exists a0, t0, ty, row, tl. by repeat (split; [done|]).
  - intros [= <- <- <-]. destruct Hc as [Hnone ->]. done.
Qed.

(** ** What the creature does *)

Lemma elem_of_all_water g va :
  va ∈ all_water g <->
  (exists p, p ∈ players g /\ va ∈ Player.villagers p) /\
  exists v, vstore g !! va = Some v /\ Villager.state v = water.
Proof.
  unfold all_water. rewrite elem_of_concat. split.
  - intros (l & (p & -> & Hp)%list_elem_of_fmap & Hva).
    apply list_elem_of_filter in Hva as [Hw Hva]. split; [by exists p|].
    unfold in_water in Hw. destruct (vstore g !! va) as [v|]; [|done].
    apply bool_decide_eq_true in Hw. by exists v.
  - intros [(p & Hp & Hva) (v & Hv & Hw)].
    exists (filter (fun va => in_water g va = true) (Player.villagers p)).
    split; [apply list_elem_of_fmap; by exists p|].
    apply list_elem_of_filter. split; [|done].
    unfold in_water. rewrite Hv. by apply bool_decide_eq_true.
Qed.

Lemma creature_phase_at_spec g w :
  exists g' victim w',
    creature_phase_at g w = Ret (g', fst (randint_1_6 w), victim, w') /\
    input w' = input w /\
    match victim with
    | Some va => (fst (randint_1_6 w) = 1 \/ fst (randint_1_6 w) = 2) /\
                 va ∈ all_water g /\ g' = kill va g /\
                 all_water g !! (fst (draw (snd (randint_1_6 w)))
                                 mod length (all_water g))%nat = Some va
    | None => ~ ((fst (randint_1_6 w) = 1 \/ fst (randint_1_6 w) = 2) /\
                 all_water g <> []) /\ g' = g
    end.
Proof.
  unfold creature_phase_at.
  assert (input (snd (randint_1_6 w)) = input w) as Hin.
  { unfold randint_1_6. pose proof (draw_input w).
    by destruct (draw w) as [d w0]. }
  destruct (randint_1_6 w) as [roll w1]; simpl in *.
  case_bool_decide as Hroll.
  - destruct (all_water g) as [|x l] eqn:Haw.
    + exists g, None, w1. split; [done|]. split; [done|].
      split; [|done]. by intros [_ ?].
    + destruct (choice_total (x :: l) w1) as [va Hc]; [done|].
      rewrite Hc. simpl. exists (kill va g), (Some va), (snd (draw w1)).
      split; [done|]. split; [by rewrite draw_input|].
      apply choice_spec in Hc as (Hva & _ & Hidx & _). done.
  - exists g, None, w1. split; [done|]. split; [done|].
    split; [|done]. by intros [? _].
Qed.

Lemma kill_lookup va g a :
  vstore (kill va g) !! a =
  if decide (a = va) then Villager.set_state dead <$> vstore g !! a
  else vstore g !! a.
Proof.
  unfold kill. simpl. case_decide as E.
  - subst. apply list_lookup_alter_eq.
  - by apply list_lookup_alter_ne.
Qed.

(** ** Placement picks a tile with room *)

Lemma elem_of_valid_tiles g a :
  a ∈ valid_tiles g <-> has_room g a = true /\ a ∈ get_all_tiles g.
Proof. unfold valid_tiles. by rewrite list_elem_of_filter. Qed.

Lemma board_at_Some g rr cc a :
  board_at g rr cc = Ret (Some a) -> a ∈ get_all_tiles g.
Proof.
  unfold board_at. intros H. apply elem_of_get_all_tiles.
  destruct (board g !! rr) as [row|] eqn:Hr; simpl in H; [|done].
  destruct (row !! cc) as [s|] eqn:Hc; simpl in H; [|done].
  injection H as ->. by exists rr, row, cc.
Qed.

Lemma reprompt_loop_spec g n l w rr cc w' :
  reprompt_loop g n l w = Ret (Some (rr, cc), w') ->
  exists a, board_at g rr cc = Ret (Some a) /\ has_room g a = true.
Proof.
  revert l w; induction n as [|n IH]; intros l w; simpl; [done|].
  assert (match n with
          | O => Ret (None, w)
          | S _ => '(l0, w0) ← read_line w; reprompt_loop g n l0 w0
          end = Ret (Some (rr, cc), w') ->
          exists a, board_at g rr cc = Ret (Some a) /\ has_room g a = true)
    as Hagain.
  { destruct n; [done|].
    destruct (read_line w) as [[l0 w0]| |]; simpl; [|done..]. apply IH. }
  destruct (_coord_to_index l) as [[r c]|]; [|done].
  destruct (board_at g r c) as [slot| |] eqn:Hslot; simpl; [|done..].
  destruct slot as [a|]; [|done].
  destruct (has_room g a) eqn:Hroom; [|done].
  intros [= <- <- <-]. by exists a.
Qed.

(** Whoever decides, the tile chosen in [setup] is on the board and has
    fewer occupants than its capacity. *)
Lemma choose_tile_spec g by_hand w a w' :
  choose_tile g by_hand (valid_tiles g) w = Ret (a, w') ->
  has_room g a = true /\ a ∈ get_all_tiles g.
Proof.
  unfold choose_tile. destruct by_hand.
  - destruct (read_line w) as [[l w1]| |]; simpl; [|done..].
    unfold coordinate_to_index_reprompt.
    destruct (reprompt_loop g 3 l w1) as [[[[rr cc]|] w2]| |] eqn:Hre;
      simpl; [| |done..].
    + apply reprompt_loop_spec in Hre as (a' & Hat & Hroom).
      rewrite Hat. simpl. intros [= <- <-]. split; [done|].
      by eapply board_at_Some.
    + intros [Hin _]%choice_spec. by apply elem_of_valid_tiles.
  - intros [Hin _]%choice_spec. by apply elem_of_valid_tiles.
Qed.

Lemma place_spec g i treasure a g' :
  place g i treasure a = Ret g' ->
  exists p tl,
    players g !! i = Some p /\ tiles g !! a = Some tl /\
    players g' = <[i := Player.set_villagers
                          (Player.villagers p ++ [length (vstore g)]) p]>
                   (players g) /\
    board g' = board g /\
    tiles g' = <[a := Tile.set_villagers
                        (Tile.villagers tl ++ [length (vstore g)]) tl]>
                 (tiles g) /\
    vstore g' = vstore g ++
                [Villager.mk (villager_counter g) (Player.name p) treasure
                             land (Tile.distance tl) (Some a)] /\
    total_turns g' = total_turns g /\
    villager_counter g' = villager_counter g + 1 /\
    game_end_reason g' = game_end_reason g.
Proof.
  unfold place. destruct (players g !! i) as [p|]; simpl; [|done].
  destruct (tiles g !! a) as [tl|]; simpl; [|done].
  intros [= <-]. by exists p, tl.
Qed.

(** ** The invariant *)

Lemma fmap_insert_same {A B} (f : A -> B) (l : list A) i x y :
  l !! i = Some x -> f y = f x -> f <$> <[i := y]> l = f <$> l.
Proof.
  intros Hx Hf. rewrite list_fmap_insert, Hf.
  apply list_insert_id. by rewrite list_lookup_fmap, Hx.
Qed.

Lemma get_all_tiles_board g g' :
  board g' = board g -> get_all_tiles g' = get_all_tiles g.
Proof. unfold get_all_tiles. by intros ->. Qed.

Lemma TILE_INFO_distance_pos ty : 1 <= TILE_INFO_distance ty.
Proof. destruct ty; simpl; lia. Qed.

Lemma wf_place g i treasure a g' :
  wf g -> has_room g a = true ->
  place g i treasure a = Ret g' -> wf g'.
Proof.
  intros [Hid Hshape Hcap Hboard Hland Hswim Hdist Hvid Hcnt Hpl] Hroom.
  intros (p & tl & Hp & Htl & Eps & Eb & Ets & Evs & Ett & Evc & Eger)
    %place_spec.
  unfold has_room in Hroom. rewrite Htl in Hroom.
  apply bool_decide_eq_true in Hroom.
  split.
  - intros a' t. rewrite Ets. intros [(-> & <- & _)|[_ Ht]]
      %list_lookup_insert_Some; simpl; eauto.
  - intros a' t. rewrite Ets. intros [(-> & <- & _)|[_ Ht]]
      %list_lookup_insert_Some; simpl; eauto.
  - intros a' t. rewrite Ets. intros [(-> & <- & _)|[_ Ht]]
      %list_lookup_insert_Some; simpl; [|eauto].
    rewrite length_app. simpl. lia.
  - intros a'. rewrite (get_all_tiles_board g g') by done.
    intros Ha. rewrite Ets. apply lookup_lt_is_Some.
    rewrite length_insert. apply lookup_lt_is_Some. by apply Hboard.
  - intros va v. rewrite Evs. intros Hv Hst.
    apply lookup_app_Some in Hv as [Hv|[Hge Hv]].
    + destruct (Hland va v Hv Hst) as (ta & t & Hta & Ht & Hin).
      destruct (decide (ta = a)) as [->|Hne].
      * exists a, (Tile.set_villagers
                    (Tile.villagers tl ++ [length (vstore g)]) tl).
        split; [done|]. rewrite Ets. split.
        -- apply list_lookup_insert_eq. by eapply lookup_lt_Some.
        -- simpl. apply elem_of_app. left. congruence.
      * exists ta, t. split; [done|]. split; [|done].
        rewrite Ets. by rewrite list_lookup_insert_ne.
    + apply list_lookup_singleton_Some in Hv as [Hz <-]. simpl.
      assert (va = length (vstore g)) as -> by lia.
      exists a, (Tile.set_villagers
                   (Tile.villagers tl ++ [length (vstore g)]) tl).
      split; [done|]. rewrite Ets. split.
      * apply list_lookup_insert_eq. by eapply lookup_lt_Some.
      * simpl. apply elem_of_app. right. left.
  - intros va v. rewrite Evs. intros Hv Hst.
    apply lookup_app_Some in Hv as [Hv|[Hge Hv]]; [eauto|].
    apply list_lookup_singleton_Some in Hv as [Hz <-]. simpl in Hst.
    by destruct Hst.
  - intros va v. rewrite Evs. intros Hv.
    apply lookup_app_Some in Hv as [Hv|[Hge Hv]]; [eauto|].
    apply list_lookup_singleton_Some in Hv as [Hz <-]. simpl.
    destruct (Hshape a tl Htl) as [_ ->].
    pose proof (TILE_INFO_distance_pos (Tile.type tl)).
    split; [done | lia].
  - intros va v. rewrite Evs. intros Hv.
    apply lookup_app_Some in Hv as [Hv|[Hge Hv]]; [eauto|].
    apply list_lookup_singleton_Some in Hv as [Hz <-]. simpl. lia.
  - rewrite Evc, Evs, length_app, Hcnt. simpl. lia.
  - rewrite Eps. rewrite <- Hpl.
    by apply (fmap_insert_same _ _ _ p).
Qed.

Lemma moved_fields k v :
  Villager.id (moved k v) = Villager.id v /\
  Villager.tile (moved k v) = Villager.tile v /\
  Villager.treasure (moved k v) = Villager.treasure v /\
  Villager.distance_remaining (moved k v) =
    Villager.distance_remaining v - k /\
  Villager.state (moved k v) =
    if Villager.distance_remaining v - k <=? 0 then safe
    else Villager.state v.
Proof. unfold moved. simpl. by destruct (_ <=? 0). Qed.

Lemma movable_cases v :
  Villager.movable v = true ->
  Villager.state v = land \/ Villager.state v = water.
Proof. unfold Villager.movable. destruct (Villager.state v); auto; done. Qed.

Lemma wf_apply_move g p loc va v k g' loc' :
  wf g -> legal_move g p loc va v k ->
  apply_move g va k loc = Ret (g', loc') -> wf g'.
Proof.
  intros [Hid Hshape Hcap Hboard Hland Hswim Hdist Hvid Hcnt Hpl].
  intros ([_ Hv]%elem_of_villagers_of & Hmov & _ & Hk).
  intros (v0 & Hv0 & Evs & Eps & Eb & Ett & Evc & Eger & _ & _ & Hrest)
    %apply_move_spec.
  assert (v0 = v) as -> by congruence. clear Hv0.
  destruct (moved_fields k v) as (Mid & Mtile & _ & Mdist & Mstate).
  assert (forall a t, tiles g' !! a = Some t ->
            exists t0, tiles g !! a = Some t0 /\
                       Tile.id t = Tile.id t0 /\
                       Tile.type t = Tile.type t0 /\
                       Tile.distance t = Tile.distance t0 /\
                       Tile.capacity t = Tile.capacity t0 /\
                       (length (Tile.villagers t)
                        <= length (Tile.villagers t0))%nat) as Htiles.
  { intros a t Ht.
    destruct (Villager.distance_remaining v - k <=? 0);
      [destruct Hrest as [_ Hrest] | destruct Hrest as [Hrest _]].
    - destruct (Villager.tile v) as [ta|].
      + destruct Hrest as (tl & l & Htl & Hl & Ets). rewrite Ets in Ht.
        apply list_lookup_insert_Some in Ht as [(-> & <- & _)|[_ Ht]].
        * exists tl. simpl. repeat (split; [done|]).
          apply py_remove_length in Hl. lia.
        * exists t. by rewrite Ht.
      + rewrite Hrest in Ht. by exists t.
    - rewrite Hrest in Ht. by exists t. }
  assert (length (tiles g') = length (tiles g)) as Hlen.
  { destruct (Villager.distance_remaining v - k <=? 0);
      [destruct Hrest as [_ Hrest] | destruct Hrest as [Hrest _]].
    - destruct (Villager.tile v) as [ta|].
      + destruct Hrest as (tl & l & Htl & Hl & ->). apply length_insert.
      + by rewrite Hrest.
    - by rewrite Hrest. }
  assert (forall va' v', vstore g' !! va' = Some v' ->
            (va' = va /\ v' = moved k v) \/
            (va' <> va /\ vstore g !! va' = Some v')) as Hstore.
  { intros va' v'. rewrite Evs.
    intros [(-> & <- & _)|[? ?]]%list_lookup_insert_Some; auto. }
  split.
  - intros a t (t0 & Ht0 & -> & _)%Htiles. eauto.
  - intros a t (t0 & Ht0 & _ & -> & -> & -> & _)%Htiles. eauto.
  - intros a t (t0 & Ht0 & _ & _ & _ & -> & Hle)%Htiles.
    specialize (Hcap a t0 Ht0). lia.
  - intros a. rewrite (get_all_tiles_board g g') by done. intros Ha.
    apply lookup_lt_is_Some. rewrite Hlen. apply lookup_lt_is_Some. eauto.
  - intros va' v' [[-> ->]|[Hne Hv']]%Hstore Hst.
    + rewrite Mstate in Hst. rewrite Mtile.
      destruct (Villager.distance_remaining v - k <=? 0); [done|].
      destruct Hrest as [-> _]. eauto.
    + destruct (Hland va' v' Hv' Hst) as (ta & t & Hta & Ht & Hin).
      destruct (Villager.distance_remaining v - k <=? 0);
        [destruct Hrest as [_ Hrest] | destruct Hrest as [Hrest _]].
      * destruct (Villager.tile v) as [ta0|].
        -- destruct Hrest as (tl & l & Htl & Hl & ->).
           destruct (decide (ta = ta0)) as [->|Hta0].
           ++ exists ta0, (Tile.set_villagers l tl). split; [done|]. split.
              ** apply list_lookup_insert_eq. by eapply lookup_lt_Some.
              ** simpl. eapply py_remove_other; [done..|]. congruence.
           ++ exists ta, t. split; [done|]. split; [|done].
              by rewrite list_lookup_insert_ne.
        -- rewrite Hrest. eauto.
      * rewrite Hrest. eauto.
  - intros va' v' [[-> ->]|[Hne Hv']]%Hstore Hst; [|eauto].
    rewrite Mstate in Hst. rewrite Mtile.
    destruct (Villager.distance_remaining v - k <=? 0);
      [by destruct Hst|]. eauto.
  - intros va' v' [[-> ->]|[Hne Hv']]%Hstore; [|eauto].
    rewrite Mstate, Mdist.
    destruct (Z.leb_spec (Villager.distance_remaining v - k) 0) as [Hle|Hgt].
    + done.
    + split; [|lia]. intros Hsafe.
      apply movable_cases in Hmov as [E|E]; congruence.
  - intros va' v' [[-> ->]|[Hne Hv']]%Hstore; [|eauto].
    rewrite Mid. eauto.
  - rewrite Evc, Evs, length_insert. done.
  - by rewrite Eps.
Qed.

Lemma get_all_tiles_cleared g g' r c a :
  board g' = clear_slot r c (board g) ->
  a ∈ get_all_tiles g' -> a ∈ get_all_tiles g.
Proof.
  unfold get_all_tiles at 1. intros ->. apply get_all_tiles_clear_slot.
Qed.

Lemma wf_sink g w g' o w' :
  wf g -> sink_tile_at g w = Ret (g', o, w') -> wf g'.
Proof.
  intros Hwf Hs. apply sink_tile_at_spec in Hs.
  destruct o as [[[r c] a]|]; [|by destruct Hs as (_ & -> & _)].
  destruct Hs as (a0 & t0 & ty & row & tl & _ & _ & _ & _ & _ & _ & _ & ->).
  destruct Hwf as [Hid Hshape Hcap Hboard Hland Hswim Hdist Hvid Hcnt Hpl].
  assert (forall va v', drown (Tile.villagers tl) (vstore g) !! va = Some v' ->
            exists v, vstore g !! va = Some v /\
                      (v' = v \/ (Villager.state v = land /\ v' = wet v)))
    as Hstore.
  { intros va v'. rewrite drown_lookup.
    destruct (vstore g !! va) as [v|]; [|done].
    case_decide as Hd; intros [= <-]; exists v; split; auto.
    right. by destruct Hd. }
  split; try done.
  - intros a' Ha'. apply Hboard.
    eapply get_all_tiles_cleared; [|exact Ha']. done.
  - intros va v' (v & Hv & [->|[_ ->]])%Hstore Hst; [eauto | done].
  - intros va v' (v & Hv & [->|[_ ->]])%Hstore Hst; [eauto | done].
  - intros va v' (v & Hv & [->|[Hl ->]])%Hstore; [eauto|]. simpl.
    split; [done|]. intros Hle. apply (Hdist va v Hv) in Hle. congruence.
  - intros va v' (v & Hv & [->|[_ ->]])%Hstore; simpl; eauto.
  - simpl. by rewrite drown_length.
Qed.

Lemma wf_kill g va :
  wf g -> va ∈ all_water g -> wf (kill va g).
Proof.
  intros [Hid Hshape Hcap Hboard Hland Hswim Hdist Hvid Hcnt Hpl].
  intros [_ (v & Hv & Hw)]%elem_of_all_water.
  assert (forall a v', vstore (kill va g) !! a = Some v' ->
            vstore g !! a = Some v' \/
            (a = va /\ v' = Villager.set_state dead v)) as Hstore.
  { intros a v'. rewrite kill_lookup. case_decide as E; [|auto].
    subst a. rewrite Hv. simpl. intros [= <-]. auto. }
  split; try done.
  - intros a v' [Hv'|[-> ->]]%Hstore Hst; [eauto | done].
  - intros a v' [Hv'|[-> ->]]%Hstore Hst; [eauto|]. simpl. eauto.
  - intros a v' [Hv'|[-> ->]]%Hstore; [eauto|]. simpl.
    split; [done|]. intros Hle. apply (Hdist va v Hv) in Hle. congruence.
  - intros a v' [Hv'|[-> ->]]%Hstore; simpl; eauto.
  - unfold kill. simpl. by rewrite length_alter.
Qed.

Lemma wf_creature g w g' roll victim w' :
  wf g -> creature_phase_at g w = Ret (g', roll, victim, w') -> wf g'.
Proof.
  intros Hwf Hc.
  destruct (creature_phase_at_spec g w) as (g1 & v1 & w1 & E & _ & Hspec).
  rewrite E in Hc. injection Hc as <- _ <- <-.
  destruct v1 as [va|]; [|by destruct Hspec as [_ ->]].
  destruct Hspec as (_ & Hin & -> & _). by apply wf_kill.
Qed.

Lemma wf_compute_scores g : wf g -> wf (compute_scores g).
Proof.
  intros [Hid Hshape Hcap Hboard Hland Hswim Hdist Hvid Hcnt Hpl].
  split; try done. unfold compute_scores. simpl.
  rewrite <- Hpl. rewrite <- list_fmap_compose. by apply list_fmap_ext.
Qed.

Lemma sink_tile_inv g w g' w' :
  sink_tile g w = Ret (g', w') ->
  exists o, sink_tile_at g w = Ret (g', o, w').
Proof.
  unfold sink_tile.
  destruct (sink_tile_at g w) as [[[g1 o] w1]| |]; simpl; [|done..].
  intros [= <- <-]. by exists o.
Qed.

Lemma creature_phase_inv g w g' w' :
  creature_phase g w = Ret (g', w') ->
  exists roll victim, creature_phase_at g w = Ret (g', roll, victim, w').
Proof.
  unfold creature_phase.
  destruct (creature_phase_at g w) as [[[[g1 roll] victim] w1]| |];
    simpl; [|done..].
  intros [= <- <-]. by exists roll, victim.
Qed.

(** Every step of the game keeps the object graph well formed. *)
Lemma wf_step g g' : wf g -> step g g' -> wf g'.
Proof.
  intros Hwf Hstep. destruct Hstep.
  - eapply wf_place; [done| |done].
    by eapply choose_tile_spec.
  - match goal with H : human_iter _ _ _ _ = _ |- _ =>
      apply human_iter_spec in H
        as (_ & _ & [[-> ->]|(va & v & k & Hlegal & Hmove)]) end; [done|].
    by eapply wf_apply_move.
  - match goal with H : comp_iter _ _ _ = _ |- _ =>
      apply comp_iter_spec in H
        as (va & v & k & _ & _ & Hlegal & Hmove) end.
    by eapply wf_apply_move.
  - match goal with H : sink_tile _ _ = _ |- _ =>
      apply sink_tile_inv in H as [o H] end.
    by eapply wf_sink.
  - match goal with H : creature_phase _ _ = _ |- _ =>
      apply creature_phase_inv in H as (roll & victim & H) end.
    by eapply wf_creature.
  - by destruct Hwf.
  - by destruct Hwf.
  - by apply wf_compute_scores.
Qed.

Lemma wf_rtc g g' : wf g -> rtc step g g' -> wf g'.
Proof. intros Hwf Hrtc. induction Hrtc; eauto using wf_step. Qed.

(** ** A fresh game *)

(** [Game()] after any shuffle: three players without villagers, a full
    3x5 board whose slot [(r, c)] refers to tile number [5r + c], fifteen
    empty tiles with ids 1..15, the volcano at the centre. *)
Lemma fresh_spec g :
  fresh g ->
  players g = [Player.init "Human" true; Player.init "Computer1" false;
               Player.init "Computer2" false] /\
  board g = [[Some 0; Some 1; Some 2; Some 3; Some 4];
             [Some 5; Some 6; Some 7; Some 8; Some 9];
             [Some 10; Some 11; Some 12; Some 13; Some 14]]%nat /\
  length (tiles g) = 15%nat /\
  (forall a t, tiles g !! a = Some t ->
               t = Tile.init (Z.of_nat a + 1) (Tile.type t)) /\
  (exists t, tiles g !! 7%nat = Some t /\ Tile.type t = volcano) /\
  vstore g = [] /\ total_turns g = 0 /\ villager_counter g = 1 /\
  game_end_reason g = EmptyString.
Proof.
  intros (pool & Hperm & Hinit). apply Permutation_length in Hperm.
  change (length remaining_types) with 14%nat in Hperm.
  do 14 (destruct pool as [|? pool]; [done|]).
  destruct pool; [|done]. clear Hperm.
  vm_compute in Hinit. injection Hinit as <-.
  repeat (split; [done|]). split.
  - intros a tl Htl.
    do 15 (destruct a as [|a]; [by injection Htl as <-|]). done.
  - split; [by eexists|done].
Qed.

Lemma fresh_wf g : fresh g -> wf g.
Proof.
  intros (Hpl & Hb & Hlen & Hts & _ & Hvs & _ & Hvc & _)%fresh_spec.
  split.
  - intros a t Ht. by rewrite (Hts a t Ht).
  - intros a t Ht. by rewrite (Hts a t Ht).
  - intros a t Ht. rewrite (Hts a t Ht). simpl. lia.
  - intros a Ha. apply lookup_lt_is_Some. rewrite Hlen.
    unfold get_all_tiles in Ha. rewrite Hb in Ha. simpl in Ha.
    repeat (apply elem_of_cons in Ha as [->|Ha]; [lia|]).
    by apply elem_of_nil in Ha.
  - intros va v. by rewrite Hvs.
  - intros va v. by rewrite Hvs.
  - intros va v. by rewrite Hvs.
  - intros va v. by rewrite Hvs.
  - by rewrite Hvs, Hvc.
  - by rewrite Hpl.
Qed.

Lemma reachable_wf g : reachable g -> wf g.
Proof. intros (g0 & Hfresh & Hrtc). eauto using wf_rtc, fresh_wf. Qed.

Lemma reachable_step g g' : reachable g -> step g g' -> reachable g'.
Proof.
  intros (g0 & Hfresh & Hrtc) Hstep. exists g0. split; [done|].
  eapply rtc_r; eauto.
Qed.

Lemma reachable_rtc g g' : reachable g -> rtc step g g' -> reachable g'.
Proof.
  intros (g0 & Hfresh & Hrtc) Hsteps. exists g0. split; [done|].
  by etrans.
Qed.

(** ** The program only takes steps *)

Lemma place_villagers_steps n i random_place g w g' w' :
  place_villagers n i random_place g w = Ret (g', w') -> rtc step g g'.
Proof.
  revert g w; induction n as [|n IH]; intros g w; simpl.
  - by intros [= <- <-].
  - destruct (players g !! i) as [p|]; simpl; [|done].
    destruct (randint_1_6 w) as [treasure w1].
    destruct (valid_tiles g) as [|x l] eqn:Hvalid; [by intros [= <- <-]|].
    rewrite <- Hvalid.
    destruct (choose_tile g _ (valid_tiles g) w1) as [[a w2]| |] eqn:Hc;
      simpl; [|done..].
    destruct (place g i treasure a) as [g1| |] eqn:Hp; simpl; [|done..].
    intros Hrest%IH. eapply rtc_l; [|done].
    eapply step_place; [|done..]. by rewrite Hvalid.
Qed.

Lemma bind_Ret {A B} (m : res A) (k : A -> res B) b :
  m ≫= k = Ret b -> exists a, m = Ret a /\ k a = Ret b.
Proof. destruct m as [a| |]; simpl; [|done..]. by exists a. Qed.

Lemma setup_player_steps i g w g' w' :
  setup_player i g w = Ret (g', w') -> rtc step g g'.
Proof.
  unfold setup_player. intros H.
  apply bind_Ret in H as (p & _ & H).
  apply bind_Ret in H as ([random_place w1] & _ & H).
  by eapply place_villagers_steps.
Qed.

Lemma setup_from_steps idx g w g' w' :
  setup_from idx g w = Ret (g', w') -> rtc step g g'.
Proof.
  revert g w; induction idx as [|i idx IH]; intros g w; simpl.
  - by intros [= <- <-].
  - destruct (setup_player i g w) as [[g1 w1]| |] eqn:Hp; simpl; [|done..].
    intros Hrest%IH. apply setup_player_steps in Hp. by etrans.
Qed.

Lemma setup_steps g w g' w' : setup g w = Ret (g', w') -> rtc step g g'.
Proof. apply setup_from_steps. Qed.

Lemma move_loop_steps fuel i g loc w g' loc' w' :
  move_loop fuel i g loc w = Ret (g', loc', w') -> rtc step g g'.
Proof.
  revert g loc w; induction fuel as [|fuel IH]; intros g loc w; simpl;
    [done|].
  destruct (players g !! i) as [p|] eqn:Hp; simpl; [|done].
  destruct (move_cond g p loc); [|by intros [= <- <- <-]].
  destruct (Player.is_human p).
  - destruct (human_iter g p loc w) as [[[[g1 loc1]|] w1]| |] eqn:Hit;
      simpl; [| |done..].
    + intros Hrest%IH. eapply rtc_l; [|done]. by eapply step_human.
    + by intros [= <- <- <-].
  - destruct (comp_iter g p loc) as [[[g1 loc1]|]| |] eqn:Hit;
      simpl; [| |done..].
    + intros Hrest%IH. eapply rtc_l; [|done]. by eapply step_comp.
    + by intros [= <- <- <-].
Qed.

Lemma player_move_phase_inv i g w g' w' :
  player_move_phase i g w = Ret (g', w') ->
  exists loc', player_move_phase_log i g w = Ret (g', loc', w').
Proof.
  unfold player_move_phase.
  destruct (player_move_phase_log i g w) as [[[g1 loc1] w1]| |];
    simpl; [|done..].
  intros [= <- <-]. by exists loc1.
Qed.

Lemma player_move_phase_steps i g w g' w' :
  player_move_phase i g w = Ret (g', w') -> rtc step g g'.
Proof.
  intros [loc' H]%player_move_phase_inv. by eapply move_loop_steps.
Qed.

Lemma player_turn_steps i g w g' over w' :
  player_turn i g w = Ret (g', over, w') -> rtc step g g'.
Proof.
  unfold player_turn. destruct (all_tiles_sunk g).
  { intros [= <- <- <-]. apply rtc_once, step_reason. }
  destruct (player_move_phase i g w) as [[g1 w1]| |] eqn:H1;
    simpl; [|done..].
  apply player_move_phase_steps in H1.
  destruct (all_tiles_sunk g1).
  { intros [= <- <- <-]. eapply rtc_r; [done | apply step_reason]. }
  destruct (sink_tile g1 w1) as [[g2 w2]| |] eqn:H2; simpl; [|done..].
  assert (rtc step g g2) as H12 by (eapply rtc_r; [done|by eapply step_sink]).
  destruct (all_tiles_sunk g2).
  { intros [= <- <- <-]. eapply rtc_r; [done | apply step_reason]. }
  destruct (creature_phase g2 w2) as [[g3 w3]| |] eqn:H3; simpl; [|done..].
  intros [= <- <- <-]. eapply rtc_r; [done | by eapply step_creature].
Qed.

Lemma for_players_steps idx g w g' over w' :
  for_players idx g w = Ret (g', over, w') -> rtc step g g'.
Proof.
  revert g w; induction idx as [|i idx IH]; intros g w; simpl.
  - by intros [= <- <- <-].
  - destruct (player_turn i g w) as [[[g1 o1] w1]| |] eqn:Ht;
      simpl; [|done..].
    apply player_turn_steps in Ht. destruct o1.
    + by intros [= <- <- <-].
    + intros Hrest%IH. by etrans.
Qed.

Lemma play_round_steps g w g' over w' :
  play_round g w = Ret (g', over, w') -> rtc step g g'.
Proof.
  unfold play_round.
  destruct (for_players _ _ w) as [[[g2 o2] w2]| |] eqn:Hf; simpl; [|done..].
  apply for_players_steps in Hf.
  assert (rtc step g g2) as Hg2.
  { eapply rtc_l; [apply step_turn | done]. }
  unfold check_max_turns. destruct (_ && _).
  - intros [= <- <- <-]. eapply rtc_r; [done | apply step_reason].
  - by intros [= <- <- <-].
Qed.

Lemma play_loop_steps fuel g w g' w' :
  play_loop fuel g w = Ret (g', w') -> rtc step g g'.
Proof.
  revert g w; induction fuel as [|fuel IH]; intros g w; simpl; [done|].
  destruct (all_tiles_sunk g).
  { intros [= <- <-]. apply rtc_once, step_reason. }
  destruct (play_round g w) as [[[g1 o1] w1]| |] eqn:Hr; simpl; [|done..].
  apply play_round_steps in Hr. destruct o1.
  - by intros [= <- <-].
  - intros Hrest%IH. by etrans.
Qed.

Lemma finish_steps g g' win : finish g = Ret (g', win) -> rtc step g g'.
Proof.
  unfold finish. destruct (winner _) as [x| |]; simpl; [|done..].
  intros [= <- <-]. case_decide.
  - eapply rtc_l; [apply step_reason | apply rtc_once, step_scores].
  - apply rtc_once, step_scores.
Qed.

(** Whatever [play] returns on a fresh game is a reachable state. *)
Lemma play_reachable g w g' win w' :
  fresh g -> play g w = Ret (g', win, w') -> reachable g'.
Proof.
  intros Hfresh. unfold play. intros H.
  apply bind_Ret in H as ([g1 w1] & H1 & H).
  apply bind_Ret in H as ([g2 w2] & H2 & H).
  apply bind_Ret in H as ([g3 win3] & H3 & H).
  injection H as <- <- <-. exists g. split; [done|].
  apply setup_steps in H1. apply play_loop_steps in H2.
  apply finish_steps in H3. etrans; [done|]. by etrans.
Qed.

(** ** The loops end *)




(** ** What the phases leave alone *)

Lemma move_loop_frame fuel i g loc w g' loc' w' :
  move_loop fuel i g loc w = Ret (g', loc', w') ->
  board g' = board g /\ total_turns g' = total_turns g /\
  players g' = players g /\ game_end_reason g' = game_end_reason g /\
  rand w' = rand w.
Proof.
  revert g loc w; induction fuel as [|fuel IH]; intros g loc w; simpl;
    [done|].
  destruct (players g !! i) as [p|] eqn:Hp; simpl; [|done].
  destruct (move_cond g p loc); [|by intros [= <- <- <-]].
  assert (forall va k g1 loc1, apply_move g va k loc = Ret (g1, loc1) ->
            board g1 = board g /\ total_turns g1 = total_turns g /\
            players g1 = players g /\
            game_end_reason g1 = game_end_reason g) as Hmove.
  { intros va k g1 loc1
      (v0 & _ & _ & Eps & Eb & Ett & _ & Eger & _)%apply_move_spec.
    done. }
  destruct (Player.is_human p).
  - destruct (human_iter g p loc w) as [[[[g1 loc1]|] w1]| |] eqn:Hit;
      simpl; [| |done..].
    + apply human_iter_spec in Hit as (_ & Hr & Hcase).
      intros (Eb & Ett & Eps & Eger & Er)%IH.
      destruct Hcase as [[-> ->]|(va & v & k & _ & Hm)];
        [by rewrite Er, Hr|].
      apply Hmove in Hm as (? & ? & ? & ?).
      repeat split; congruence.
    + apply human_iter_break in Hit as [_ Hr]. by intros [= <- <- <-].
  - destruct (comp_iter g p loc) as [[[g1 loc1]|]| |] eqn:Hit;
      simpl; [| |done..].
    + apply comp_iter_spec in Hit as (va & v & k & _ & _ & _ & Hm).
      intros (Eb & Ett & Eps & Eger & Er)%IH.
      apply Hmove in Hm as (? & ? & ? & ?).
      repeat split; congruence.
    + by intros [= <- <- <-].
Qed.

Lemma sink_tile_frame g w g' w' :
  sink_tile g w = Ret (g', w') ->
  total_turns g' = total_turns g /\ players g' = players g /\
  game_end_reason g' = game_end_reason g /\ tiles g' = tiles g.
Proof.
  intros [o H]%sink_tile_inv. apply sink_tile_at_spec in H.
  destruct o as [[[r c] a]|]; [|by destruct H as (_ & -> & _)].
  by destruct H as (a0 & t0 & ty & row & tl & _ & _ & _ & _ & _ & _ & _ & ->).
Qed.

Lemma creature_phase_frame g w g' w' :
  creature_phase g w = Ret (g', w') ->
  board g' = board g /\ total_turns g' = total_turns g /\
  players g' = players g /\ game_end_reason g' = game_end_reason g /\
  tiles g' = tiles g.
Proof.
  intros (roll & victim & H)%creature_phase_inv.
  destruct (creature_phase_at_spec g w) as (g1 & v1 & w1 & E & _ & Hspec).
  rewrite E in H. injection H as <- _ <- <-.
  destruct v1 as [va|]; [|by destruct Hspec as [_ ->]].
  by destruct Hspec as (_ & _ & -> & _).
Qed.

(** ** The controller *)

Lemma all_tiles_sunk_board g g' :
  board g' = board g -> all_tiles_sunk g' = all_tiles_sunk g.
Proof. unfold all_tiles_sunk, get_all_tiles. by intros ->. Qed.

Lemma player_move_phase_frame i g w g' w' :
  player_move_phase i g w = Ret (g', w') ->
  board g' = board g /\ total_turns g' = total_turns g /\
  players g' = players g /\ game_end_reason g' = game_end_reason g /\
  rand w' = rand w.
Proof.
  intros [loc' H]%player_move_phase_inv. by eapply move_loop_frame.
Qed.

(** One player's turn: it ends the game exactly when it finds the board
    empty, and then with the all-sunk reason. *)
Lemma player_turn_spec i g w g' over w' :
  player_turn i g w = Ret (g', over, w') ->
  total_turns g' = total_turns g /\ players g' = players g /\
  if over then all_tiles_sunk g' = true /\
               game_end_reason g' = all_sunk_reason
  else all_tiles_sunk g' = false /\
       game_end_reason g' = game_end_reason g.
Proof.
  unfold player_turn. destruct (all_tiles_sunk g) eqn:H0.
  { by intros [= <- <- <-]. }
  intros H. apply bind_Ret in H as ([g1 w1] & H1 & H).
  apply player_move_phase_frame in H1 as (Eb1 & Ett1 & Eps1 & Eger1 & _).
  destruct (all_tiles_sunk g1) eqn:Hs1.
  { injection H as <- <- <-. by rewrite <- Ett1, <- Eps1. }
  apply bind_Ret in H as ([g2 w2] & H2 & H).
  apply sink_tile_frame in H2 as (Ett2 & Eps2 & Eger2 & _).
  destruct (all_tiles_sunk g2) eqn:Hs2.
  { injection H as <- <- <-. simpl. split; [congruence|].
    split; [congruence|done]. }
  apply bind_Ret in H as ([g3 w3] & H3 & H).
  apply creature_phase_frame in H3 as (Eb3 & Ett3 & Eps3 & Eger3 & _).
  injection H as <- <- <-. split; [congruence|]. split; [congruence|].
  split; [|congruence]. by rewrite (all_tiles_sunk_board g2 g3).
Qed.

Lemma for_players_spec idx g w g' over w' :
  for_players idx g w = Ret (g', over, w') ->
  total_turns g' = total_turns g /\ players g' = players g /\
  if over then all_tiles_sunk g' = true /\
               game_end_reason g' = all_sunk_reason
  else all_tiles_sunk g' = all_tiles_sunk g && bool_decide (idx = []) /\
       game_end_reason g' = game_end_reason g.
Proof.
  revert g w; induction idx as [|i idx IH]; intros g w; simpl.
  - intros [= <- <- <-]. by rewrite andb_true_r.
  - intros H. apply bind_Ret in H as ([[g1 o1] w1] & H1 & H).
    apply player_turn_spec in H1 as (Ett1 & Eps1 & Hover1).
    destruct o1.
    + injection H as <- <- <-. done.
    + apply IH in H as (Ett & Eps & Hover).
      split; [congruence|]. split; [congruence|].
      destruct over; [done|].
      destruct Hover1 as [Hs1 Eger1], Hover as [Hs Eger].
      rewrite andb_false_r. split; [|congruence].
      rewrite Hs, Hs1. done.
Qed.

(** A round entered with tiles on the board: the counter goes up by one;
    when the board was emptied during the round the all-sunk reason
    stands, whatever the counter; when tiles remain the round ends the
    game, with the eruption reason, exactly when the counter has reached
    [MAX_TURNS]. *)
Lemma play_round_spec g w g' over w' :
  all_tiles_sunk g = false ->
  play_round g w = Ret (g', over, w') ->
  total_turns g' = total_turns g + 1 /\ players g' = players g /\
  if all_tiles_sunk g'
  then over = true /\ game_end_reason g' = all_sunk_reason
  else if MAX_TURNS <=? total_turns g'
       then over = true /\ game_end_reason g' = erupts_reason
       else over = false /\ game_end_reason g' = game_end_reason g.
Proof.
  intros Hs0. unfold play_round. intros H.
  apply bind_Ret in H as ([[g2 o2] w2] & H2 & H).
  apply for_players_spec in H2 as (Ett & Eps & Hover). simpl in Ett, Eps.
  unfold check_max_turns in H. destruct o2.
  - rewrite andb_false_r in H. injection H as <- <- <-.
    destruct Hover as [-> ->]. done.
  - rewrite andb_true_r in H. destruct Hover as [Hs Eger].
    assert (all_tiles_sunk g2 = false) as Hs2.
    { rewrite Hs. rewrite (all_tiles_sunk_board g _) by done.
      by rewrite Hs0. }
    destruct (MAX_TURNS <=? total_turns g2) eqn:Hmax;
      injection H as <- <- <-; simpl.
    + rewrite (all_tiles_sunk_board g2 _), Hs2, Hmax by done. done.
    + rewrite Hs2, Hmax. done.
Qed.









(** ** Sinking takes exactly one tile off the board *)

Lemma omap_insert_None (row : list (option nat)) c a :
  row !! c = Some (Some a) ->
  S (length (omap id (<[c := None]> row))) = length (omap id row).
Proof.
  revert c; induction row as [|s row IH]; intros c; [done|].
  destruct c as [|c].
  - intros [= ->]. reflexivity.
  - intros Hc. specialize (IH c Hc).
    change (<[S c := None]> (s :: row)) with (s :: <[c := None]> row).
    destruct s as [b|]; cbn [omap list_omap id length] in *; lia.
Qed.

Lemma tiles_clear_slot (b : list (list (option nat))) r c row a :
  b !! r = Some row -> row !! c = Some (Some a) ->
  S (length (omap id (concat (clear_slot r c b)))) =
  length (omap id (concat b)).
Proof.
  unfold clear_slot. revert r; induction b as [|row0 b IH]; intros r;
    [done|].
  destruct r as [|r].
  - intros [= ->] Hc. cbn [alter list_alter concat].
    rewrite !omap_app, !length_app.
    rewrite <- (omap_insert_None row c a Hc). lia.
  - intros Hr Hc. cbn [alter list_alter concat].
    rewrite !omap_app, !length_app.
    change (list_alter ?f r b) with (alter f r b).
    rewrite <- (IH r Hr Hc). lia.
Qed.

(** In a well-formed game with a tile on the board [sink_tile] succeeds;
    the tile it takes off the board is the one [choose_tile_to_sink]
    named, of the first non-empty tier. *)
Lemma sink_tile_on_board g w :
  wf g -> get_all_tiles g <> [] ->
  exists g' r c a t w',
    sink_tile_at g w = Ret (g', Some (r, c, a), w') /\
    board_at g r c = Ret (Some a) /\
    board_at g' r c = Ret None /\
    tiles g !! a = Some t /\
    (forall a' t', a' ∈ get_all_tiles g -> tiles g !! a' = Some t' ->
                   (tier (Tile.type t) <= tier (Tile.type t'))%nat) /\
    S (tiles_left g') = tiles_left g.
Proof.
  intros Hwf Hsome.
  destruct (choose_tile_to_sink_total g w) as (o & w1 & Hc).
  pose proof (choose_tile_to_sink_spec _ _ _ _ Hc) as Hspec.
  destruct o as [a0|].
  2:{ destruct Hspec as [Hnone _].
      destruct (get_all_tiles g) as [|a1 l] eqn:E; [done|].
      assert (a1 ∈ get_all_tiles g) as Ha1 by (rewrite E; left).
      destruct (wf_board g Hwf a1 Ha1) as [t1 Ht1].
      assert (a1 ∈ tiles_of_type g (Tile.type t1)) as Hin.
      { apply elem_of_tiles_of_type. split; [done|]. by exists t1. }
      rewrite Hnone in Hin. by apply elem_of_nil in Hin. }
  destruct Hspec as (ty & Hin & Hfirst).
  apply elem_of_tiles_of_type in Hin as (Hon & t0 & Ht0 & Hty).
  destruct (find_tile_by_id_total g a0 t0 Hon Ht0) as [[[r c] a] Hf].
  pose proof (find_tile_by_id_spec _ _ _ _ _ Hf)
    as (row & tl & Hr & Hcol & Htl & Hid).
  assert (a = a0) as ->.
  { rewrite (wf_tile_id g Hwf a tl Htl), (wf_tile_id g Hwf a0 t0 Ht0) in Hid.
    lia. }
  assert (tl = t0) as -> by congruence.
  assert (sink_tile_at g w =
          Ret (set_board (clear_slot r c (board g))
                 (set_vstore (drown (Tile.villagers t0) (vstore g)) g),
               Some (r, c, a0), w1)) as Hrun.
  { unfold sink_tile_at. rewrite Hc. simpl. rewrite Ht0. simpl.
    rewrite Hf. simpl. by rewrite Ht0. }
  eexists _, r, c, a0, t0, w1. split; [exact Hrun|].
  split; [unfold board_at; rewrite Hr; simpl; by rewrite Hcol|].
  split.
  { unfold board_at. simpl. rewrite clear_slot_lookup.
    rewrite decide_True; [done|]. split; [done|]. split; [done|].
    rewrite Hr. simpl. rewrite Hcol. by eexists. }
  split; [done|]. split.
  { intros a' t' Ha' Ht'.
    destruct (decide (tier (Tile.type t') < tier (Tile.type t0))%nat)
      as [Hlt|]; [|lia].
    rewrite Hty in Hlt. apply Hfirst in Hlt.
    assert (a' ∈ tiles_of_type g (Tile.type t')) as Hin'.
    { apply elem_of_tiles_of_type. split; [done|]. by exists t'. }
    rewrite Hlt in Hin'. by apply elem_of_nil in Hin'. }
  unfold tiles_left, get_all_tiles. simpl. by eapply tiles_clear_slot.
Qed.

(** * The statements of the specification *)

(** ** C2: the round limit *)




(** ** What the steps leave alone *)

Lemma human_iter_frame g p loc w g' loc' w' :
  human_iter g p loc w = Ret (Some (g', loc'), w') ->
  board g' = board g /\ players g' = players g.
Proof.
  intros (_ & _ & [[-> ->]|(va & v & k & _ & Hm)])%human_iter_spec; [done|].
  by apply apply_move_spec in Hm as (v0 & _ & _ & -> & -> & _).
Qed.

Lemma comp_iter_frame g p loc g' loc' :
  comp_iter g p loc = Ret (Some (g', loc')) ->
  board g' = board g /\ players g' = players g.
Proof.
  intros (va & v & k & _ & _ & _ & Hm)%comp_iter_spec.
  by apply apply_move_spec in Hm as (v0 & _ & _ & -> & -> & _).
Qed.

Lemma board_at_clear_slot g g' r c r' c' :
  board g' = clear_slot r c (board g) ->
  board_at g r' c' = Ret None -> board_at g' r' c' = Ret None.
Proof.
  unfold board_at. intros -> H. rewrite clear_slot_lookup.
  by case_decide.
Qed.

(** No step puts a tile back into an empty slot. *)
Lemma step_sunk_stays g g' r c :
  step g g' -> board_at g r c = Ret None -> board_at g' r c = Ret None.
Proof.
  intros Hstep Hsunk. unfold board_at in *. destruct Hstep.
  - match goal with H : place _ _ _ _ = _ |- _ =>
      apply place_spec in H
        as (p & tl & _ & _ & _ & -> & _) end. done.
  - match goal with H : human_iter _ _ _ _ = _ |- _ =>
      apply human_iter_frame in H as [-> _] end. done.
  - match goal with H : comp_iter _ _ _ = _ |- _ =>
      apply comp_iter_frame in H as [-> _] end. done.
  - match goal with H : sink_tile _ _ = _ |- _ =>
      apply sink_tile_inv in H as [o H]; apply sink_tile_at_spec in H end.
    destruct o as [[[r0 c0] a]|].
    + match goal with H : exists _, _ |- _ =>
        destruct H as (a0 & t0 & ty & row & tl & _ & _ & _ & _ & _ & _ & _ & ->)
      end.
      by apply (board_at_clear_slot g _ r0 c0).
    + match goal with H : _ /\ _ |- _ => by destruct H as (_ & -> & _) end.
  - match goal with H : creature_phase _ _ = _ |- _ =>
      apply creature_phase_frame in H as (-> & _) end. done.
  - done.
  - done.
  - done.
Qed.

Lemma rtc_sunk_stays g g' r c :
  rtc step g g' -> board_at g r c = Ret None -> board_at g' r c = Ret None.
Proof. intros Hrtc. induction Hrtc; eauto using step_sunk_stays. Qed.

(** ** C3: sinking a tile *)

(** C3, as stated, fails: [sink_tile] does not clear the occupant list of
    the tile it sinks.  In [placed_game] the beach tile 9 holds the
    villagers 6, 15 and 21; after the sink its list still names them. *)
Lemma C3_occupants_not_cleared :
  ~ (forall g w g' r c a w' tl,
       sink_tile_at g w = Ret (g', Some (r, c, a), w') ->
       tiles g' !! a = Some tl -> Tile.villagers tl = []).
Proof.
  intros H.
  assert (exists tl, sink_tile_at placed_game quiet
                     = Ret (sunk_game, Some (1, 3, 8)%nat, quiet) /\
                     tiles sunk_game !! 8%nat = Some tl /\
                     Tile.villagers tl = [5; 14; 20]%nat)
    as (tl & Hrun & Htl & Hocc).
  { eexists. split; [by vm_compute|]. split; by vm_compute. }
  specialize (H _ _ _ _ _ _ _ _ Hrun Htl). by rewrite Hocc in H.
Qed.

(** C3, amended: when [sink_tile] sinks the tile in slot [(r, c)], every
    occupant of that tile that is on land goes to the water and loses its
    tile reference, every other villager is untouched (so nobody becomes
    safe or dead by a sink), the slot is marked sunk while every other
    slot keeps its content, the tile objects, the occupant list of the
    sunk one included, are left as they were, and no later step puts a
    tile back into the slot. *)
Theorem C3_sink_tile (g : Game) (w : World) (g' : Game) (r c a : nat)
    (w' : World) :
  sink_tile_at g w = Ret (g', Some (r, c, a), w') ->
  exists tl,
    tiles g !! a = Some tl /\
    board_at g r c = Ret (Some a) /\
    board_at g' r c = Ret None /\
    (forall r' c', (r', c') <> (r, c) ->
                   board_at g' r' c' = board_at g r' c') /\
    tiles g' = tiles g /\
    (forall va,
       vstore g' !! va =
       match vstore g !! va with
       | Some v =>
           Some (if decide (va ∈ Tile.villagers tl /\
                            Villager.state v = land)
                 then Villager.set_tile None (Villager.set_state water v)
                 else v)
       | None => None
       end) /\
    (forall va v',
       vstore g' !! va = Some v' ->
       Villager.state v' = safe \/ Villager.state v' = dead ->
       vstore g !! va = Some v') /\
    (forall g'', rtc step g' g'' -> board_at g'' r c = Ret None).
Proof.
  intros H. apply sink_tile_at_spec in H
    as (a0 & t0 & ty & row & tl & _ & _ & _ & Hr & Hc & Htl & _ & ->).
  assert (board_at (set_board (clear_slot r c (board g))
                      (set_vstore (drown (Tile.villagers tl) (vstore g)) g))
                   r c = Ret None) as Hsunk.
  { unfold board_at. simpl. rewrite clear_slot_lookup.
    rewrite decide_True; [done|]. split; [done|]. split; [done|].
    rewrite Hr. simpl. rewrite Hc. by eexists. }
  exists tl. split; [done|]. split.
  { unfold board_at. rewrite Hr. simpl. by rewrite Hc. }
  split; [done|]. split.
  { intros r' c' Hne. unfold board_at. simpl. rewrite clear_slot_lookup.
    rewrite decide_False; [done|]. intros (-> & -> & _). done. }
  split; [done|]. split.
  { intros va. simpl. apply drown_lookup. }
  split.
  { intros va v'. simpl. rewrite drown_lookup.
    destruct (vstore g !! va) as [v|]; [|done].
    case_decide; intros [= <-]; [|done]. simpl. by intros [|]. }
  intros g'' Hrtc. by eapply rtc_sunk_stays.
Qed.

Lemma C3_sink_tile_witness :
  tiles sunk_game = tiles placed_game /\
  board_at sunk_game 1 3 = Ret None.
Proof.
  destruct (C3_sink_tile placed_game quiet sunk_game 1 3 8 quiet)
    as (tl & _ & _ & Hs & _ & Ht & _).
  - by vm_compute.
  - by split.
Defined.

(** ** C4: which tile sinks *)

Lemma sink_tile_at_none g w :
  get_all_tiles g = [] -> sink_tile_at g w = Ret (g, None, w).
Proof.
  intros Hnone. unfold sink_tile_at, choose_tile_to_sink, tiles_of_type.
  by rewrite Hnone.
Qed.

(** C4: in a reachable game with a tile on the board, [sink_tile] sinks a
    tile of the first non-empty tier in the order beach, forest, mountain,
    volcano: no tile on the board has a type that comes earlier in that
    order than the type of the tile that sinks.  With no tile on the
    board, [sink_tile] returns without an error and changes nothing. *)
Theorem C4_sink_priority (g : Game) (w : World) :
  reachable g ->
  (get_all_tiles g = [] -> sink_tile g w = Ret (g, w)) /\
  (get_all_tiles g <> [] ->
   exists g' r c a t w',
     sink_tile_at g w = Ret (g', Some (r, c, a), w') /\
     sink_tile g w = Ret (g', w') /\
     board_at g r c = Ret (Some a) /\
     board_at g' r c = Ret None /\
     tiles g !! a = Some t /\
     forall a' t', a' ∈ get_all_tiles g -> tiles g !! a' = Some t' ->
                   (tier (Tile.type t) <= tier (Tile.type t'))%nat).
Proof.
  intros Hwf%reachable_wf. split.
  { intros Hnone. unfold sink_tile. by rewrite sink_tile_at_none. }
  intros Hsome.
  destruct (sink_tile_on_board g w Hwf Hsome)
    as (g' & r & c & a & t & w' & Hrun & Hat & Hat' & Ht & Hprio & _).
  exists g', r, c, a, t, w'. split; [done|].
  split; [unfold sink_tile; by rewrite Hrun|]. done.
Qed.

Lemma game0_fresh : fresh game0.
Proof. exists remaining_types. split; [done | by vm_compute]. Qed.

Lemma placed_game_reachable : reachable placed_game.
Proof.
  exists game0. split; [apply game0_fresh|].
  apply (setup_steps game0 seeded placed_game quiet). by vm_compute.
Qed.

Lemma sunk_game_reachable : reachable sunk_game.
Proof.
  eapply reachable_step; [apply placed_game_reachable|].
  apply (step_sink placed_game quiet sunk_game quiet). by vm_compute.
Qed.

Lemma C4_sink_priority_witness :
  exists g' r c a t w',
    sink_tile_at placed_game quiet = Ret (g', Some (r, c, a), w') /\
    sink_tile placed_game quiet = Ret (g', w') /\
    board_at placed_game r c = Ret (Some a) /\
    board_at g' r c = Ret None /\
    tiles placed_game !! a = Some t /\
    forall a' t', a' ∈ get_all_tiles placed_game ->
                  tiles placed_game !! a' = Some t' ->
                  (tier (Tile.type t) <= tier (Tile.type t'))%nat.
Proof.
  destruct (C4_sink_priority placed_game quiet placed_game_reachable)
    as [_ H].
  apply H. by vm_compute.
Defined.

(** ** C5: the creature phase *)

Lemma elem_of_safe_villagers g p va v :
  (va, v) ∈ safe_villagers g p ->
  vstore g !! va = Some v /\ Villager.state v = safe.
Proof.
  unfold safe_villagers. rewrite list_elem_of_filter. simpl.
  intros [Hs [_ Hv]%elem_of_villagers_of]. done.
Qed.

(** No step brings a dead villager back. *)
Lemma step_dead_stays g g' va v :
  step g g' -> vstore g !! va = Some v -> Villager.state v = dead ->
  exists v', vstore g' !! va = Some v' /\ Villager.state v' = dead.
Proof.
  intros Hstep Hv Hdead.
  assert (forall p loc va0 v0 k g1 loc1,
            legal_move g p loc va0 v0 k ->
            apply_move g va0 k loc = Ret (g1, loc1) ->
            exists v', vstore g1 !! va = Some v' /\ Villager.state v' = dead)
    as Hmove.
  { intros p loc va0 v0 k g1 loc1 ([_ Hv0]%elem_of_villagers_of & Hmov & _)
      (v1 & _ & -> & _)%apply_move_spec.
    exists v. split; [|done]. rewrite list_lookup_insert_ne; [done|].
    intros ->. assert (v0 = v) as -> by congruence.
    unfold Villager.movable in Hmov. by rewrite Hdead in Hmov. }
  destruct Hstep.
  - match goal with H : place _ _ _ _ = _ |- _ =>
      apply place_spec in H
        as (p & tl & _ & _ & _ & _ & _ & -> & _) end.
    exists v. split; [|done]. by apply lookup_app_l_Some.
  - match goal with H : human_iter _ _ _ _ = _ |- _ =>
      apply human_iter_spec in H
        as (_ & _ & [[-> ->]|(va0 & v0 & k & Hl & Hm)]) end; eauto.
  - match goal with H : comp_iter _ _ _ = _ |- _ =>
      apply comp_iter_spec in H
        as (va0 & v0 & k & _ & _ & Hl & Hm) end; eauto.
  - match goal with H : sink_tile _ _ = _ |- _ =>
      apply sink_tile_inv in H as [o H]; apply sink_tile_at_spec in H end.
    destruct o as [[[r0 c0] a]|].
    + match goal with H : exists _, _ |- _ =>
        destruct H as (a0 & t0 & ty & row & tl & _ & _ & _ & _ & _ & _ & _ & ->)
      end.
      exists v. split; [|done]. simpl. rewrite drown_lookup, Hv.
      rewrite decide_False; [done|]. intros [_ ?]. congruence.
    + match goal with H : _ /\ _ |- _ => destruct H as (_ & -> & _) end.
      eauto.
  - match goal with H : creature_phase _ _ = _ |- _ =>
      apply creature_phase_inv in H as (roll & victim & H) end.
    destruct (creature_phase_at_spec g w) as (g1 & v1 & w1 & E & _ & Hspec).
    match goal with H : creature_phase_at _ _ = _ |- _ =>
      rewrite E in H; injection H as <- _ <- <- end.
    destruct v1 as [vb|].
    + destruct Hspec as (_ & _ & -> & _). rewrite kill_lookup.
      case_decide; [|eauto]. subst. rewrite Hv. simpl. eauto.
    + destruct Hspec as [_ ->]. eauto.
  - eauto.
  - eauto.
  - eauto.
Qed.

Lemma rtc_dead_stays g g' va v :
  rtc step g g' -> vstore g !! va = Some v -> Villager.state v = dead ->
  exists v', vstore g' !! va = Some v' /\ Villager.state v' = dead.
Proof.
  intros Hrtc. revert v. induction Hrtc as [|g1 g2 g3 Hstep _ IH]; [eauto|].
  intros v Hv Hdead.
  destruct (step_dead_stays _ _ _ _ Hstep Hv Hdead) as (v' & Hv' & Hd').
  eauto.
Qed.

(** C5: the creature phase never fails.  Its roll is between 1 and 6, and
    each of these values is the roll for some draw.  There is a victim
    exactly when the roll is 1 or 2 and some villager is in the water; the
    victim is then one of the villagers in the water (the one at the
    position the next draw names, so each of them can be it), it becomes
    dead and nothing else changes; it stays dead through every later step
    and is never among the villagers a score is summed over.  Without a
    victim the game is unchanged. *)
Theorem C5_creature_phase (g : Game) (w : World) :
  exists g' victim w',
    creature_phase_at g w = Ret (g', fst (randint_1_6 w), victim, w') /\
    creature_phase g w = Ret (g', w') /\
    1 <= fst (randint_1_6 w) <= 6 /\
    (forall k, 1 <= k <= 6 ->
       fst (randint_1_6 (mkWorld [Z.to_nat (k - 1)] [])) = k) /\
    (victim <> None <->
     (fst (randint_1_6 w) = 1 \/ fst (randint_1_6 w) = 2) /\
     all_water g <> []) /\
    (forall i va, all_water g !! i = Some va ->
       creature_phase_at g (mkWorld [0; i]%nat [])
       = Ret (kill va g, 1, Some va, mkWorld [] [])) /\
    match victim with
    | Some va =>
        va ∈ all_water g /\
        exists v,
          vstore g !! va = Some v /\ Villager.state v = water /\
          g' = set_vstore (<[va := Villager.set_state dead v]> (vstore g)) g /\
          forall g'', rtc step g' g'' ->
            exists v'', vstore g'' !! va = Some v'' /\
                        Villager.state v'' = dead /\
                        forall p x, x ∈ safe_villagers g'' p -> x.1 <> va
    | None => g' = g
    end.
Proof.
  destruct (creature_phase_at_spec g w) as (g' & victim & w' & E & _ & Hspec).
  exists g', victim, w'. split; [done|].
  split; [unfold creature_phase; by rewrite E|].
  split; [apply randint_range|]. split.
  { intros k Hk.
    assert (k = 1 \/ k = 2 \/ k = 3 \/ k = 4 \/ k = 5 \/ k = 6)
      as [->|[->|[->|[->|[->| ->]]]]] by lia; reflexivity. }
  split.
  { destruct victim as [va|].
    - destruct Hspec as (Hroll & Hin & _). split; [|done]. intros _.
      split; [done|]. intros Hnil. rewrite Hnil in Hin.
      by apply elem_of_nil in Hin.
    - destruct Hspec as [Hno _]. split; [done|]. intros H. by destruct Hno. }
  split.
  { intros i va Hi. unfold creature_phase_at.
    change (randint_1_6 (mkWorld [0; i]%nat [])) with (1, mkWorld [i] []).
    lazy beta iota. case_bool_decide as Hroll; [|destruct Hroll; by left].
    destruct (all_water g) as [|x l] eqn:Haw; [done|].
    assert (i < length (x :: l))%nat as Hlt by by eapply lookup_lt_Some.
    unfold choice.
    change (draw (mkWorld [i] [])) with (i, mkWorld [] []).
    lazy beta iota. rewrite Nat.mod_small by done. by rewrite Hi. }
  destruct victim as [va|]; [|by destruct Hspec].
  destruct Hspec as (_ & Hin & -> & _). split; [done|].
  pose proof Hin as [_ (v & Hv & Hw)]%elem_of_all_water.
  exists v. split; [done|]. split; [done|]. split.
  { unfold kill. f_equal. apply list_eq. intros a.
    destruct (decide (a = va)) as [->|Hne].
    - rewrite list_lookup_alter_eq, Hv. simpl.
      rewrite list_lookup_insert_eq; [done|]. by eapply lookup_lt_Some.
    - rewrite list_lookup_alter_ne, list_lookup_insert_ne by done. done. }
  intros g'' Hrtc.
  assert (vstore (kill va g) !! va = Some (Villager.set_state dead v))
    as Hkilled.
  { rewrite kill_lookup, decide_True by done. by rewrite Hv. }
  destruct (rtc_dead_stays _ _ _ _ Hrtc Hkilled eq_refl) as (v'' & Hv'' & Hd).
  exists v''. split; [done|]. split; [done|].
  intros p [xa xv] Hx ?. simpl in *. subst xa.
  apply elem_of_safe_villagers in Hx as [Hxv Hsafe]. congruence.
Qed.

Lemma C5_creature_phase_witness :
  creature_phase_at sunk_game (mkWorld [0; 1]%nat [])
  = Ret (kill 14 sunk_game, 1, Some 14%nat, mkWorld [] []).
Proof.
  destruct (C5_creature_phase sunk_game quiet)
    as (g' & victim & w' & _ & _ & _ & _ & _ & H & _).
  apply (H 1%nat 14%nat). by vm_compute.
Defined.

(** ** C6: moving through the water *)

Lemma water_moves_of_snoc va log m :
  water_moves_of va (log ++ [m]) =
  water_moves_of va log ++
  (if decide (mv_villager m = va /\ mv_state m = water) then [m] else []).
Proof.
  unfold water_moves_of. by rewrite filter_app.
Qed.

Lemma marks_ok_apply_move g p loc va v k g' loc' :
  marks_ok g loc -> legal_move g p loc va v k ->
  apply_move g va k loc = Ret (g', loc') -> marks_ok g' loc'.
Proof.
  intros [Hmarks Hspent] ([_ Hv]%elem_of_villagers_of & Hmov & Hfree & Hk).
  intros (v0 & Hv0 & Evs & _ & _ & _ & _ & _ & _ & Elog & Hrest)
    %apply_move_spec.
  assert (v0 = v) as -> by congruence. clear Hv0.
  destruct (moved_fields k v) as (Mid & _ & _ & _ & Mstate).
  assert (water_moved loc ⊆ water_moved loc') as Hsub.
  { destruct (Villager.distance_remaining v - k <=? 0).
    - destruct Hrest as [-> _]. done.
    - destruct Hrest as [_ ->].
      case_decide; [apply union_subseteq_r | done]. }
  split.
  - intros va'. rewrite Elog, water_moves_of_snoc. simpl.
    destruct (decide (va = va' /\ Villager.state v = water))
      as [[<- Hw]|Hno].
    + intros _.
      destruct (water_moves_of va (moves loc)) as [|m l] eqn:Hold.
      * split; [done|]. exists (moved k v). split.
        { rewrite Evs. apply list_lookup_insert_eq. by eapply lookup_lt_Some. }
        rewrite Mstate, Mid.
        destruct (Villager.distance_remaining v - k <=? 0); [by left|].
        right. split; [done|]. destruct Hrest as [_ ->].
        rewrite decide_True by done.
        by apply elem_of_union_l, elem_of_singleton.
      * exfalso. destruct (Hmarks va) as [_ (v1 & Hv1 & Hblocked)];
          [by rewrite Hold|].
        assert (v1 = v) as -> by congruence.
        destruct Hblocked as [Hs|[_ Hin]]; [congruence|].
        by apply Hfree.
    + rewrite app_nil_r. intros Hne.
      destruct (Hmarks va' Hne) as [Hlen (v1 & Hv1 & Hblocked)].
      split; [done|].
      destruct (decide (va' = va)) as [->|Hva].
      * assert (v1 = v) as -> by congruence.
        destruct Hblocked as [Hs|[Hw _]].
        -- unfold Villager.movable in Hmov. by rewrite Hs in Hmov.
        -- destruct Hno. done.
      * exists v1. split; [rewrite Evs; by rewrite list_lookup_insert_ne|].
        destruct Hblocked as [Hs|[Hw Hin]]; [by left|].
        right. split; [done|]. by apply Hsub.
  - rewrite Elog. apply Forall_app. split; [done|].
    apply Forall_singleton. simpl. intros Hw.
    unfold max_move_of in Hk. rewrite decide_False in Hk by congruence. lia.
Qed.

Lemma marks_ok_move_loop fuel i g loc w g' loc' w' :
  marks_ok g loc ->
  move_loop fuel i g loc w = Ret (g', loc', w') -> marks_ok g' loc'.
Proof.
  revert g loc w; induction fuel as [|fuel IH]; intros g loc w Hok; simpl;
    [done|].
  destruct (players g !! i) as [p|] eqn:Hp; simpl; [|done].
  destruct (move_cond g p loc); [|by intros [= <- <- <-]].
  destruct (Player.is_human p).
  - destruct (human_iter g p loc w) as [[[[g1 loc1]|] w1]| |] eqn:Hit;
      simpl; [| |done..].
    + apply IH.
      apply human_iter_spec in Hit
        as (_ & _ & [[-> ->]|(va & v & k & Hl & Hm)]); [done|].
      by eapply marks_ok_apply_move.
    + by intros [= <- <- <-].
  - destruct (comp_iter g p loc) as [[[g1 loc1]|]| |] eqn:Hit;
      simpl; [| |done..].
    + apply IH.
      apply comp_iter_spec in Hit as (va & v & k & _ & _ & Hl & Hm).
      by eapply marks_ok_apply_move.
    + by intros [= <- <- <-].
Qed.

(** C6: a movement phase, of a human or of a computer player, starts with
    3 points and an empty set of marked swimmers; among the moves it
    applies, no villager appears more than once as a swimmer, and each
    move of a swimmer spends exactly one point.  Every move the loop
    applies is recorded with the points it spent, lowers the player's
    points by that amount and the villager's remaining distance by the
    same amount. *)
Theorem C6_water_move_once (i : nat) (g : Game) (w : World)
    (g' : Game) (loc' : Locals) (w' : World) :
  player_move_phase_log i g w = Ret (g', loc', w') ->
  player_move_phase_log i g w = move_loop (move_fuel w) i g move_start w /\
  points move_start = 3 /\ water_moved move_start = ∅ /\
  moves move_start = [] /\
  (forall va, (length (water_moves_of va (moves loc')) <= 1)%nat) /\
  Forall (fun m => mv_state m = water -> mv_spent m = 1) (moves loc') /\
  (forall g1 va k loc1 g2 loc2,
     apply_move g1 va k loc1 = Ret (g2, loc2) ->
     exists v v2,
       vstore g1 !! va = Some v /\ vstore g2 !! va = Some v2 /\
       moves loc2 = moves loc1 ++
                    [mkMove va (Villager.state v)
                            (Villager.distance_remaining v) (points loc1) k] /\
       points loc2 = points loc1 - k /\
       Villager.distance_remaining v2 = Villager.distance_remaining v - k).
Proof.
  intros Hrun. repeat (split; [done|]).
  assert (marks_ok g' loc') as [Hmarks Hspent].
  { eapply marks_ok_move_loop; [|exact Hrun]. split; [|by constructor].
    intros va Hne. by destruct Hne. }
  split.
  { intros va. destruct (water_moves_of va (moves loc')) as [|m l] eqn:E;
      [simpl; lia|].
    destruct (Hmarks va) as [Hlen _]; [by rewrite E|]. rewrite E in Hlen.
    lia. }
  split; [done|].
  intros g1 va k loc1 g2 loc2
    (v & Hv & Evs & _ & _ & _ & _ & _ & Ep & Elog & _)%apply_move_spec.
  exists v, (moved k v). split; [done|]. split.
  { rewrite Evs. apply list_lookup_insert_eq. by eapply lookup_lt_Some. }
  split; [done|]. split; [done|].
  by destruct (moved_fields k v) as (_ & _ & _ & -> & _).
Qed.

Lemma C6_water_move_once_witness :
  exists g' loc' w',
    player_move_phase_log 0 sunk_game
      (mkWorld [] [Yes; Digits 6; Digits 1; Yes; Digits 6; Digits 1;
                   Digits 1; No])
    = Ret (g', loc', w') /\
    water_moves_of 5 (moves loc') = [mkMove 5 water 3 3 1] /\
    (forall va, (length (water_moves_of va (moves loc')) <= 1)%nat).
Proof.
  assert (exists g' loc' w',
            player_move_phase_log 0 sunk_game
              (mkWorld [] [Yes; Digits 6; Digits 1; Yes; Digits 6; Digits 1;
                           Digits 1; No])
            = Ret (g', loc', w') /\
            water_moves_of 5 (moves loc') = [mkMove 5 water 3 3 1])
    as (g' & loc' & w' & Hrun & Hlog).
  { do 3 eexists. split; [vm_compute; reflexivity|]. by vm_compute. }
  exists g', loc', w'. split; [done|]. split; [done|].
  by destruct (C6_water_move_once _ _ _ _ _ _ Hrun)
    as (_ & _ & _ & _ & H & _).
Defined.

(** ** C8: the computer's policy *)










(** ** C9: scores and winner *)

(** The score is the sum, over the villagers the player owns, of the
    treasure of those that are safe. *)
Lemma score_of_sum g p :
  score_of g p =
  foldr Z.add 0 (map (treasure_if_safe g) (Player.villagers p)).
Proof.
  unfold score_of, safe_villagers, villagers_of.
  induction (Player.villagers p) as [|a l IH]; [done|].
  rewrite map_cons. cbn [foldr]. rewrite <- IH. clear IH.
  unfold treasure_if_safe. cbn [omap list_omap].
  destruct (vstore g !! a) as [v|]; cbn [fmap option_fmap option_map];
    [|done].
  rewrite filter_cons. cbn [snd]. by case_decide.
Qed.

Lemma score_of_no_safe g p : safe_villagers g p = [] -> score_of g p = 0.
Proof. unfold score_of. by intros ->. Qed.

Lemma compute_scores_lookup g j q' :
  players (compute_scores g) !! j = Some q' <->
  exists q, players g !! j = Some q /\
            q' = Player.set_score (score_of g q) q.
Proof.
  unfold compute_scores. simpl.
  change (map ?f ?l) with (f <$> l). rewrite list_lookup_fmap.
  destruct (players g !! j) as [q|]; simpl.
  - split; [intros [= <-]; by exists q | by intros (q0 & [= <-] & ->)].
  - split; [done | by intros (q0 & [=] & _)].
Qed.

Lemma winner_spec g i p :
  winner g = Ret (i, p) ->
  players g !! i = Some p /\
  (forall j q, players g !! j = Some q -> Player.score q <= Player.score p) /\
  (forall j q, players g !! j = Some q -> (j < i)%nat ->
               Player.score q < Player.score p).
Proof.
  unfold winner.
  destruct (py_max _ _) as [m|] eqn:Hm; simpl; [|done]. intros [= ->].
  apply py_max_spec in Hm as (k & Hk & Hall & Hbefore).
  rewrite list_lookup_imap in Hk.
  destruct (players g !! k) as [q|] eqn:Hq; simpl in Hk; [|done].
  injection Hk as <- <-. split; [done|]. split.
  - intros j q' Hj. apply (Hall (j, q')).
    apply list_elem_of_lookup. exists j. rewrite list_lookup_imap.
    by rewrite Hj.
  - intros j q' Hj Hlt. apply (Hbefore j (j, q')); [done|].
    rewrite list_lookup_imap. by rewrite Hj.
Qed.

Lemma winner_total g : players g <> [] -> exists i p, winner g = Ret (i, p).
Proof.
  intros Hne. unfold winner.
  destruct (py_max _ (imap _ (players g))) as [[i p]|] eqn:E; simpl;
    [eauto|].
  exfalso. by destruct (players g).
Qed.

(** C9: with at least one player, the end of [play] gives every player
    as score the sum of the treasure of those of its villagers that are
    safe (0 when none is), and names as winner a player whose score no
    other exceeds and which every player before it in the player list
    falls short of: the first player with the highest score. *)
Theorem C9_scores_and_winner (g : Game) :
  players g <> [] ->
  exists g' i p,
    finish g = Ret (g', (i, p)) /\
    vstore g' = vstore g /\
    length (players g') = length (players g) /\
    (forall j q,
       players g !! j = Some q ->
       exists q',
         players g' !! j = Some q' /\
         Player.name q' = Player.name q /\
         Player.villagers q' = Player.villagers q /\
         Player.score q' =
           foldr Z.add 0 (map (treasure_if_safe g) (Player.villagers q)) /\
         Player.score q' =
           foldr Z.add 0 (map (fun x => Villager.treasure x.2)
                              (safe_villagers g q)) /\
         (safe_villagers g q = [] -> Player.score q' = 0)) /\
    players g' !! i = Some p /\
    (forall j q, players g' !! j = Some q ->
                 Player.score q <= Player.score p) /\
    (forall j q, players g' !! j = Some q -> (j < i)%nat ->
                 Player.score q < Player.score p).
Proof.
  intros Hne. unfold finish.
  set (g1 := if decide (game_end_reason g = EmptyString)
             then set_game_end_reason "End condition met." g else g).
  assert (players g1 = players g /\ vstore g1 = vstore g) as [Eps Evs].
  { unfold g1. by case_decide. }
  assert (forall q, score_of g1 q = score_of g q) as Escore.
  { intros q. unfold score_of, safe_villagers, villagers_of.
    by rewrite Evs. }
  destruct (winner_total (compute_scores g1)) as (i & p & Hwin).
  { unfold compute_scores. simpl. rewrite Eps. by destruct (players g). }
  rewrite Hwin. simpl. exists (compute_scores g1), i, p.
  split; [done|]. split; [done|]. split.
  { unfold compute_scores. simpl. by rewrite length_map, Eps. }
  split.
  { intros j q Hq. exists (Player.set_score (score_of g q) q).
    split.
    { apply compute_scores_lookup. exists q. rewrite Eps, Escore. done. }
    split; [done|]. split; [done|]. simpl.
    split; [apply score_of_sum|]. split; [done|].
    apply score_of_no_safe. }
  by apply winner_spec.
Qed.

Lemma C9_scores_and_winner_witness :
  exists g' p,
    finish moved_game = Ret (g', (1%nat, p)) /\
    Player.name p = "Computer1" /\ Player.score p = 7.
Proof.
  destruct (C9_scores_and_winner moved_game) as (g' & i & p & Hrun & _);
    [by vm_compute|].
  exists g', p.
  assert (finish moved_game = Ret (g', (i, p)) ->
          i = 1%nat /\ Player.name p = "Computer1" /\ Player.score p = 7)
    as Hval.
  { vm_compute. intros [= _ -> <-]. done. }
  destruct (Hval Hrun) as (-> & ? & ?). done.
Defined.

(** ** C7: tile capacity *)

Lemma py_remove_subset x l l' y :
  py_remove x l = Some l' -> y ∈ l' -> y ∈ l.
Proof.
  revert l'; induction l as [|z l IH]; intros l'; simpl; [done|].
  case_decide.
  - intros [= ->] Hy. by right.
  - destruct (py_remove x l) as [l0|]; simpl; [|done].
    intros [= <-] [->|Hy]%elem_of_cons; [left | right; by eapply IH].
Qed.

Lemma adds_no_occupant_refl g g' :
  tiles g' = tiles g -> adds_no_occupant g g'.
Proof. intros E a t' Ht. rewrite E in Ht. by exists t'. Qed.

Lemma apply_move_adds_no_occupant g va k loc g' loc' :
  apply_move g va k loc = Ret (g', loc') -> adds_no_occupant g g'.
Proof.
  intros (v & _ & _ & _ & _ & _ & _ & _ & _ & _ & Hrest)%apply_move_spec.
  destruct (Villager.distance_remaining v - k <=? 0);
    [destruct Hrest as [_ Hrest]
    |destruct Hrest as [Hrest _]; by apply adds_no_occupant_refl].
  destruct (Villager.tile v) as [ta|]; [|by apply adds_no_occupant_refl].
  destruct Hrest as (tl & l & Htl & Hl & Ets). intros a t'. rewrite Ets.
  intros [(-> & <- & _)|[_ Ht]]%list_lookup_insert_Some; [|by exists t'].
  exists tl. split; [done|]. simpl. intros y. by eapply py_remove_subset.
Qed.

Lemma place_villagers_no_room n i random_place g w :
  valid_tiles g = [] -> is_Some (players g !! i) ->
  place_villagers n i random_place g w =
  Ret (g, match n with O => w | S _ => snd (randint_1_6 w) end).
Proof.
  intros Hnone [p Hp]. destruct n as [|n]; simpl; [done|].
  rewrite Hp. simpl. destruct (randint_1_6 w) as [treasure w1].
  by rewrite Hnone.
Qed.

(** C7: in every reachable game each tile has capacity 3 and at most 3
    occupants.  Placement, by hand or at random, only ever picks a tile
    that is on the board and has fewer occupants than its capacity; a
    pass of a movement loop, a tile sink and a creature phase add no
    occupant to any tile; and when no tile has room the placement loop of
    a player stops at once, without an error and without touching the
    game. *)
Theorem C7_capacity (g : Game) :
  reachable g ->
  (forall a t, tiles g !! a = Some t ->
     Tile.capacity t = 3%nat /\ (length (Tile.villagers t) <= 3)%nat) /\
  (forall by_hand w a w',
     choose_tile g by_hand (valid_tiles g) w = Ret (a, w') ->
     a ∈ get_all_tiles g /\
     exists t, tiles g !! a = Some t /\
               (length (Tile.villagers t) < Tile.capacity t)%nat) /\
  (forall p loc w g' loc' w',
     human_iter g p loc w = Ret (Some (g', loc'), w') ->
     adds_no_occupant g g') /\
  (forall p loc g' loc',
     comp_iter g p loc = Ret (Some (g', loc')) -> adds_no_occupant g g') /\
  (forall w g' w', sink_tile g w = Ret (g', w') -> adds_no_occupant g g') /\
  (forall w g' w',
     creature_phase g w = Ret (g', w') -> adds_no_occupant g g') /\
  (valid_tiles g = [] ->
   forall n i random_place w,
     is_Some (players g !! i) ->
     place_villagers n i random_place g w =
     Ret (g, match n with O => w | S _ => snd (randint_1_6 w) end)).
Proof.
  intros Hwf%reachable_wf. split.
  { intros a t Ht. destruct (wf_tile_shape g Hwf a t Ht) as [Hcap _].
    pose proof (wf_capacity g Hwf a t Ht). split; [done|lia]. }
  split.
  { intros by_hand w a w' [Hroom Hon]%choose_tile_spec. split; [done|].
    unfold has_room in Hroom. destruct (tiles g !! a) as [t|]; [|done].
    apply bool_decide_eq_true in Hroom. by exists t. }
  split.
  { intros p loc w g' loc' w'
      (_ & _ & [[-> ->]|(va & v & k & _ & Hm)])%human_iter_spec.
    - by apply adds_no_occupant_refl.
    - by eapply apply_move_adds_no_occupant. }
  split.
  { intros p loc g' loc' (va & v & k & _ & _ & _ & Hm)%comp_iter_spec.
    by eapply apply_move_adds_no_occupant. }
  split.
  { intros w g' w' (_ & _ & _ & E)%sink_tile_frame.
    by apply adds_no_occupant_refl. }
  split.
  { intros w g' w' (_ & _ & _ & _ & E)%creature_phase_frame.
    by apply adds_no_occupant_refl. }
  intros Hnone n i random_place w Hp. by apply place_villagers_no_room.
Qed.

Lemma C7_capacity_witness :
  exists t, tiles moved_game !! 3%nat = Some t /\
            Tile.capacity t = 3%nat /\
            (length (Tile.villagers t) <= 3)%nat.
Proof.
  assert (reachable moved_game) as Hreach.
  { eapply reachable_rtc; [apply placed_game_reachable|].
    apply (player_move_phase_steps 1 placed_game quiet moved_game quiet).
    by vm_compute. }
  destruct (C7_capacity moved_game Hreach) as [Hcap _].
  assert (exists t, tiles moved_game !! 3%nat = Some t) as [t Ht].
  { eexists. vm_compute. reflexivity. }
  exists t. split; [done|]. by apply (Hcap 3%nat).
Defined.

(** ** C10: players and villagers *)

Lemma sum_list_with_insert {A} (f : A -> nat) l i x y :
  l !! i = Some x ->
  (sum_list_with f (<[i := y]> l) + f x = sum_list_with f l + f y)%nat.
Proof.
  revert i; induction l as [|z l IH]; intros i; [done|].
  destruct i as [|i]; simpl.
  - intros [= ->]. lia.
  - intros Hi. specialize (IH i Hi). lia.
Qed.

Lemma sum_list_with_ge {A} (f : A -> nat) l c :
  (forall x, x ∈ l -> (c <= f x)%nat) ->
  (c * length l <= sum_list_with f l)%nat.
Proof.
  induction l as [|z l IH]; intros Hall; simpl; [lia|].
  assert (c <= f z)%nat by (apply Hall; left).
  assert (c * length l <= sum_list_with f l)%nat.
  { apply IH. intros x Hx. apply Hall. by right. }
  lia.
Qed.

Lemma sum_list_with_zero {A} (f : A -> nat) l :
  (forall x, x ∈ l -> f x = 0%nat) -> sum_list_with f l = 0%nat.
Proof.
  induction l as [|z l IH]; intros Hall; simpl; [done|].
  rewrite (Hall z) by left. rewrite IH; [done|].
  intros x Hx. apply Hall. by right.
Qed.

Lemma get_all_tiles_full g :
  board g = full_board -> get_all_tiles g = seq 0 15.
Proof. unfold get_all_tiles. by intros ->. Qed.

(** While fewer than 45 villagers stand on the 15 tiles, one has room. *)
Lemma room_left g :
  placing g -> (length (vstore g) < 45)%nat -> valid_tiles g <> [].
Proof.
  intros (Hwf & Hb & Hlen & Hocc & _) Hlt Hnone.
  assert (3 * length (tiles g) <= occupancy g)%nat as Hge; [|lia].
  apply sum_list_with_ge. intros t [a Ha]%list_elem_of_lookup.
  assert (a ∈ get_all_tiles g) as Hon.
  { rewrite get_all_tiles_full by done. apply elem_of_seq.
    apply lookup_lt_Some in Ha. lia. }
  destruct (has_room g a) eqn:Hroom.
  - assert (a ∈ valid_tiles g) as Hin by by apply elem_of_valid_tiles.
    rewrite Hnone in Hin. by apply elem_of_nil in Hin.
  - unfold has_room in Hroom. rewrite Ha in Hroom.
    apply bool_decide_eq_false in Hroom.
    destruct (wf_tile_shape g Hwf a t Ha) as [Hcap _]. lia.
Qed.

Lemma placing_place g i treasure a g' :
  placing g -> has_room g a = true ->
  place g i treasure a = Ret g' -> placing g'.
Proof.
  intros (Hwf & Hb & Hlen & Hocc & Htt) Hroom Hplace.
  split; [by eapply wf_place|].
  apply place_spec in Hplace
    as (p & tl & Hp & Htl & _ & Eb & Ets & Evs & Ett & _).
  split; [congruence|]. split; [by rewrite Ets, length_insert|].
  split; [|congruence].
  unfold occupancy in *. rewrite Ets, Evs, length_app. simpl.
  pose proof (sum_list_with_insert
                (fun t => length (Tile.villagers t)) (tiles g) a tl
                (Tile.set_villagers
                   (Tile.villagers tl ++ [length (vstore g)]) tl) Htl) as E.
  simpl in E. rewrite length_app in E. simpl in E. lia.
Qed.

Lemma set_villagers_id p : Player.set_villagers (Player.villagers p) p = p.
Proof. by destruct p. Qed.

(** The placement loop of a player, while there is room: it places all
    [n] villagers, which get the next [n] references. *)
Lemma place_villagers_spec n i random_place g w g' w' p :
  placing g -> players g !! i = Some p ->
  (length (vstore g) + n <= 45)%nat ->
  place_villagers n i random_place g w = Ret (g', w') ->
  placing g' /\
  length (vstore g') = (length (vstore g) + n)%nat /\
  players g' =
    <[i := Player.set_villagers
             (Player.villagers p ++ seq (length (vstore g)) n) p]>
      (players g).
Proof.
  revert g w p; induction n as [|n IH]; intros g w p Hpl Hp Hle; simpl.
  - intros [= <- <-]. split; [done|]. split; [lia|].
    rewrite app_nil_r, set_villagers_id. by rewrite list_insert_id.
  - rewrite Hp. simpl. destruct (randint_1_6 w) as [treasure w1].
    pose proof (room_left g Hpl ltac:(lia)) as Hroom.
    destruct (valid_tiles g) as [|x l] eqn:Hvalid; [done|].
    rewrite <- Hvalid. intros H.
    apply bind_Ret in H as ([a w2] & Hc & H).
    apply bind_Ret in H as (g1 & Hplace & H).
    apply choose_tile_spec in Hc as [Ha _].
    pose proof (placing_place _ _ _ _ _ Hpl Ha Hplace) as Hpl1.
    apply place_spec in Hplace
      as (p0 & tl & Hp0 & Htl & Eps & _ & _ & Evs & _).
    assert (p0 = p) as -> by congruence.
    assert (length (vstore g1) = S (length (vstore g))) as Elen.
    { rewrite Evs, length_app. simpl. lia. }
    eapply IH in H as (Hpl' & Elen' & Eps'); [|done| |lia].
    2:{ rewrite Eps. apply list_lookup_insert_eq. by eapply lookup_lt_Some. }
    split; [done|]. split; [lia|].
    rewrite Eps', Eps, list_insert_insert_eq. simpl.
    by rewrite Elen, <- app_assoc.
Qed.

Lemma place_villagers_total n i random_place g w p :
  placing g -> players g !! i = Some p ->
  Player.is_human p && negb random_place = false ->
  (length (vstore g) + n <= 45)%nat ->
  exists g' w', place_villagers n i random_place g w = Ret (g', w').
Proof.
  revert g w p; induction n as [|n IH]; intros g w p Hpl Hp Hauto Hle; simpl;
    [eauto|].
  rewrite Hp. simpl. destruct (randint_1_6 w) as [treasure w1].
  pose proof (room_left g Hpl ltac:(lia)) as Hroom.
  destruct (valid_tiles g) as [|x l] eqn:Hvalid; [done|].
  rewrite <- Hvalid, Hauto. unfold choose_tile.
  destruct (choice_total (valid_tiles g) w1) as [a Hc]; [by rewrite Hvalid|].
  rewrite Hc. simpl.
  apply choice_spec in Hc as (Hin & _).
  apply elem_of_valid_tiles in Hin as [Ha Hon].
  destruct Hpl as (Hwf & Hrest).
  destruct (wf_board g Hwf a Hon) as [tl Htl].
  destruct (place g i treasure a) as [g1| |] eqn:Hplace;
    [|unfold place in Hplace; rewrite Hp, Htl in Hplace; done..].
  simpl.
  pose proof (placing_place g _ _ _ _ (conj Hwf Hrest) Ha Hplace) as Hpl1.
  apply place_spec in Hplace
    as (p0 & tl0 & Hp0 & _ & Eps & _ & _ & Evs & _).
  assert (p0 = p) as -> by congruence.
  eapply (IH g1); [done| | |].
  - rewrite Eps. apply list_lookup_insert_eq. by eapply lookup_lt_Some.
  - done.
  - rewrite Evs, length_app. simpl. lia.
Qed.

Lemma setup_player_spec i g w g' w' p :
  placing g -> players g !! i = Some p ->
  (length (vstore g) + 10 <= 45)%nat ->
  setup_player i g w = Ret (g', w') ->
  placing g' /\
  length (vstore g') = (length (vstore g) + 10)%nat /\
  players g' =
    <[i := Player.set_villagers
             (Player.villagers p ++ seq (length (vstore g)) 10) p]>
      (players g).
Proof.
  intros Hpl Hp Hle. unfold setup_player. intros H.
  apply bind_Ret in H as (p0 & Hp0 & H).
  apply bind_Ret in H as ([random_place w1] & _ & H).
  by eapply place_villagers_spec.
Qed.

Lemma fresh_placing g : fresh g -> placing g.
Proof.
  intros Hfresh. split; [by apply fresh_wf|].
  apply fresh_spec in Hfresh
    as (_ & Hb & Hlen & Hts & _ & Hvs & Htt & _).
  split; [done|]. split; [done|]. split; [|done]. rewrite Hvs. simpl.
  apply sum_list_with_zero. intros t [a Ha]%list_elem_of_lookup.
  by rewrite (Hts a t Ha).
Qed.

(** Villager ids follow the order of creation. *)
Lemma wf_ids g :
  wf g -> map Villager.id (vstore g) = seqZ 1 (Z.of_nat (length (vstore g))).
Proof.
  intros Hwf. apply list_eq. intros a.
  change (map ?f ?l) with (f <$> l). rewrite list_lookup_fmap.
  destruct (vstore g !! a) as [v|] eqn:Hv; simpl.
  - rewrite (wf_vid g Hwf a v Hv). symmetry.
    rewrite lookup_seqZ. apply lookup_lt_Some in Hv. lia.
  - symmetry. apply lookup_seqZ_ge. apply lookup_ge_None in Hv. lia.
Qed.

Lemma ids_of_owned g l :
  wf g -> (forall a, a ∈ l -> (a < length (vstore g))%nat) ->
  map (fun x : nat * Villager.t => Villager.id x.2)
      (omap (fun a => pair a <$> vstore g !! a) l) =
  map (fun a => Z.of_nat a + 1) l.
Proof.
  intros Hwf. induction l as [|a l IH]; intros Hall; [done|].
  cbn [omap list_omap].
  destruct (lookup_lt_is_Some_2 (vstore g) a) as [v Hv];
    [apply Hall; left|].
  rewrite Hv. cbn [fmap option_fmap option_map]. rewrite !map_cons.
  cbn [snd]. rewrite (wf_vid g Hwf a v Hv). f_equal.
  apply IH. intros b Hb. apply Hall. by right.
Qed.

(** On a fresh game, placement gives player number [k] the villagers
    with references [10k .. 10k+9]. *)
Lemma setup_fresh g0 w g w' :
  fresh g0 -> setup g0 w = Ret (g, w') ->
  placing g /\ length (vstore g) = 30%nat /\
  players g =
    [Player.mk "Human" true (seq 0 10) 0;
     Player.mk "Computer1" false (seq 10 10) 0;
     Player.mk "Computer2" false (seq 20 10) 0].
Proof.
  intros Hfresh. pose proof (fresh_placing g0 Hfresh) as Hpl0.
  apply fresh_spec in Hfresh as (Hps & _ & _ & _ & _ & Hvs & _).
  unfold setup. rewrite Hps. simpl. intros H.
  apply bind_Ret in H as ([g1 w1] & H1 & H).
  apply bind_Ret in H as ([g2 w2] & H2 & H).
  apply bind_Ret in H as ([g3 w3] & H3 & H).
  injection H as <- <-.
  eapply setup_player_spec in H1 as (Hpl1 & Hlen1 & Eps1);
    [|done|by rewrite Hps|rewrite Hvs; simpl; lia].
  rewrite Hvs, Hps in *. simpl in Hlen1, Eps1.
  eapply setup_player_spec in H2 as (Hpl2 & Hlen2 & Eps2);
    [|done|by rewrite Eps1|lia].
  rewrite Hlen1, Eps1 in *. simpl in Hlen2, Eps2.
  eapply setup_player_spec in H3 as (Hpl3 & Hlen3 & Eps3);
    [|done|by rewrite Eps2|lia].
  rewrite Hlen2, Eps2 in *. simpl in Hlen3, Eps3.
  done.
Qed.

Lemma setup_player_total i g w p :
  placing g -> players g !! i = Some p ->
  (Player.is_human p = true -> exists rest, input w = Yes :: rest) ->
  (length (vstore g) + 10 <= 45)%nat ->
  exists g' w', setup_player i g w = Ret (g', w').
Proof.
  intros Hpl Hp Hyes Hle. unfold setup_player. rewrite Hp.
  cbn [of_option mbind res_bind].
  destruct (Player.is_human p) eqn:Hh.
  - destruct (Hyes eq_refl) as [rest Hin]. unfold read_line. rewrite Hin.
    cbn [mbind res_bind].
    apply (place_villagers_total 10 i true g _ p); try done.
    by rewrite Hh.
  - cbn [mbind res_bind].
    apply (place_villagers_total 10 i false g _ p); try done.
    by rewrite Hh.
Qed.

Lemma setup_random_total g0 w rest :
  fresh g0 -> input w = Yes :: rest ->
  exists g w', setup g0 w = Ret (g, w').
Proof.
  intros Hfresh Hin. pose proof (fresh_placing g0 Hfresh) as Hpl0.
  apply fresh_spec in Hfresh as (Hps & _ & _ & _ & _ & Hvs & _).
  unfold setup. rewrite Hps.
  change (seq 0 (length _)) with [0; 1; 2]%nat.
  cbn [setup_from].
  destruct (setup_player_total 0 g0 w (Player.init "Human" true))
    as (g1 & w1 & H1); [done|by rewrite Hps|by exists rest
                       |rewrite Hvs; simpl; lia|].
  rewrite H1. cbn [mbind res_bind].
  eapply setup_player_spec in H1 as (Hpl1 & Hlen1 & Eps1);
    [|done|by rewrite Hps|rewrite Hvs; simpl; lia].
  rewrite Hvs, Hps in *. simpl in Hlen1, Eps1.
  destruct (setup_player_total 1 g1 w1 (Player.init "Computer1" false))
    as (g2 & w2 & H2); [done|by rewrite Eps1|done|lia|].
  rewrite H2. cbn [mbind res_bind].
  eapply setup_player_spec in H2 as (Hpl2 & Hlen2 & Eps2);
    [|done|by rewrite Eps1|lia].
  rewrite Hlen1, Eps1 in *. simpl in Hlen2, Eps2.
  destruct (setup_player_total 2 g2 w2 (Player.init "Computer2" false))
    as (g3 & w3 & H3); [done|by rewrite Eps2|done|lia|].
  rewrite H3. cbn [mbind res_bind]. eauto.
Qed.

(** C10: a game starts with three players, the human first and two
    computers after it, none owning a villager, and no step of the game
    changes who the players are.  When [setup] on a fresh game returns,
    each player owns exactly 10 villagers and the ids are 1, 2, ..., 30
    in the order of placement, so player after player: pairwise
    distinct, 1 to 10 for the human, 11 to 20 and 21 to 30 for the
    computers; the placement never runs out of tiles.  [setup] does
    return when the human asks for random placement. *)
Theorem C10_players_and_villagers (g0 : Game) (w : World) (g : Game)
    (w' : World) :
  fresh g0 -> setup g0 w = Ret (g, w') ->
  map (fun p => (Player.name p, Player.is_human p, Player.villagers p))
      (players g0) =
    [("Human", true, []); ("Computer1", false, []);
     ("Computer2", false, [])] /\
  (forall g', rtc step g0 g' ->
     map (fun p => (Player.name p, Player.is_human p)) (players g') =
     [("Human", true); ("Computer1", false); ("Computer2", false)]) /\
  map (fun p => length (Player.villagers p)) (players g) =
    [10; 10; 10]%nat /\
  map (fun p => map (fun x : nat * Villager.t => Villager.id x.2)
                    (villagers_of g p)) (players g) =
    [seqZ 1 10; seqZ 11 10; seqZ 21 10] /\
  map Villager.id (vstore g) = seqZ 1 30 /\
  NoDup (map Villager.id (vstore g)) /\
  villager_counter g = 31 /\
  (forall w0 rest, input w0 = Yes :: rest ->
                   exists g1 w1, setup g0 w0 = Ret (g1, w1)).
Proof.
  intros Hfresh Hrun.
  pose proof (setup_fresh _ _ _ _ Hfresh Hrun) as ((Hwf & _) & Hlen & Eps).
  split.
  { apply fresh_spec in Hfresh as (-> & _). done. }
  split.
  { intros g' Hrtc. apply wf_players. eapply wf_rtc; [|done].
    by apply fresh_wf. }
  split; [by rewrite Eps|].
  assert (map Villager.id (vstore g) = seqZ 1 30) as Hids.
  { rewrite (wf_ids g Hwf), Hlen. done. }
  split.
  { rewrite Eps. cbn [map]. unfold villagers_of. cbn [Player.villagers].
    rewrite !(ids_of_owned g) by
      (try done; intros a Ha%elem_of_seq; lia).
    done. }
  split; [done|]. split; [rewrite Hids; apply NoDup_seqZ|].
  split; [rewrite (wf_counter g Hwf), Hlen; done|].
  intros w0 rest Hin. by eapply setup_random_total.
Qed.

Lemma C10_players_and_villagers_witness :
  map (fun p => length (Player.villagers p)) (players placed_game) =
    [10; 10; 10]%nat /\
  map Villager.id (vstore placed_game) = seqZ 1 30.
Proof.
  destruct (C10_players_and_villagers game0 seeded placed_game quiet)
    as (_ & _ & H1 & _ & H2 & _).
  - exists remaining_types. split; [done | by vm_compute].
  - by vm_compute.
  - by split.
Defined.

(** ** C1: reaching safety *)

(** In every reachable game a villager is safe exactly when its remaining
    distance is at most 0. *)
Lemma reachable_safe_iff_distance g va v :
  reachable g -> vstore g !! va = Some v ->
  (Villager.state v = safe <-> Villager.distance_remaining v <= 0).
Proof. intros Hwf%reachable_wf. by apply wf_dist. Qed.

(** A move makes the villager safe exactly when it brings the remaining
    distance to 0 or below, takes the villager off its tile's occupant
    list then, and never touches the villager's own tile reference. *)
Lemma apply_move_keeps_tile g va k loc g' loc' :
  apply_move g va k loc = Ret (g', loc') ->
  exists v v',
    vstore g !! va = Some v /\ vstore g' !! va = Some v' /\
    Villager.tile v' = Villager.tile v /\
    Villager.state v' =
      (if Villager.distance_remaining v - k <=? 0 then safe
       else Villager.state v).
Proof.
  intros (v & Hv & Evs & _)%apply_move_spec.
  exists v, (moved k v). split; [done|]. split.
  { rewrite Evs. apply list_lookup_insert_eq. by eapply lookup_lt_Some. }
  by destruct (moved_fields k v) as (_ & -> & _ & _ & ->).
Qed.

(** C1 (the code departs from it): in the reachable game [placed_game]
    the movement phase of Computer1 brings villager 11, which stands on
    tile 3, to remaining distance 0.  The villager becomes safe and
    leaves the occupant list of tile 3, but its tile reference is not
    cleared: it still refers to tile 3. *)
Theorem C1_safe_villager_keeps_tile_reference :
  reachable placed_game /\
  player_move_phase 1 placed_game quiet = Ret (moved_game, quiet) /\
  reachable moved_game /\
  exists v tl,
    vstore moved_game !! 10%nat = Some v /\
    Villager.id v = 11 /\
    Villager.state v = safe /\
    Villager.distance_remaining v = 0 /\
    Villager.tile v = Some 2%nat /\
    tiles moved_game !! 2%nat = Some tl /\
    Tile.id tl = 3 /\
    Tile.villagers tl = [24%nat].
Proof.
  assert (player_move_phase 1 placed_game quiet = Ret (moved_game, quiet))
    as Hrun by by vm_compute.
  split; [apply placed_game_reachable|]. split; [done|]. split.
  { eapply reachable_rtc; [apply placed_game_reachable|].
    by eapply player_move_phase_steps. }
  do 2 eexists. split; [vm_compute; reflexivity|].
  repeat (split; [by vm_compute|]). by vm_compute.
Qed.

(** ** How long a game lasts *)

Lemma tiles_left_sunk g : all_tiles_sunk g = (tiles_left g =? 0)%nat.
Proof.
  unfold all_tiles_sunk, tiles_left.
  destruct (get_all_tiles g); by simpl.
Qed.

Lemma tiles_left_board g g' :
  board g' = board g -> tiles_left g' = tiles_left g.
Proof. unfold tiles_left, get_all_tiles. by intros ->. Qed.

(** A player's turn takes one tile off the board, if there is one, and
    ends the game exactly when none is left. *)
Lemma player_turn_count i g w g' over w' :
  wf g -> player_turn i g w = Ret (g', over, w') ->
  wf g' /\ tiles_left g' = pred (tiles_left g) /\
  over = (tiles_left g' =? 0)%nat.
Proof.
  intros Hwf Hrun.
  assert (wf g') as Hwf'.
  { apply (wf_rtc g g' Hwf). exact (player_turn_steps _ _ _ _ _ _ Hrun). }
  split; [done|]. revert Hrun. unfold player_turn.
  rewrite (tiles_left_sunk g).
  destruct (Nat.eqb_spec (tiles_left g) 0) as [E0|Hne].
  { intros [= <- <- <-].
    rewrite (tiles_left_board g (set_game_end_reason _ g)) by done.
    rewrite E0. done. }
  intros H. apply bind_Ret in H as ([g1 w1] & H1 & H).
  assert (wf g1) as Hwf1.
  { apply (wf_rtc g g1 Hwf). exact (player_move_phase_steps _ _ _ _ _ H1). }
  apply player_move_phase_frame in H1 as (Eb1 & _).
  pose proof (tiles_left_board g g1 Eb1) as Ec1.
  rewrite (tiles_left_sunk g1), Ec1 in H.
  destruct (Nat.eqb_spec (tiles_left g) 0) as [|_]; [lia|].
  apply bind_Ret in H as ([g2 w2] & H2 & H).
  destruct (sink_tile_on_board g1 w1 Hwf1)
    as (g2' & r & c & a & t & w2' & Hrun & _ & _ & _ & _ & Hcount).
  { intros Hnil. apply Hne. rewrite <- Ec1. unfold tiles_left.
    by rewrite Hnil. }
  unfold sink_tile in H2. rewrite Hrun in H2. simpl in H2.
  injection H2 as <- <-.
  assert (tiles_left g2' = pred (tiles_left g)) as Ec2 by lia.
  rewrite (tiles_left_sunk g2') in H.
  destruct (Nat.eqb_spec (tiles_left g2') 0) as [E2|Hne2].
  { injection H as <- <- <-.
    rewrite (tiles_left_board g2' (set_game_end_reason _ g2')) by done.
    rewrite E2. split; [lia | done]. }
  apply bind_Ret in H as ([g3 w3] & H3 & H).
  apply creature_phase_frame in H3 as (Eb3 & _).
  injection H as <- <- <-.
  rewrite (tiles_left_board g2' g3 Eb3). split; [done|].
  symmetry. by apply Nat.eqb_neq.
Qed.

Lemma for_players_count idx g w g' over w' :
  wf g -> for_players idx g w = Ret (g', over, w') ->
  wf g' /\
  ((length idx < tiles_left g)%nat ->
   over = false /\ tiles_left g' = (tiles_left g - length idx)%nat) /\
  (idx <> [] -> (tiles_left g <= length idx)%nat ->
   over = true /\ tiles_left g' = 0%nat).
Proof.
  revert g w; induction idx as [|i idx IH]; intros g w Hwf; simpl.
  - intros [= <- <- <-]. split; [done|]. split; [|done].
    intros _. split; [done | lia].
  - intros H. apply bind_Ret in H as ([[g1 o1] w1] & H1 & H).
    apply player_turn_count in H1 as (Hwf1 & Ec1 & ->); [|done].
    destruct (Nat.eqb_spec (tiles_left g1) 0) as [E1|Hne1].
    + injection H as <- <- <-. split; [done|]. split; [lia|]. done.
    + apply IH in H as (Hwf' & Hmore & Hless); [|done].
      split; [done|]. split.
      * intros Hlt. destruct Hmore as [-> ->]; [lia|]. split; [done|lia].
      * intros _ Hle. apply Hless; [|lia].
        intros ->. simpl in Hle. lia.
Qed.

Lemma tiles_left_check_max_turns g over :
  tiles_left (check_max_turns g over).1 = tiles_left g.
Proof. unfold check_max_turns. by destruct (_ && _). Qed.

(** A round of three players on a board with [c >= 1] tiles: with more
    than 3 tiles it leaves [c - 3] and, short of the round limit, the
    game goes on; with at most 3 it empties the board and ends the game
    with the all-sunk reason. *)
Lemma play_round_count g w g' over w' :
  wf g -> length (players g) = 3%nat -> tiles_left g <> 0%nat ->
  play_round g w = Ret (g', over, w') ->
  wf g' /\ total_turns g' = total_turns g + 1 /\
  players g' = players g /\
  ((3 < tiles_left g)%nat ->
   tiles_left g' = (tiles_left g - 3)%nat /\
   (total_turns g + 1 < MAX_TURNS -> over = false)) /\
  ((tiles_left g <= 3)%nat ->
   over = true /\ tiles_left g' = 0%nat /\
   game_end_reason g' = all_sunk_reason).
Proof.
  intros Hwf Hlen Hne Hrun.
  assert (wf g') as Hwf'.
  { apply (wf_rtc g g' Hwf). exact (play_round_steps _ _ _ _ _ Hrun). }
  split; [done|].
  assert (all_tiles_sunk g = false) as Hs.
  { rewrite tiles_left_sunk. by apply Nat.eqb_neq. }
  pose proof (play_round_spec _ _ _ _ _ Hs Hrun) as (Ett & Eps & Hcase).
  split; [done|]. split; [done|].
  unfold play_round in Hrun. simpl in Hrun. rewrite Hlen in Hrun.
  apply bind_Ret in Hrun as ([[g2 o2] w2] & H2 & Hrun).
  apply for_players_count in H2 as (_ & Hmore & Hless);
    [|by eapply wf_step; [|apply step_turn]].
  rewrite (tiles_left_board g (set_total_turns _ g)) in Hmore, Hless by done.
  simpl in Hmore, Hless.
  pose proof (tiles_left_check_max_turns g2 o2) as Ec.
  destruct (check_max_turns g2 o2) as [g3 o3]. injection Hrun as <- <- <-.
  simpl in Ec. rewrite tiles_left_sunk in Hcase. split.
  - intros Hlt. destruct Hmore as [-> Ec2]; [done|]. split; [lia|].
    intros Htt. destruct (Nat.eqb_spec (tiles_left g3) 0) as [|_]; [lia|].
    destruct (Z.leb_spec MAX_TURNS (total_turns g3)); [lia|].
    by destruct Hcase.
  - intros Hle. destruct Hless as [-> Ec2]; [done..|].
    rewrite Ec, Ec2 in Hcase. simpl in Hcase.
    destruct Hcase as [-> Er]. split; [done|]. split; [lia|done].
Qed.

Lemma play_loop_rounds k fuel g w g' w' :
  wf g -> length (players g) = 3%nat ->
  tiles_left g = (3 * S k)%nat ->
  total_turns g + Z.of_nat k < MAX_TURNS ->
  play_loop fuel g w = Ret (g', w') ->
  total_turns g' = total_turns g + Z.of_nat (S k) /\
  tiles_left g' = 0%nat /\ game_end_reason g' = all_sunk_reason.
Proof.
  revert fuel g w; induction k as [|k IH]; intros fuel g w Hwf Hlen Hc Htt;
    (destruct fuel as [|fuel]; simpl; [done|]);
    rewrite tiles_left_sunk;
    (destruct (Nat.eqb_spec (tiles_left g) 0) as [|Hne]; [lia|]);
    intros H; apply bind_Ret in H as ([[g1 o1] w1] & Hr & H);
    apply play_round_count in Hr as (Hwf1 & Ett & Eps & Hmore & Hless);
    try done.
  - destruct Hless as (-> & Ec & Er); [lia|]. injection H as <- <-.
    split; [lia|]. done.
  - destruct Hmore as (Ec & Hover); [lia|]. rewrite Hover in H by lia.
    eapply IH in H as (Ett' & Ec' & Er'); [|done|congruence|lia|lia].
    split; [lia|]. done.
Qed.

(** A game played from a fresh board lasts exactly five rounds and ends
    because the last tile sank: three tiles sink in every round, and the
    round limit is never reached. *)
Theorem play_ends_in_round_five g0 w g win w' :
  fresh g0 -> play g0 w = Ret (g, win, w') ->
  total_turns g = 5 /\ all_tiles_sunk g = true /\
  game_end_reason g = all_sunk_reason.
Proof.
  intros Hfresh. unfold play. intros H.
  apply bind_Ret in H as ([g1 w1] & H1 & H).
  apply bind_Ret in H as ([g2 w2] & H2 & H).
  apply bind_Ret in H as ([g3 win3] & H3 & H).
  injection H as <- <- <-.
  apply setup_fresh in H1 as ((Hwf & Hb & _ & _ & Htt) & _ & Eps); [|done].
  apply (play_loop_rounds 4) in H2 as (Ett & Ec & Er); try done.
  - unfold finish in H3. rewrite Er in H3.
    rewrite decide_False in H3 by done.
    apply bind_Ret in H3 as (x & _ & H3). injection H3 as <- _.
    rewrite tiles_left_sunk.
    rewrite (tiles_left_board g2 (compute_scores g2)) by done.
    rewrite Ec. simpl. split; [lia | done].
  - by rewrite Eps.
  - unfold tiles_left. by rewrite get_all_tiles_full.
  - rewrite Htt. unfold MAX_TURNS. lia.
Qed.

(** * More properties *)

(** ** A fresh board *)

Lemma remaining_types_no_volcano :
  Forall (fun ty => ty <> volcano) remaining_types.
Proof. unfold remaining_types. simpl. by repeat constructor. Qed.

(** [Game()]: the fifteen tiles are the fourteen of the pool and the
    volcano, and the volcano is tile 8, in the middle of the board. *)
Lemma fresh_types g :
  fresh g ->
  map Tile.type (tiles g) ≡ₚ volcano :: remaining_types /\
  forall a t, tiles g !! a = Some t -> (Tile.type t = volcano <-> a = 7%nat).
Proof.
  intros (pool & Hperm & Hinit).
  pose proof remaining_types_no_volcano as Hno. rewrite <- Hperm in Hno.
  pose proof (Permutation_length Hperm) as Hlen.
  change (length remaining_types) with 14%nat in Hlen.
  do 14 (destruct pool as [|? pool]; [done|]).
  destruct pool; [|done]. clear Hlen.
  vm_compute in Hinit. injection Hinit as <-. simpl. split.
  - rewrite <- Hperm.
    match goal with |- ?l ≡ₚ _ =>
      change l with (reverse ([t; t0; t1; t2; t3; t4; t5] ++
                              volcano :: [t6; t7; t8; t9; t10; t11; t12]))
    end.
    rewrite reverse_Permutation. symmetry.
    apply (Permutation_middle [t; t0; t1; t2; t3; t4; t5]).
  - repeat match goal with H : Forall _ (_ :: _) |- _ =>
             apply Forall_cons in H as [? H] end.
    intros a tl Htl.
    do 15 (destruct a as [|a]; [injection Htl as <-; simpl; split;
                                (done || lia || congruence)|]).
    done.
Qed.

(** ** The links between board, tiles and villagers *)

Lemma board_at_full r c slot :
  board_at (mkGame [] full_board [] [] 0 1 EmptyString) r c = Ret slot ->
  slot = Some (5 * r + c)%nat /\ (r < 3)%nat /\ (c < 5)%nat.
Proof.
  unfold board_at. simpl.
  do 3 (destruct r as [|r];
        [do 5 (destruct c as [|c]; [intros [= <-]; split; [done|lia]|]);
         done|]).
  done.
Qed.

Lemma board_at_board g g' r c :
  board g' = board g -> board_at g' r c = board_at g r c.
Proof. unfold board_at. by intros ->. Qed.

Lemma fresh_linked g : fresh g -> linked g.
Proof.
  intros Hfresh. pose proof (fresh_types g Hfresh) as [_ Hvol].
  apply fresh_spec in Hfresh
    as (Hps & Hb & Hlen & Hts & _ & Hvs & _).
  assert (forall r c, board_at g r c =
            board_at (mkGame [] full_board [] [] 0 1 EmptyString) r c) as Hat.
  { intros r c. by apply board_at_board. }
  split.
  - intros r c Hr Hc. rewrite Hat. unfold board_at. simpl.
    do 3 (destruct r as [|r];
          [do 5 (destruct c as [|c]; [by eexists|]); lia|]).
    lia.
  - intros r c a. rewrite Hat. intros H.
    apply board_at_full in H as ([= ->] & ? & ?). done.
  - done.
  - intros ta tl va Htl. rewrite (Hts ta tl Htl). simpl.
    by intros ?%elem_of_nil.
  - intros ta tl Htl. rewrite (Hts ta tl Htl). simpl. constructor.
  - intros ta tl va _ Htl. rewrite (Hts ta tl Htl). simpl.
    by intros ?%elem_of_nil.
  - intros va v ta. by rewrite Hvs.
  - intros va v. by rewrite Hvs.
  - intros i p va. rewrite Hps.
    destruct i as [|[|[|i]]]; simpl; try done; intros [= <-]; simpl;
      by intros ?%elem_of_nil.
Qed.

Lemma py_remove_NoDup x l l' :
  NoDup l -> py_remove x l = Some l' -> NoDup l' /\ x ∉ l'.
Proof.
  revert l'; induction l as [|y l IH]; intros l' Hnd; simpl; [done|].
  apply NoDup_cons in Hnd as [Hy Hnd]. case_decide as E.
  - intros [= <-]. subst. done.
  - destruct (py_remove x l) as [l0|] eqn:Hl; simpl; [|done].
    intros [= <-]. destruct (IH l0 Hnd eq_refl) as [Hnd0 Hx]. split.
    + apply NoDup_cons. split; [|done].
      intros Hin. apply Hy. by eapply py_remove_subset.
    + intros [->|Hin]%elem_of_cons; done.
Qed.

Lemma moved_owner k v : Villager.owner (moved k v) = Villager.owner v.
Proof. unfold moved. simpl. by destruct (_ <=? 0). Qed.

Lemma linked_place g i treasure a g' :
  wf g -> linked g -> has_room g a = true -> a ∈ get_all_tiles g ->
  place g i treasure a = Ret g' -> linked g'.
Proof.
  intros Hwf [Hshape Hslot Hvol Hvalid Hnd Hocc Hon Hrange Hown] Hroom Ha.
  intros (p & tl & Hp & Htl & Eps & Eb & Ets & Evs & _)%place_spec.
  pose proof (get_all_tiles_board g g' Eb) as Egat.
  assert (forall ta tl', tiles g' !! ta = Some tl' ->
            (ta = a /\ tl' = Tile.set_villagers
                               (Tile.villagers tl ++ [length (vstore g)]) tl)
            \/ (ta <> a /\ tiles g !! ta = Some tl')) as Htiles.
  { intros ta tl'. rewrite Ets.
    intros [(-> & <- & _)|[? ?]]%list_lookup_insert_Some; auto. }
  assert (forall va v, vstore g !! va = Some v -> vstore g' !! va = Some v)
    as Hkeep.
  { intros va v Hv. rewrite Evs. by apply lookup_app_l_Some. }
  assert (vstore g' !! length (vstore g) =
          Some (Villager.mk (villager_counter g) (Player.name p) treasure
                            land (Tile.distance tl) (Some a))) as Hnew.
  { rewrite Evs. by rewrite lookup_app_r, Nat.sub_diag. }
  split.
  - intros r c Hr Hc. rewrite (board_at_board g g') by done. eauto.
  - intros r c a'. rewrite (board_at_board g g') by done. eauto.
  - intros ta tl' [[-> ->]|[_ Ht]]%Htiles; simpl; eauto.
  - intros ta tl' va [[-> ->]|[_ Ht]]%Htiles; simpl.
    + intros [Hin| ->%list_elem_of_singleton]%elem_of_app; [|by eexists].
      destruct (Hvalid a tl va Htl Hin) as [v Hv]. eauto.
    + intros Hin. destruct (Hvalid ta tl' va Ht Hin) as [v Hv]. eauto.
  - intros ta tl' [[-> ->]|[_ Ht]]%Htiles; simpl; [|eauto].
    apply NoDup_app. split; [eauto|]. split; [|apply NoDup_singleton].
    intros va Hin ->%list_elem_of_singleton.
    destruct (Hvalid a tl _ Htl Hin) as [v Hv].
    apply lookup_lt_Some in Hv. lia.
  - intros ta tl' va. rewrite Egat. intros Hta [[-> ->]|[_ Ht]]%Htiles; simpl.
    + intros [Hin| ->%list_elem_of_singleton]%elem_of_app.
      * destruct (Hocc a tl va Hta Htl Hin) as (v & Hv & ?). eauto.
      * eexists. split; [exact Hnew|]. done.
    + intros Hin. destruct (Hocc ta tl' va Hta Ht Hin) as (v & Hv & ?). eauto.
  - intros va v ta. rewrite Egat, Evs.
    intros [Hv|[Hge Hv]]%lookup_app_Some; [eauto|].
    apply list_lookup_singleton_Some in Hv as [_ <-]. simpl.
    by intros _ [= <-].
  - intros va v. rewrite Evs.
    intros [Hv|[Hge Hv]]%lookup_app_Some; [eauto|].
    apply list_lookup_singleton_Some in Hv as [_ <-]. simpl.
    destruct (wf_tile_shape g Hwf a tl Htl) as [_ ->].
    destruct (Tile.type tl); simpl; lia.
  - intros j q va. rewrite Eps.
    intros [(-> & <- & _)|[_ Hq]]%list_lookup_insert_Some; simpl.
    + intros [Hin| ->%list_elem_of_singleton]%elem_of_app.
      * destruct (Hown j p va Hp Hin) as (v & Hv & ?). eauto.
      * eexists. split; [exact Hnew|]. done.
    + intros Hin. destruct (Hown j q va Hq Hin) as (v & Hv & ?). eauto.
Qed.

Lemma linked_apply_move g p loc va v k g' loc' :
  wf g -> linked g -> legal_move g p loc va v k ->
  apply_move g va k loc = Ret (g', loc') -> linked g'.
Proof.
  intros Hwf [Hshape Hslot Hvol Hvalid Hnd Hocc Hon Hrange Hown].
  intros ([_ Hv]%elem_of_villagers_of & Hmov & _ & Hk).
  intros (v0 & Hv0 & Evs & Eps & Eb & _ & _ & _ & _ & _ & Hrest)
    %apply_move_spec.
  assert (v0 = v) as -> by congruence. clear Hv0.
  destruct (moved_fields k v) as (_ & Mtile & _ & Mdist & Mstate).
  pose proof (get_all_tiles_board g g' Eb) as Egat.
  assert (forall va' v', vstore g' !! va' = Some v' ->
            (va' = va /\ v' = moved k v) \/
            (va' <> va /\ vstore g !! va' = Some v')) as Hstore.
  { intros va' v'. rewrite Evs.
    intros [(-> & <- & _)|[? ?]]%list_lookup_insert_Some; auto. }
  assert (forall ta tl', tiles g' !! ta = Some tl' ->
            exists tl, tiles g !! ta = Some tl /\
                       Tile.type tl' = Tile.type tl /\
                       (forall y, y ∈ Tile.villagers tl' ->
                                  y ∈ Tile.villagers tl) /\
                       NoDup (Tile.villagers tl') /\
                       (Villager.state (moved k v) = safe ->
                        Villager.tile v = Some ta ->
                        va ∉ Tile.villagers tl')) as Htiles.
  { intros ta tl' Ht. rewrite Mstate.
    destruct (Villager.distance_remaining v - k <=? 0);
      [destruct Hrest as [_ Hrest] | destruct Hrest as [Hrest _]].
    - destruct (Villager.tile v) as [ta0|].
      + destruct Hrest as (tl & l & Htl & Hl & Ets). rewrite Ets in Ht.
        apply list_lookup_insert_Some in Ht as [(-> & <- & _)|[Hne Ht]].
        * exists tl. simpl.
          destruct (py_remove_NoDup _ _ _ (Hnd _ _ Htl) Hl) as [Hnd' Hnot].
          split; [done|]. split; [done|].
          split; [intros y; by eapply py_remove_subset|]. done.
        * exists tl'. repeat (split; [by eauto|]). intros _ [= ->]. done.
      + rewrite Hrest in Ht. exists tl'. repeat (split; [by eauto|]). done.
    - rewrite Hrest in Ht. exists tl'. repeat (split; [by eauto|]).
      intros Hs. apply movable_cases in Hmov as [E|E]; congruence. }
  split.
  - intros r c Hr Hc. rewrite (board_at_board g g') by done. eauto.
  - intros r c a'. rewrite (board_at_board g g') by done. eauto.
  - intros ta tl' (tl & Htl & -> & _)%Htiles. eauto.
  - intros ta tl' va' (tl & Htl & _ & Hsub & _)%Htiles Hin.
    apply lookup_lt_is_Some. rewrite Evs, length_insert.
    apply lookup_lt_is_Some. eauto.
  - intros ta tl' (tl & Htl & _ & _ & Hnd' & _)%Htiles. done.
  - intros ta tl' va'. rewrite Egat.
    intros Hta (tl & Htl & _ & Hsub & _ & Hgone)%Htiles Hin.
    destruct (Hocc ta tl va' Hta Htl (Hsub _ Hin)) as (v' & Hv' & Hl & Ht).
    destruct (decide (va' = va)) as [->|Hne].
    + assert (v' = v) as -> by congruence.
      exists (moved k v). split.
      { rewrite Evs. apply list_lookup_insert_eq. by eapply lookup_lt_Some. }
      rewrite Mtile. split; [|done]. rewrite Mstate.
      destruct (Villager.distance_remaining v - k <=? 0) eqn:Hd; [|done].
      exfalso. by apply Hgone.
    + exists v'. split; [|done]. rewrite Evs.
      by rewrite list_lookup_insert_ne.
  - intros va' v' ta. rewrite Egat.
    intros [[-> ->]|[Hne Hv']]%Hstore; [|eauto].
    rewrite Mstate, Mtile.
    destruct (Villager.distance_remaining v - k <=? 0); [done|]. eauto.
  - intros va' v' [[-> ->]|[Hne Hv']]%Hstore; [|eauto].
    rewrite Mdist. specialize (Hrange va v Hv).
    unfold max_move_of in Hk.
    destruct (decide (Villager.state v = land)) as [Hland|Hland]; [lia|].
    apply movable_cases in Hmov as [?|Hw]; [done|].
    assert (~ Villager.distance_remaining v <= 0).
    { intros Hle. apply (wf_dist g Hwf va v Hv) in Hle. congruence. }
    lia.
  - intros j q va'. rewrite Eps. intros Hq Hin.
    destruct (Hown j q va' Hq Hin) as (v' & Hv' & Ho).
    destruct (decide (va' = va)) as [->|Hne].
    + assert (v' = v) as -> by congruence. exists (moved k v). split.
      { rewrite Evs. apply list_lookup_insert_eq. by eapply lookup_lt_Some. }
      by rewrite moved_owner.
    + exists v'. split; [|done]. rewrite Evs.
      by rewrite list_lookup_insert_ne.
Qed.

Lemma linked_sink g w g' o w' :
  wf g -> linked g -> sink_tile_at g w = Ret (g', o, w') -> linked g'.
Proof.
  intros Hwf Hlk Hs. apply sink_tile_at_spec in Hs.
  destruct o as [[[r c] a]|]; [|by destruct Hs as (_ & -> & _)].
  destruct Hs as (a0 & t0 & ty & row & tl & _ & _ & _ & Hr & Hc & Htl & _ & ->).
  destruct Hlk as [Hshape Hslot Hvol Hvalid Hnd Hocc Hon Hrange Hown].
  assert (board_at g r c = Ret (Some a)) as Hat.
  { unfold board_at. rewrite Hr. simpl. by rewrite Hc. }
  assert (a ∈ get_all_tiles g) as Ha by by eapply board_at_Some.
  set (g' := set_board (clear_slot r c (board g))
               (set_vstore (drown (Tile.villagers tl) (vstore g)) g)).
  assert (forall r' c' s, board_at g' r' c' = Ret (Some s) ->
            board_at g r' c' = Ret (Some s) /\ s <> a) as Hslots.
  { intros r' c' s. unfold board_at. simpl. rewrite clear_slot_lookup.
    case_decide as Hd; [done|]. intros H. split; [done|]. intros ->.
    destruct (Hslot r' c' a H) as (E1 & _), (Hslot r c a Hat) as (E2 & _ & ?).
    destruct (Hslot r' c' a H) as (_ & _ & ?).
    apply Hd. assert (r' = r /\ c' = c) as [-> ->] by lia.
    repeat split. rewrite Hr. simpl. rewrite Hc. by eexists. }
  assert (forall ta, ta ∈ get_all_tiles g' -> ta ∈ get_all_tiles g /\ ta <> a)
    as Hleft.
  { intros ta (r' & row' & c' & Hr' & Hc')%elem_of_get_all_tiles.
    assert (board_at g' r' c' = Ret (Some ta)) as H.
    { unfold board_at. rewrite Hr'. simpl. by rewrite Hc'. }
    apply Hslots in H as [H ?]. split; [|done]. by eapply board_at_Some. }
  assert (forall ta, ta ∈ get_all_tiles g -> ta <> a ->
                     ta ∈ get_all_tiles g') as Hstay.
  { intros ta (r' & row' & c' & Hr' & Hc')%elem_of_get_all_tiles Hne.
    apply (board_at_Some g' r' c'). unfold board_at. simpl.
    rewrite clear_slot_lookup. rewrite decide_False.
    - rewrite Hr'. simpl. by rewrite Hc'.
    - intros (-> & -> & _). congruence. }
  assert (forall va v', vstore g' !! va = Some v' ->
            exists v, vstore g !! va = Some v /\
                      ((v' = v /\ ~ (va ∈ Tile.villagers tl /\
                                     Villager.state v = land)) \/
                       (va ∈ Tile.villagers tl /\
                        Villager.state v = land /\ v' = wet v)))
    as Hstore.
  { intros va v'. simpl. rewrite drown_lookup.
    destruct (vstore g !! va) as [v|]; [|done].
    case_decide as Hd; intros [= <-]; exists v; split; auto.
    right. by destruct Hd. }
  split.
  - intros r' c' Hr' Hc'. destruct (Hshape r' c' Hr' Hc') as [s Hs].
    unfold board_at in *. simpl. rewrite clear_slot_lookup.
    case_decide; [by eexists|]. eauto.
  - intros r' c' s [H _]%Hslots. eauto.
  - done.
  - intros ta tl' va Ht Hin. apply lookup_lt_is_Some. simpl.
    rewrite drown_length. apply lookup_lt_is_Some. eauto.
  - done.
  - intros ta tl' va [Hta Hne]%Hleft Ht Hin.
    destruct (Hocc ta tl' va Hta Ht Hin) as (v & Hv & Hl & Hti).
    exists v. split; [|done]. simpl. rewrite drown_lookup, Hv.
    rewrite decide_False; [done|]. intros [Hin' _].
    destruct (Hocc a tl va Ha Htl Hin') as (v1 & Hv1 & _ & Hti1).
    congruence.
  - intros va v' ta (v & Hv & [[-> Hno]|(_ & _ & ->)])%Hstore Hl Hti;
      [|done].
    apply Hstay; [eauto|]. intros ->.
    destruct (wf_land g Hwf va v Hv Hl) as (ta' & t' & Hti' & Ht' & Hin).
    apply Hno. split; [|done]. congruence.
  - intros va v' (v & Hv & [[-> _]|(_ & _ & ->)])%Hstore; simpl; eauto.
  - intros j q va Hq Hin. destruct (Hown j q va Hq Hin) as (v & Hv & Ho).
    simpl. rewrite drown_lookup, Hv. eexists. split; [done|].
    by case_decide.
Qed.

Lemma linked_kill g va :
  linked g -> va ∈ all_water g -> linked (kill va g).
Proof.
  intros [Hshape Hslot Hvol Hvalid Hnd Hocc Hon Hrange Hown].
  intros [_ (v & Hv & Hw)]%elem_of_all_water.
  assert (forall a v', vstore (kill va g) !! a = Some v' ->
            (a <> va /\ vstore g !! a = Some v') \/
            (a = va /\ v' = Villager.set_state dead v)) as Hstore.
  { intros a v'. rewrite kill_lookup. case_decide as E; [|auto].
    subst a. rewrite Hv. simpl. intros [= <-]. auto. }
  split; try done.
  - intros ta tl va' Ht Hin. apply lookup_lt_is_Some. unfold kill. simpl.
    rewrite length_alter. apply lookup_lt_is_Some. eauto.
  - intros ta tl va' Hta Ht Hin.
    destruct (Hocc ta tl va' Hta Ht Hin) as (v' & Hv' & Hl & Hti).
    exists v'. split; [|done]. rewrite kill_lookup.
    rewrite decide_False; [done|]. intros ->. congruence.
  - intros a v' ta [[_ Hv']|[-> ->]]%Hstore; [eauto | done].
  - intros a v' [[_ Hv']|[-> ->]]%Hstore; simpl; eauto.
  - intros j q va' Hq Hin. destruct (Hown j q va' Hq Hin) as (v' & Hv' & Ho).
    rewrite kill_lookup. case_decide; [|eauto]. subst.
    rewrite Hv'. simpl. eauto.
Qed.

Lemma linked_compute_scores g : linked g -> linked (compute_scores g).
Proof.
  intros [Hshape Hslot Hvol Hvalid Hnd Hocc Hon Hrange Hown].
  split; try done.
  intros j q' va (q & Hq & ->)%compute_scores_lookup. simpl. eauto.
Qed.

(** Every step keeps the links. *)
Lemma linked_step g g' : wf g -> linked g -> step g g' -> linked g'.
Proof.
  intros Hwf Hlk Hstep. destruct Hstep.
  - match goal with H : choose_tile _ _ _ _ = _ |- _ =>
      apply choose_tile_spec in H as [? ?] end.
    by eapply linked_place.
  - match goal with H : human_iter _ _ _ _ = _ |- _ =>
      apply human_iter_spec in H
        as (_ & _ & [[-> ->]|(va & v & k & Hlegal & Hmove)]) end; [done|].
    by eapply linked_apply_move.
  - match goal with H : comp_iter _ _ _ = _ |- _ =>
      apply comp_iter_spec in H
        as (va & v & k & _ & _ & Hlegal & Hmove) end.
    by eapply linked_apply_move.
  - match goal with H : sink_tile _ _ = _ |- _ =>
      apply sink_tile_inv in H as [o H] end.
    by eapply linked_sink.
  - match goal with H : creature_phase _ _ = _ |- _ =>
      apply creature_phase_inv in H as (roll & victim & H) end.
    destruct (creature_phase_at_spec g w) as (g1 & v1 & w1 & E & _ & Hspec).
    match goal with H : creature_phase_at _ _ = _ |- _ =>
      rewrite E in H; injection H as <- _ <- <- end.
    destruct v1 as [va|]; [|by destruct Hspec as [_ ->]].
    destruct Hspec as (_ & Hin & -> & _). by apply linked_kill.
  - by destruct Hlk.
  - by destruct Hlk.
  - by apply linked_compute_scores.
Qed.

Lemma reachable_linked g : reachable g -> linked g.
Proof.
  intros (g0 & Hfresh & Hrtc).
  assert (wf g0 /\ linked g0) as H0 by eauto using fresh_wf, fresh_linked.
  clear Hfresh. induction Hrtc as [|g1 g2 g3 Hstep _ IH]; [by destruct H0|].
  destruct H0 as [Hwf Hlk]. apply IH.
  split; [by eapply wf_step | by eapply linked_step].
Qed.

(** ** The board that [Game()] builds *)

(** X1.  [Game.__init__]: whatever the outcome of the shuffle, the board is
    the full 3x5 grid over 15 tiles; the tile types are the seven beaches,
    four forests and three mountains of the pool plus one volcano; the
    volcano, and no other tile, sits in the centre slot (row 1, column 2);
    tile number [a] of the store has id [a + 1], no villagers and capacity
    3; there are no villagers, no round has been played and the villager
    counter is 1. *)
Theorem Game_init_layout g :
  fresh g ->
  board g = full_board /\
  length (tiles g) = 15%nat /\
  map Tile.type (tiles g) ≡ₚ volcano :: remaining_types /\
  board_at g 1 2 = Ret (Some 7%nat) /\
  (forall a t, tiles g !! a = Some t ->
     t = Tile.init (Z.of_nat a + 1) (Tile.type t) /\
     (Tile.type t = volcano <-> a = 7%nat)) /\
  vstore g = [] /\ total_turns g = 0 /\ villager_counter g = 1.
Proof.
  intros Hfresh. destruct (fresh_types g Hfresh) as [Hperm Hvol].
  destruct (fresh_spec g Hfresh)
    as (_ & Hb & Hlen & Hinit & _ & Hvs & Htt & Hvc & _).
  split; [done|]. split; [done|]. split; [done|].
  split; [unfold board_at; by rewrite Hb|].
  split; [|done]. intros a t Ht. split; [by apply Hinit | by apply Hvol].
Qed.

Lemma Game_init_layout_witness :
  board game0 = full_board /\
  map Tile.type (tiles game0) ≡ₚ volcano :: remaining_types /\
  board_at game0 1 2 = Ret (Some 7%nat).
Proof.
  destruct (Game_init_layout game0) as (Hb & _ & Hperm & Hc & _).
  - exists remaining_types. split; [done | by vm_compute].
  - done.
Defined.

(** ** The life of a villager *)

Lemma moved_forward k v :
  Villager.movable v = true ->
  forward (Villager.state v) (Villager.state (moved k v)).
Proof.
  intros Hm. destruct (moved_fields k v) as (_ & _ & _ & _ & ->).
  apply movable_cases in Hm as [E|E]; rewrite E;
    destruct (_ <=? 0); simpl; auto.
Qed.

Lemma forward_refl s : forward s s.
Proof. destruct s; simpl; auto. Qed.

Lemma step_villager g g' va v :
  step g g' -> vstore g !! va = Some v ->
  exists v',
    vstore g' !! va = Some v' /\
    Villager.id v' = Villager.id v /\
    Villager.owner v' = Villager.owner v /\
    Villager.treasure v' = Villager.treasure v /\
    Villager.distance_remaining v' <= Villager.distance_remaining v /\
    forward (Villager.state v) (Villager.state v') /\
    (Villager.state v = safe \/ Villager.state v = dead -> v' = v).
Proof.
  intros Hstep Hv.
  assert (exists v', vstore g !! va = Some v' /\
            Villager.id v' = Villager.id v /\
            Villager.owner v' = Villager.owner v /\
            Villager.treasure v' = Villager.treasure v /\
            Villager.distance_remaining v' <= Villager.distance_remaining v /\
            forward (Villager.state v) (Villager.state v') /\
            (Villager.state v = safe \/ Villager.state v = dead -> v' = v))
    as Hsame.
  { exists v. do 4 (split; [done|]). split; [lia|].
    split; [apply forward_refl | done]. }
  assert (forall p loc va0 v0 k g1 loc1,
            legal_move g p loc va0 v0 k ->
            apply_move g va0 k loc = Ret (g1, loc1) ->
            exists v', vstore g1 !! va = Some v' /\
              Villager.id v' = Villager.id v /\
              Villager.owner v' = Villager.owner v /\
              Villager.treasure v' = Villager.treasure v /\
              Villager.distance_remaining v' <=
                Villager.distance_remaining v /\
              forward (Villager.state v) (Villager.state v') /\
              (Villager.state v = safe \/ Villager.state v = dead -> v' = v))
    as Hmove.
  { intros p loc va0 v0 k g1 loc1
      ([_ Hv0]%elem_of_villagers_of & Hmov & _ & Hk)
      (v1 & Hv1 & -> & _)%apply_move_spec.
    destruct (decide (va0 = va)) as [->|Hne].
    - assert (v0 = v) as -> by congruence.
      assert (v1 = v) as -> by congruence. exists (moved k v).
      split; [apply list_lookup_insert_eq; by eapply lookup_lt_Some|].
      destruct (moved_fields k v) as (Mid & _ & Mtr & Mdist & _).
      split; [done|]. split; [apply moved_owner|]. split; [done|].
      split; [lia|]. split; [by apply moved_forward|].
      unfold Villager.movable in Hmov. intros [E|E]; by rewrite E in Hmov.
    - destruct Hsame as (v' & Hv' & Hrest). exists v'. split; [|done].
      by rewrite list_lookup_insert_ne. }
  destruct Hstep.
  - match goal with H : place _ _ _ _ = _ |- _ =>
      apply place_spec in H
        as (p & tl & _ & _ & _ & _ & _ & -> & _) end.
    destruct Hsame as (v' & Hv' & Hrest). exists v'. split; [|done].
    by apply lookup_app_l_Some.
  - match goal with H : human_iter _ _ _ _ = _ |- _ =>
      apply human_iter_spec in H
        as (_ & _ & [[-> ->]|(va0 & v0 & k & Hl & Hm)]) end; eauto.
  - match goal with H : comp_iter _ _ _ = _ |- _ =>
      apply comp_iter_spec in H
        as (va0 & v0 & k & _ & _ & Hl & Hm) end; eauto.
  - match goal with H : sink_tile _ _ = _ |- _ =>
      apply sink_tile_inv in H as [o H]; apply sink_tile_at_spec in H end.
    destruct o as [[[r0 c0] a]|].
    + match goal with H : exists _, _ |- _ =>
        destruct H as (a0 & t0 & ty & row & tl & _ & _ & _ & _ & _ & _ & _ & ->)
      end.
      simpl. rewrite drown_lookup, Hv.
      destruct (decide (va ∈ Tile.villagers tl /\ Villager.state v = land))
        as [[_ Hland]|_]; [|by rewrite <- Hv].
      exists (wet v). split; [done|]. simpl. do 3 (split; [done|]).
      split; [lia|]. rewrite Hland. simpl. split; [auto|].
      intros [?|?]; done.
    + match goal with H : _ /\ _ |- _ => destruct H as (_ & -> & _) end.
      done.
  - match goal with H : creature_phase _ _ = _ |- _ =>
      apply creature_phase_inv in H as (roll & victim & H) end.
    destruct (creature_phase_at_spec g w) as (g1 & v1 & w1 & E & _ & Hspec).
    match goal with H : creature_phase_at _ _ = _ |- _ =>
      rewrite E in H; injection H as <- _ <- <- end.
    destruct v1 as [vb|]; [|by destruct Hspec as [_ ->]].
    destruct Hspec as (_ & [_ (vw & Hvw & Hw)]%elem_of_all_water & -> & _).
    rewrite kill_lookup. case_decide as Eq; [|done]. subst vb.
    rewrite Hv. simpl. assert (vw = v) as -> by congruence.
    eexists. split; [done|]. simpl. do 3 (split; [done|]).
    split; [lia|]. rewrite Hw. simpl. split; [auto|]. intros [?|?]; done.
  - done.
  - done.
  - done.
Qed.

(** X2.  One step of the game (a placement, a move, a sunk tile, a creature
    phase, the book-keeping of [play]) keeps every villager that exists,
    with its id, owner and treasure; its remaining distance never grows;
    its state only moves forward (land to water or safe, water to safe or
    dead, never back); and a villager that is safe or dead is not touched
    at all. *)
Theorem villager_lifecycle g g' va v :
  step g g' -> vstore g !! va = Some v ->
  exists v',
    vstore g' !! va = Some v' /\
    Villager.id v' = Villager.id v /\
    Villager.owner v' = Villager.owner v /\
    Villager.treasure v' = Villager.treasure v /\
    Villager.distance_remaining v' <= Villager.distance_remaining v /\
    forward (Villager.state v) (Villager.state v') /\
    (Villager.state v = safe \/ Villager.state v = dead -> v' = v).
Proof. apply step_villager. Qed.

Lemma villager_lifecycle_witness :
  exists v v',
    vstore placed_game !! 14%nat = Some v /\
    vstore sunk_game !! 14%nat = Some v' /\
    Villager.treasure v' = Villager.treasure v /\
    forward (Villager.state v) (Villager.state v').
Proof.
  assert (exists v, vstore placed_game !! 14%nat = Some v) as [v Hv].
  { eexists. vm_compute. reflexivity. }
  destruct (villager_lifecycle placed_game sunk_game 14 v)
    as (v' & Hv' & _ & _ & Htr & _ & Hfw & _).
  - apply (step_sink placed_game quiet sunk_game quiet). by vm_compute.
  - done.
  - by exists v, v'.
Defined.

(** X3.  Over any run of the game a villager keeps its id, owner and
    treasure, its remaining distance never grows, a villager that is safe
    or dead keeps its whole record for good, and a villager that has left
    the land never stands on land again. *)
Theorem villager_history g g' va v :
  rtc step g g' -> vstore g !! va = Some v ->
  exists v',
    vstore g' !! va = Some v' /\
    Villager.id v' = Villager.id v /\
    Villager.owner v' = Villager.owner v /\
    Villager.treasure v' = Villager.treasure v /\
    Villager.distance_remaining v' <= Villager.distance_remaining v /\
    (Villager.state v = safe \/ Villager.state v = dead -> v' = v) /\
    (Villager.state v' = land -> Villager.state v = land).
Proof.
  intros Hrtc. revert v. induction Hrtc as [g|g g1 g2 Hstep _ IH]; intros v Hv.
  { exists v. do 4 (split; [done|]). split; [lia|]. done. }
  destruct (step_villager g g1 va v Hstep Hv)
    as (v1 & Hv1 & Eid & Eow & Etr & Hd & Hfw & Hfix).
  destruct (IH v1 Hv1) as (v2 & Hv2 & Eid2 & Eow2 & Etr2 & Hd2 & Hfix2 & Hl2).
  exists v2. split; [done|]. split; [congruence|]. split; [congruence|].
  split; [congruence|]. split; [lia|]. split.
  - intros Hs. rewrite <- (Hfix Hs). apply Hfix2. by rewrite (Hfix Hs).
  - intros Hl%Hl2. rewrite Hl in Hfw.
    destruct (Villager.state v); simpl in Hfw;
      [done | by destruct Hfw as [?|[?|?]] | done | done].
Qed.

Lemma villager_history_witness :
  exists v v',
    vstore placed_game !! 10%nat = Some v /\
    vstore moved_game !! 10%nat = Some v' /\
    Villager.treasure v' = Villager.treasure v /\
    Villager.distance_remaining v' <= Villager.distance_remaining v.
Proof.
  assert (exists v, vstore placed_game !! 10%nat = Some v) as [v Hv].
  { eexists. vm_compute. reflexivity. }
  destruct (villager_history placed_game moved_game 10 v)
    as (v' & Hv' & _ & _ & Htr & Hd & _).
  - apply (player_move_phase_steps 1 placed_game quiet moved_game quiet).
    by vm_compute.
  - done.
  - by exists v, v'.
Defined.

(** ** Ranges and links in a reachable game *)

Lemma elem_of_standing_on g a va :
  va ∈ standing_on g a <->
  exists v, vstore g !! va = Some v /\ Villager.state v = land /\
            Villager.tile v = Some a.
Proof.
  unfold standing_on, stands_on. rewrite list_elem_of_filter, elem_of_seq.
  split.
  - intros [H _]. destruct (vstore g !! va) as [v|]; [|done].
    apply bool_decide_eq_true in H. by exists v.
  - intros (v & Hv & H). rewrite Hv. split; [by apply bool_decide_eq_true|].
    apply lookup_lt_Some in Hv. lia.
Qed.

Lemma occupants_standing g ta tl :
  wf g -> linked g -> ta ∈ get_all_tiles g -> tiles g !! ta = Some tl ->
  Tile.villagers tl ≡ₚ standing_on g ta.
Proof.
  intros Hwf Hlk Hta Htl. apply NoDup_Permutation.
  - by eapply lk_occ_nodup.
  - unfold standing_on. apply NoDup_filter, NoDup_seq.
  - intros va. rewrite elem_of_standing_on. split.
    + by eapply lk_occupant.
    + intros (v & Hv & Hl & Ht).
      destruct (wf_land g Hwf va v Hv Hl) as (ta' & t' & Ht' & Htl' & Hin).
      congruence.
Qed.

(** X4.  In every reachable game the remaining distance of a villager lies
    between 0 and 3 (a move never overshoots), it is 0 exactly for the
    safe villagers, and every villager on land, in the water or dead
    still has between 1 and 3 moves to go. *)
Theorem reachable_distance_range g va v :
  reachable g -> vstore g !! va = Some v ->
  0 <= Villager.distance_remaining v <= 3 /\
  (Villager.state v = safe <-> Villager.distance_remaining v = 0) /\
  (Villager.state v <> safe -> 1 <= Villager.distance_remaining v).
Proof.
  intros Hr Hv. pose proof (reachable_wf g Hr) as Hwf.
  pose proof (lk_range g (reachable_linked g Hr) va v Hv) as Hrange.
  pose proof (wf_dist g Hwf va v Hv) as Hd.
  split; [done|]. split.
  - rewrite Hd. lia.
  - rewrite Hd. lia.
Qed.

Lemma reachable_distance_range_witness :
  exists v, vstore moved_game !! 10%nat = Some v /\
            Villager.state v = safe /\ Villager.distance_remaining v = 0.
Proof.
  assert (exists v, vstore moved_game !! 10%nat = Some v /\
                    Villager.state v = safe) as (v & Hv & Hs).
  { eexists. split; vm_compute; reflexivity. }
  exists v. split; [done|]. split; [done|].
  destruct (reachable_distance_range moved_game 10 v) as (_ & Hiff & _).
  - eapply reachable_rtc; [apply placed_game_reachable|].
    apply (player_move_phase_steps 1 placed_game quiet moved_game quiet).
    by vm_compute.
  - done.
  - by apply Hiff.
Defined.

(** X5.  In every reachable game the occupant list of a tile on the board
    has no duplicates and holds exactly the villagers that are on land
    with their tile reference on that tile; and every villager on land
    stands on a tile that is still on the board. *)
Theorem reachable_tile_links g :
  reachable g ->
  (forall ta tl, ta ∈ get_all_tiles g -> tiles g !! ta = Some tl ->
     NoDup (Tile.villagers tl) /\
     Tile.villagers tl ≡ₚ standing_on g ta /\
     forall va, va ∈ Tile.villagers tl <->
       exists v, vstore g !! va = Some v /\ Villager.state v = land /\
                 Villager.tile v = Some ta) /\
  (forall va v, vstore g !! va = Some v -> Villager.state v = land ->
     exists ta tl, Villager.tile v = Some ta /\ ta ∈ get_all_tiles g /\
                   tiles g !! ta = Some tl /\ va ∈ Tile.villagers tl).
Proof.
  intros Hr. pose proof (reachable_wf g Hr) as Hwf.
  pose proof (reachable_linked g Hr) as Hlk. split.
  - intros ta tl Hta Htl.
    pose proof (occupants_standing g ta tl Hwf Hlk Hta Htl) as Hperm.
    split; [by eapply lk_occ_nodup|]. split; [done|].
    intros va. by rewrite Hperm, elem_of_standing_on.
  - intros va v Hv Hl.
    destruct (wf_land g Hwf va v Hv Hl) as (ta & tl & Ht & Htl & Hin).
    exists ta, tl. split; [done|]. split; [|done]. by eapply lk_on_board.
Qed.

Lemma reachable_tile_links_witness :
  exists tl, tiles sunk_game !! 3%nat = Some tl /\
             Tile.villagers tl ≡ₚ standing_on sunk_game 3.
Proof.
  assert (exists tl, tiles sunk_game !! 3%nat = Some tl) as [tl Htl].
  { eexists. vm_compute. reflexivity. }
  exists tl. split; [done|].
  destruct (reachable_tile_links sunk_game sunk_game_reachable) as [H _].
  destruct (H 3%nat tl) as (_ & Hperm & _);
    [apply (bool_decide_unpack _); by vm_compute | done | done].
Defined.

(** ** Looking a tile up and printing where it is *)

Lemma find_tile_by_id_slot g r c a tl :
  wf g -> linked g ->
  board_at g r c = Ret (Some a) -> tiles g !! a = Some tl ->
  find_tile_by_id g (Tile.id tl) = Some (r, c, a).
Proof.
  intros Hwf Hlk Hat Htl.
  pose proof (board_at_Some g r c a Hat) as Ha.
  destruct (find_tile_by_id_total g a tl Ha Htl) as [[[r' c'] a'] Hf].
  rewrite Hf.
  destruct (find_tile_by_id_spec g _ r' c' a' Hf)
    as (row & t' & Hr & Hc & Ht' & Hid).
  assert (board_at g r' c' = Ret (Some a')) as Hat'.
  { unfold board_at. rewrite Hr. simpl. by rewrite Hc. }
  rewrite (wf_tile_id g Hwf a tl Htl), (wf_tile_id g Hwf a' t' Ht') in Hid.
  assert (a' = a) as -> by lia.
  destruct (lk_slot g Hlk r c a Hat) as (E & _ & ?).
  destruct (lk_slot g Hlk r' c' a Hat') as (E' & _ & ?).
  assert (r' = r /\ c' = c) as [-> ->] by lia. done.
Qed.

(** X6.  In every reachable game [find_tile_by_id] returns row [r], column
    [c] and tile [a] exactly when slot [r], [c] of the board holds tile
    [a] and the id asked for is the id [a + 1] of that tile; so it answers
    with the triple of Nones exactly when no tile on the board has the
    id. *)
Theorem find_tile_by_id_round_trip g tid :
  reachable g ->
  (forall r c a,
     find_tile_by_id g tid = Some (r, c, a) <->
     board_at g r c = Ret (Some a) /\ tid = Z.of_nat a + 1) /\
  (find_tile_by_id g tid = None <->
   forall a tl, a ∈ get_all_tiles g -> tiles g !! a = Some tl ->
                Tile.id tl <> tid).
Proof.
  intros Hr. pose proof (reachable_wf g Hr) as Hwf.
  pose proof (reachable_linked g Hr) as Hlk.
  assert (forall r c a, find_tile_by_id g tid = Some (r, c, a) ->
            board_at g r c = Ret (Some a) /\ tid = Z.of_nat a + 1) as Hfwd.
  { intros r c a (row & t & Hrow & Hc & Ht & Hid)%find_tile_by_id_spec.
    split.
    - unfold board_at. rewrite Hrow. simpl. by rewrite Hc.
    - by rewrite <- Hid, (wf_tile_id g Hwf a t Ht). }
  split.
  - intros r c a. split; [apply Hfwd|]. intros [Hat ->].
    destruct (wf_board g Hwf a (board_at_Some g r c a Hat)) as [tl Htl].
    rewrite <- (wf_tile_id g Hwf a tl Htl).
    by apply find_tile_by_id_slot.
  - split.
    + intros Hnone a tl (r & row & c & Hrow & Hc)%elem_of_get_all_tiles
        Htl <-.
      rewrite (find_tile_by_id_slot g r c a tl) in Hnone; [done..| |done].
      unfold board_at. rewrite Hrow. simpl. by rewrite Hc.
    + intros Hno. destruct (find_tile_by_id g tid) as [[[r c] a]|] eqn:Hf;
        [|done].
      destruct (find_tile_by_id_spec g _ r c a Hf)
        as (row & t & Hrow & Hc & Ht & Hid).
      destruct (Hno a t); [|done..].
      apply elem_of_get_all_tiles. by exists r, row, c.
Qed.

Lemma find_tile_by_id_round_trip_witness :
  find_tile_by_id sunk_game 4 = Some (0, 3, 3)%nat /\
  find_tile_by_id sunk_game 9 = None.
Proof.
  destruct (find_tile_by_id_round_trip sunk_game 4 sunk_game_reachable)
    as [H _].
  split; [|by vm_compute]. apply H. by vm_compute.
Defined.

Lemma coord_label_index r c a :
  (r < 3)%nat -> (c < 5)%nat ->
  exists l, coord_label (Some (r, c, a)) = inr l /\
            _coord_to_index l = Some (r, c).
Proof.
  intros Hr Hc. unfold coord_label.
  destruct (COL_LETTERS !! c) as [s|] eqn:Hs.
  - eexists. split; [done|]. unfold _coord_to_index.
    destruct (Z.ltb_spec (Z.of_nat r + 1 - 1) 0); [lia|].
    destruct (Z.leb_spec 3 (Z.of_nat r + 1 - 1)); [lia|].
    destruct (Z.leb_spec 5 (Z.of_nat c)); [lia|]. simpl.
    do 2 f_equal. lia.
  - apply lookup_ge_None in Hs. simpl in Hs. lia.
Qed.

Lemma print_each_total {A B} (f : A -> print_exn + B)
    (Q : A -> B -> Prop) (l : list A) :
  (forall x, x ∈ l -> exists y, f x = inr y /\ Q x y) ->
  exists ys, print_each f l = inr ys /\ Forall2 Q l ys.
Proof.
  induction l as [|x l IH]; intros Hall; simpl.
  - by exists [].
  - destruct (Hall x) as (y & Hy & Hq); [left|]. rewrite Hy.
    destruct IH as (ys & -> & Hf).
    { intros z Hz. apply Hall. by right. }
    exists (y :: ys). split; [done|]. by constructor.
Qed.

(** The coordinate printed for the tile behind [a] leads back to its
    slot. *)
Lemma label_of_tile g a tl :
  wf g -> linked g -> a ∈ get_all_tiles g -> tiles g !! a = Some tl ->
  exists l r c,
    coord_label (find_tile_by_id g (Tile.id tl)) = inr l /\
    _coord_to_index l = Some (r, c) /\
    board_at g r c = Ret (Some a).
Proof.
  intros Hwf Hlk (r & row & c & Hrow & Hc)%elem_of_get_all_tiles Htl.
  assert (board_at g r c = Ret (Some a)) as Hat.
  { unfold board_at. rewrite Hrow. simpl. by rewrite Hc. }
  rewrite (find_tile_by_id_slot g r c a tl) by done.
  destruct (lk_slot g Hlk r c a Hat) as (_ & ? & ?).
  destruct (coord_label_index r c a) as (l & Hl & Hi); [done..|].
  by exists l, r, c.
Qed.

(** X7.  In every reachable game [print_human_villagers] raises nothing:
    the lookup of a villager's tile never fails.  It prints one line for
    each of the player's villagers on land or in the water, in order, with
    the villager's id and its moves needed (1 to 3); the line reads
    "in water" exactly for a villager in the water, and for a villager on
    land it shows the coordinate of the slot that holds the villager's
    tile. *)
Theorem print_human_villagers_ok g i p :
  reachable g -> players g !! i = Some p ->
  exists lines,
    print_human_villagers g p = inr lines /\
    Forall2 (fun (x : nat * Villager.t) (line : Z * option Line * Z) =>
      line.1.1 = Villager.id x.2 /\
      line.2 = Villager.distance_remaining x.2 /\ 1 <= line.2 <= 3 /\
      match line.1.2 with
      | None => Villager.state x.2 = water
      | Some l =>
          Villager.state x.2 = land /\
          exists r c a, _coord_to_index l = Some (r, c) /\
                        board_at g r c = Ret (Some a) /\
                        Villager.tile x.2 = Some a
      end)
      (filter (fun x => is_movable x = true) (villagers_of g p)) lines.
Proof.
  intros Hr _. pose proof (reachable_wf g Hr) as Hwf.
  pose proof (reachable_linked g Hr) as Hlk.
  unfold print_human_villagers.
  set (l := filter _ _).
  assert (forall x, x ∈ l ->
            exists line, villager_line g x = inr line /\
              line.1.1 = Villager.id x.2 /\
              line.2 = Villager.distance_remaining x.2 /\ 1 <= line.2 <= 3 /\
              match line.1.2 with
              | None => Villager.state x.2 = water
              | Some l =>
                  Villager.state x.2 = land /\
                  exists r c a, _coord_to_index l = Some (r, c) /\
                                board_at g r c = Ret (Some a) /\
                                Villager.tile x.2 = Some a
              end) as Hline.
  { intros [va v] [Hmov [_ Hv]%elem_of_villagers_of]%list_elem_of_filter.
    unfold is_movable in Hmov. simpl in *.
    pose proof (lk_range g Hlk va v Hv) as Hrange.
    assert (1 <= Villager.distance_remaining v <= 3) as Hd.
    { split; [|lia].
      destruct (Z.le_gt_cases (Villager.distance_remaining v) 0) as [Hle|];
        [|lia].
      apply (wf_dist g Hwf va v Hv) in Hle.
      apply movable_cases in Hmov as [?|?]; congruence. }
    unfold villager_line. simpl.
    apply movable_cases in Hmov as [Hl|Hw].
    - destruct (wf_land g Hwf va v Hv Hl) as (ta & tl & Ht & Htl & Hin).
      rewrite Hl, Ht, Htl.
      destruct (label_of_tile g ta tl) as (lb & r & c & -> & Hi & Hat);
        [done..|by eapply lk_on_board|done|].
      eexists. split; [done|]. simpl. do 3 (split; [done|]).
      split; [done|]. by exists r, c, ta.
    - rewrite Hw. eexists. split; [done|]. simpl. by do 3 (split; [done|]). }
  exact (print_each_total (villager_line g) _ l Hline).
Qed.

Lemma print_human_villagers_ok_witness :
  exists lines, print_human_villagers sunk_game
                  (Player.mk "Human" true (seq 0 10) 0) = inr lines.
Proof.
  destruct (print_human_villagers_ok sunk_game 0
              (Player.mk "Human" true (seq 0 10) 0) sunk_game_reachable)
    as (lines & H & _); [by vm_compute|]. by exists lines.
Defined.

(** ** Placing by hand *)

Lemma has_room_Some g a :
  has_room g a = true -> is_Some (tiles g !! a).
Proof. unfold has_room. by destruct (tiles g !! a). Qed.

Lemma choose_tile_typed g a l r c w rest :
  _coord_to_index l = Some (r, c) -> board_at g r c = Ret (Some a) ->
  has_room g a = true -> input w = l :: rest ->
  choose_tile g true (valid_tiles g) w = Ret (a, mkWorld (rand w) rest).
Proof.
  intros Hi Hat Hroom Hin. unfold choose_tile, read_line. rewrite Hin.
  cbn [mbind res_bind]. unfold coordinate_to_index_reprompt.
  cbn [reprompt_loop]. rewrite Hi, Hat. cbn [mbind res_bind].
  rewrite Hroom. cbn [mbind res_bind]. by rewrite Hat.
Qed.

(** X8.  In every reachable game the list "Available Tiles" of [setup] is
    printed without an exception: it has one line per tile with room, in
    order, with that tile's type and id; and typing the coordinate of a
    line makes the placement choose exactly the tile of that line, after
    reading that one line and drawing nothing. *)
Theorem listed_coordinate_places_there g :
  reachable g ->
  exists lines,
    print_available_tiles g = inr lines /\
    Forall2 (fun (a : nat) (line : Line * tile_type * Z) =>
      exists tl, tiles g !! a = Some tl /\
                 line.1.2 = Tile.type tl /\ line.2 = Tile.id tl /\
                 forall w rest, input w = line.1.1 :: rest ->
                   choose_tile g true (valid_tiles g) w
                   = Ret (a, mkWorld (rand w) rest))
      (valid_tiles g) lines.
Proof.
  intros Hr. pose proof (reachable_wf g Hr) as Hwf.
  pose proof (reachable_linked g Hr) as Hlk.
  apply print_each_total.
  intros a [Hroom Ha]%elem_of_valid_tiles.
  destruct (has_room_Some g a Hroom) as [tl Htl].
  destruct (label_of_tile g a tl Hwf Hlk Ha Htl)
    as (l & r & c & Hl & Hi & Hat).
  unfold available_line. rewrite Htl, Hl. eexists. split; [done|].
  exists tl. simpl. do 3 (split; [done|]).
  intros w rest Hin. by eapply choose_tile_typed.
Qed.

Lemma listed_coordinate_places_there_witness :
  exists lines, print_available_tiles placed_game = inr lines /\
                length lines = length (valid_tiles placed_game).
Proof.
  destruct (listed_coordinate_places_there placed_game placed_game_reachable)
    as (lines & H & Hf).
  exists lines. split; [done|]. symmetry. by eapply Forall2_length.
Defined.

Lemma accepts_Some g l rr cc :
  accepts g l = Some (rr, cc) ->
  _coord_to_index l = Some (rr, cc) /\
  exists a, board_at g rr cc = Ret (Some a) /\ has_room g a = true.
Proof.
  unfold accepts. destruct (_coord_to_index l) as [[r c]|]; [|done].
  destruct (board_at g r c) as [[a|]| |] eqn:Hat; try done.
  destruct (has_room g a) eqn:Hroom; [|done].
  intros [= <- <-]. eauto.
Qed.

Lemma coord_to_index_range l rr cc :
  _coord_to_index l = Some (rr, cc) -> (rr < 3)%nat /\ (cc < 5)%nat.
Proof.
  unfold _coord_to_index. destruct l as [| |n|col row|]; try done.
  destruct (Z.ltb_spec (row - 1) 0); [done|].
  destruct (Z.leb_spec 3 (row - 1)); [done|].
  destruct (Z.leb_spec 5 (Z.of_nat col)); [done|]. simpl.
  intros [= <- <-]. lia.
Qed.

(** One pass of the loop in a game whose board has its 3x5 shape. *)
Lemma reprompt_loop_pass g n l w :
  linked g ->
  reprompt_loop g (S n) l w =
  match accepts g l with
  | Some rc => Ret (Some rc, w)
  | None =>
      match n with
      | O => Ret (None, w)
      | S _ => '(l', w') ← read_line w; reprompt_loop g n l' w'
      end
  end.
Proof.
  intros Hlk. cbn [reprompt_loop]. unfold accepts.
  destruct (_coord_to_index l) as [[rr cc]|] eqn:Hi; [|done].
  destruct (coord_to_index_range l rr cc Hi) as [Hr Hc].
  destruct (lk_shape g Hlk rr cc Hr Hc) as [slot ->]. cbn [mbind res_bind].
  destruct slot as [a|]; [|done]. by destruct (has_room g a).
Qed.

Lemma reprompt_cases g coord_input w :
  linked g ->
  (forall rc, accepts g coord_input = Some rc ->
     coordinate_to_index_reprompt g coord_input w = Ret (Some rc, w)) /\
  match coordinate_to_index_reprompt g coord_input w with
  | Ret (r_c, w') =>
      rand w' = rand w /\
      exists read, input w = read ++ input w' /\ (length read <= 2)%nat /\
        match r_c with
        | Some (rr, cc) =>
            exists a, board_at g rr cc = Ret (Some a) /\ has_room g a = true
        | None =>
            length read = 2%nat /\
            forall l, l ∈ coord_input :: read -> accepts g l = None
        end
  | Raise e => e = EOFError /\ (length (input w) < 2)%nat
  | Timeout => False
  end.
Proof.
  intros Hlk.
  unfold coordinate_to_index_reprompt. split.
  { intros rc Hacc. by rewrite (reprompt_loop_pass g 2), Hacc. }
  rewrite (reprompt_loop_pass g 2) by done.
  destruct (accepts g coord_input) as [[rr cc]|] eqn:H0.
  { split; [done|]. exists []. split; [done|]. split; [simpl; lia|].
    by apply accepts_Some in H0 as [_ ?]. }
  unfold read_line.
  destruct (input w) as [|l1 rest1] eqn:Hin; cbn [mbind res_bind].
  { split; [done|]. simpl. lia. }
  rewrite (reprompt_loop_pass g 1 l1) by done.
  destruct (accepts g l1) as [[rr cc]|] eqn:H1.
  { split; [done|]. exists [l1]. split; [done|]. split; [simpl; lia|].
    by apply accepts_Some in H1 as [_ ?]. }
  unfold read_line. cbn [input rand].
  destruct rest1 as [|l2 rest2]; cbn [mbind res_bind].
  { split; [done|]. simpl. lia. }
  rewrite (reprompt_loop_pass g 0 l2) by done.
  destruct (accepts g l2) as [[rr cc]|] eqn:H2.
  { split; [done|]. exists [l1; l2]. split; [done|]. split; [simpl; lia|].
    by apply accepts_Some in H2 as [_ ?]. }
  split; [done|]. exists [l1; l2]. split; [done|]. split; [simpl; lia|].
  split; [done|]. intros l Hl.
  repeat (apply elem_of_cons in Hl as [->|Hl]; [done|]).
  by apply elem_of_nil in Hl.
Qed.

(** X9.  In every reachable game [coordinate_to_index_reprompt] never
    fails on the board: it raises only [EOFError], and only when the
    console has fewer than two more lines.  An acceptable first entry is
    returned at once with nothing read.  Whenever it returns it has read
    at most two more lines and drawn nothing; a slot it returns holds a
    tile with room; and it returns [None] only after exactly three
    rejected entries, the given one and two more. *)
Theorem coordinate_to_index_reprompt_bounded g coord_input w :
  reachable g ->
  (forall rc, accepts g coord_input = Some rc ->
     coordinate_to_index_reprompt g coord_input w = Ret (Some rc, w)) /\
  match coordinate_to_index_reprompt g coord_input w with
  | Ret (r_c, w') =>
      rand w' = rand w /\
      exists read, input w = read ++ input w' /\ (length read <= 2)%nat /\
        match r_c with
        | Some (rr, cc) =>
            exists a, board_at g rr cc = Ret (Some a) /\ has_room g a = true
        | None =>
            length read = 2%nat /\
            forall l, l ∈ coord_input :: read -> accepts g l = None
        end
  | Raise e => e = EOFError /\ (length (input w) < 2)%nat
  | Timeout => False
  end.
Proof. intros Hr. by apply reprompt_cases, reachable_linked. Qed.

Lemma coordinate_to_index_reprompt_bounded_witness :
  coordinate_to_index_reprompt game0 (Coord 1 2) quiet
  = Ret (Some (1, 1)%nat, quiet).
Proof.
  destruct (coordinate_to_index_reprompt_bounded game0 (Coord 1 2) quiet)
    as [H _].
  - exists game0. split; [|done]. exists remaining_types.
    split; [done | by vm_compute].
  - apply H. by vm_compute.
Defined.

(** ** What the board and the status lines show *)

(** X10.  In every reachable game each of the 3x5 cells that [print_board]
    prints is either the mark of a sunk slot, exactly when the slot is
    empty, or the letter of the tile in the slot with its number of
    occupants; that number is the number of villagers now standing on the
    tile, at most 3, and the letter V shows in the centre cell and
    nowhere else. *)
Theorem print_board_cells g r c :
  reachable g -> (r < 3)%nat -> (c < 5)%nat ->
  exists cl,
    print_board g !! r ≫= (fun row => row !! c) = Some cl /\
    match cl with
    | SunkCell => board_at g r c = Ret None
    | TileCell letter n =>
        exists a tl,
          board_at g r c = Ret (Some a) /\ tiles g !! a = Some tl /\
          letter = TILE_INFO_letter (Tile.type tl) /\
          (letter = "V" <-> r = 1%nat /\ c = 2%nat) /\
          n = length (standing_on g a) /\ (n <= 3)%nat
    | LostCell => False
    end.
Proof.
  intros Hr Hlt Hlc. pose proof (reachable_wf g Hr) as Hwf.
  pose proof (reachable_linked g Hr) as Hlk.
  destruct (lk_shape g Hlk r c Hlt Hlc) as [slot Hat].
  exists (cell_of g slot). split.
  - unfold print_board, board_at in *.
    change (map ?f ?l) with (f <$> l). rewrite list_lookup_fmap.
    destruct (board g !! r) as [row|]; simpl in *; [|done].
    change (map ?f ?l) with (f <$> l). rewrite list_lookup_fmap.
    destruct (row !! c) as [s|]; simpl in *; [|done]. by injection Hat as ->.
  - destruct slot as [a|]; simpl; [|done].
    pose proof (board_at_Some g r c a Hat) as Ha.
    destruct (wf_board g Hwf a Ha) as [tl Htl]. rewrite Htl.
    exists a, tl. do 3 (split; [done|]).
    destruct (lk_slot g Hlk r c a Hat) as (Ea & _ & _).
    pose proof (lk_volcano g Hlk a tl Htl) as Hvol.
    split; [|split].
    + assert (TILE_INFO_letter (Tile.type tl) = "V" <->
              Tile.type tl = volcano) as ->.
      { by destruct (Tile.type tl). }
      rewrite Hvol. lia.
    + apply Permutation_length. by apply occupants_standing.
    + pose proof (wf_capacity g Hwf a tl Htl) as Hcap.
      destruct (wf_tile_shape g Hwf a tl Htl) as [Hc3 _]. lia.
Qed.

Lemma print_board_cells_witness :
  print_board sunk_game !! 1%nat ≫= (fun row => row !! 3%nat)
  = Some SunkCell /\
  board_at sunk_game 1 3 = Ret None.
Proof.
  destruct (print_board_cells sunk_game 1 3 sunk_game_reachable)
    as (cl & Hcl & Hcase); [lia..|].
  assert (cl = SunkCell) as ->.
  { vm_compute in Hcl. by injection Hcl as <-. }
  split; [by vm_compute | done].
Defined.

Lemma villagers_of_length g p :
  (forall va, va ∈ Player.villagers p -> is_Some (vstore g !! va)) ->
  length (villagers_of g p) = length (Player.villagers p).
Proof.
  unfold villagers_of. induction (Player.villagers p) as [|va l IH]; [done|].
  intros Hall. destruct (Hall va) as [v Hv]; [left|]. simpl. rewrite Hv.
  simpl. f_equal. apply IH. intros va' Hin. apply Hall. by right.
Qed.

Lemma count_villagers_split g p :
  (count_villagers (fun s => match s with
                             | land | water => true
                             | _ => false end) g p +
   count_villagers (fun s => bool_decide (s = safe)) g p +
   count_villagers (fun s => bool_decide (s = dead)) g p)%nat
  = length (villagers_of g p).
Proof.
  unfold count_villagers. induction (villagers_of g p) as [|[va v] l IH];
    [done|].
  rewrite !filter_cons. simpl. destruct (Villager.state v); simpl;
    repeat case_decide; try done; simpl; lia.
Qed.

(** X11.  In every reachable game the status line of a player counts each
    of the player's villagers exactly once: remaining, saved and killed
    add up to the number of villagers the player owns. *)
Theorem print_player_statuses_counts g i p :
  reachable g -> players g !! i = Some p ->
  exists remaining saved killed,
    print_player_statuses g !! i =
      Some (Player.name p, remaining, saved, killed) /\
    (remaining + saved + killed)%nat = length (Player.villagers p) /\
    saved = length (safe_villagers g p).
Proof.
  intros Hr Hp. pose proof (reachable_linked g Hr) as Hlk.
  unfold print_player_statuses.
  change (map ?f ?l) with (f <$> l). rewrite list_lookup_fmap, Hp. simpl.
  do 3 eexists. split; [done|]. split.
  - rewrite count_villagers_split. apply villagers_of_length.
    intros va Hin. destruct (lk_owned g Hlk i p va Hp Hin) as (v & -> & _).
    by eexists.
  - unfold count_villagers, safe_villagers. f_equal.
    apply list_filter_iff. intros [va v]. simpl.
    by rewrite bool_decide_eq_true.
Qed.

Lemma print_player_statuses_counts_witness :
  exists remaining saved killed,
    print_player_statuses moved_game !! 1%nat =
      Some ("Computer1", remaining, saved, killed) /\
    (remaining + saved + killed)%nat = 10%nat.
Proof.
  assert (exists p, players moved_game !! 1%nat = Some p /\
                    Player.name p = "Computer1" /\
                    length (Player.villagers p) = 10%nat)
    as (p & Hp & Hn & Hl).
  { eexists. split; [vm_compute; reflexivity|]. by vm_compute. }
  destruct (print_player_statuses_counts moved_game 1 p)
    as (r & s & k & H & Hsum & _).
  - eapply reachable_rtc; [apply placed_game_reachable|].
    apply (player_move_phase_steps 1 placed_game quiet moved_game quiet).
    by vm_compute.
  - done.
  - exists r, s, k. by rewrite <- Hn, <- Hl.
Defined.

(** ** The volcano sinks last *)

Lemma sink_leaves g w g' r c a w' :
  linked g -> sink_tile_at g w = Ret (g', Some (r, c, a), w') ->
  forall ta, ta ∈ get_all_tiles g' -> ta ∈ get_all_tiles g /\ ta <> a.
Proof.
  intros Hlk Hs. apply sink_tile_at_spec in Hs.
  destruct Hs as (a0 & t0 & ty & row & tl & _ & _ & _ & Hr & Hc & _ & _ & ->).
  assert (board_at g r c = Ret (Some a)) as Hat.
  { unfold board_at. rewrite Hr. simpl. by rewrite Hc. }
  intros ta (r' & row' & c' & Hr' & Hc')%elem_of_get_all_tiles.
  simpl in Hr'.
  pose proof (clear_slot_lookup r c (board g) r' c') as E.
  rewrite Hr' in E. simpl in E. rewrite Hc' in E.
  case_decide as Hd; [done|].
  assert (board_at g r' c' = Ret (Some ta)) as Hat'.
  { unfold board_at. by rewrite <- E. }
  split; [by eapply board_at_Some|]. intros ->.
  destruct (lk_slot g Hlk r c a Hat) as (E1 & _ & ?).
  destruct (lk_slot g Hlk r' c' a Hat') as (E2 & _ & ?).
  apply Hd. assert (r' = r /\ c' = c) as [-> ->] by lia.
  repeat split. rewrite Hr. simpl. rewrite Hc. by eexists.
Qed.

Lemma sinks_steps n g : rtc step g (sinks n g).
Proof.
  revert g; induction n as [|n IH]; intros g; simpl; [done|].
  destruct (sink_tile g quiet) as [[g' w']| |] eqn:Hs; [|done..].
  eapply rtc_l; [by eapply step_sink | apply IH].
Qed.

(** X12.  In every reachable game the tile that [sink_tile] takes is the
    volcano exactly when it takes the centre slot, and it takes the
    volcano only when the volcano is the last tile standing: the board is
    empty afterwards. *)
Theorem volcano_sinks_last g w g' r c a tl w' :
  reachable g ->
  sink_tile_at g w = Ret (g', Some (r, c, a), w') ->
  tiles g !! a = Some tl ->
  (Tile.type tl = volcano <-> r = 1%nat /\ c = 2%nat) /\
  (Tile.type tl = volcano ->
   (forall a', a' ∈ get_all_tiles g -> a' = a) /\
   all_tiles_sunk g' = true).
Proof.
  intros Hr Hs Htl. pose proof (reachable_wf g Hr) as Hwf.
  pose proof (reachable_linked g Hr) as Hlk.
  pose proof (sink_leaves g w g' r c a w' Hlk Hs) as Hleft.
  apply sink_tile_at_spec in Hs.
  destruct Hs as (a0 & t0 & ty & row & tl' & Ha0 & Hlow & Ht0 & Hrow & Hc
                  & Htl' & Hid & _).
  assert (tl' = tl) as -> by congruence.
  rewrite (wf_tile_id g Hwf a tl Htl), (wf_tile_id g Hwf a0 t0 Ht0) in Hid.
  assert (a0 = a) as -> by lia. assert (t0 = tl) as -> by congruence.
  apply elem_of_tiles_of_type in Ha0 as (Ha & t & Ht & Hty).
  assert (t = tl) as -> by congruence.
  assert (board_at g r c = Ret (Some a)) as Hat.
  { unfold board_at. rewrite Hrow. simpl. by rewrite Hc. }
  destruct (lk_slot g Hlk r c a Hat) as (Ea & _ & ?).
  split; [rewrite (lk_volcano g Hlk a tl Htl); lia|].
  intros Hvol. rewrite Hvol in Hty. subst ty.
  assert (forall a', a' ∈ get_all_tiles g -> a' = a) as Hall.
  { intros a' Ha'. destruct (wf_board g Hwf a' Ha') as [t' Ht'].
    rewrite (proj1 (lk_volcano g Hlk a tl Htl) Hvol).
    apply (lk_volcano g Hlk a' t' Ht').
    destruct (Tile.type t') eqn:Hty'; [| | |done].
    - assert (a' ∈ tiles_of_type g beach) as Hin
        by (apply elem_of_tiles_of_type; eauto).
      rewrite (Hlow beach) in Hin; [by apply elem_of_nil in Hin|simpl; lia].
    - assert (a' ∈ tiles_of_type g forest) as Hin
        by (apply elem_of_tiles_of_type; eauto).
      rewrite (Hlow forest) in Hin; [by apply elem_of_nil in Hin|simpl; lia].
    - assert (a' ∈ tiles_of_type g mountain) as Hin
        by (apply elem_of_tiles_of_type; eauto).
      rewrite (Hlow mountain) in Hin;
        [by apply elem_of_nil in Hin|simpl; lia]. }
  split; [done|]. apply all_tiles_sunk_spec.
  destruct (get_all_tiles g') as [|a1 l] eqn:E; [done|].
  destruct (Hleft a1) as [Hin Hne]; [left|].
  by apply Hall in Hin.
Qed.

Lemma volcano_sinks_last_witness :
  exists g', sink_tile_at volcano_left quiet
             = Ret (g', Some (1, 2, 7)%nat, quiet) /\
             all_tiles_sunk g' = true.
Proof.
  assert (exists g' tl, sink_tile_at volcano_left quiet
                        = Ret (g', Some (1, 2, 7)%nat, quiet) /\
                        tiles volcano_left !! 7%nat = Some tl /\
                        Tile.type tl = volcano) as (g' & tl & Hs & Htl & Hv).
  { do 2 eexists. split; [vm_compute; reflexivity|].
    split; vm_compute; reflexivity. }
  exists g'. split; [done|].
  destruct (volcano_sinks_last volcano_left quiet g' 1 2 7 tl quiet)
    as [_ H]; [|done|done|by apply H].
  exists game0. split.
  - exists remaining_types. split; [done | by vm_compute].
  - apply (sinks_steps 14 game0).
Defined.

(** ** The budget of a movement phase *)

Lemma spent_snoc log m : spent (log ++ [m]) = spent log + mv_spent m.
Proof.
  unfold spent. induction log as [|x log IH]; simpl; [lia|].
  rewrite IH. lia.
Qed.

Lemma spent_length log :
  Forall (fun m => 1 <= mv_spent m /\ mv_spent m <= mv_points m /\
                   mv_spent m <= mv_distance m) log ->
  Z.of_nat (length log) <= spent log.
Proof.
  unfold spent. induction 1 as [|m log [Hm _] _ IH]; simpl; lia.
Qed.

Lemma budget_apply_move g p loc va v k g' loc' :
  wf g -> 0 < points loc -> budget_ok loc -> legal_move g p loc va v k ->
  apply_move g va k loc = Ret (g', loc') -> budget_ok loc'.
Proof.
  intros Hwf Hpos (Hsum & _ & Hall)
    ([_ Hv]%elem_of_villagers_of & Hmov & _ & Hk).
  intros (v0 & Hv0 & _ & _ & _ & _ & _ & _ & Hp & Hlog & _)%apply_move_spec.
  assert (v0 = v) as -> by congruence.
  assert (k <= points loc /\ k <= Villager.distance_remaining v) as [Hkp Hkd].
  { unfold max_move_of in Hk.
    destruct (decide (Villager.state v = land)) as [_|Hnl]; [lia|].
    split; [lia|].
    destruct (Z.le_gt_cases (Villager.distance_remaining v) 0) as [Hle|];
      [|lia].
    apply (wf_dist g Hwf va v Hv) in Hle.
    apply movable_cases in Hmov as [?|?]; congruence. }
  unfold budget_ok. rewrite Hlog, Hp, spent_snoc. simpl.
  split; [lia|]. split; [lia|].
  apply Forall_app. split; [done|]. apply Forall_singleton. simpl. lia.
Qed.

Lemma budget_move_loop fuel i g loc w g' loc' w' :
  wf g -> budget_ok loc ->
  move_loop fuel i g loc w = Ret (g', loc', w') -> budget_ok loc'.
Proof.
  revert g loc w; induction fuel as [|fuel IH]; intros g loc w Hwf Hok; simpl;
    [done|].
  destruct (players g !! i) as [p|] eqn:Hp; simpl; [|done].
  destruct (move_cond g p loc) eqn:Hcond; [|by intros [= <- <- <-]].
  apply andb_true_iff in Hcond as [Hpos%Z.ltb_lt _].
  destruct (Player.is_human p).
  - destruct (human_iter g p loc w) as [[[[g1 loc1]|] w1]| |] eqn:Hit;
      simpl; [| |done..].
    + apply human_iter_spec in Hit
        as (_ & _ & [[-> ->]|(va & v & k & Hl & Hm)]); [by apply IH|].
      apply IH; [by eapply wf_apply_move | by eapply budget_apply_move].
    + by intros [= <- <- <-].
  - destruct (comp_iter g p loc) as [[[g1 loc1]|]| |] eqn:Hit;
      simpl; [| |done..].
    + apply comp_iter_spec in Hit as (va & v & k & _ & _ & Hl & Hm).
      apply IH; [by eapply wf_apply_move | by eapply budget_apply_move].
    + by intros [= <- <- <-].
Qed.

(** X13.  In a reachable game a movement phase that returns, for a human
    or a computer, has kept to its budget: the points spent by the moves
    it applied plus the points left are the 3 points of the phase, the
    points left are not negative, it applied at most 3 moves, and each
    move spent at least one point, no more than the player had at that
    moment and no more than the villager still had to go. *)
Theorem move_phase_budget i g w g' loc' w' :
  reachable g ->
  player_move_phase_log i g w = Ret (g', loc', w') ->
  spent (moves loc') + points loc' = 3 /\ 0 <= points loc' /\
  (length (moves loc') <= 3)%nat /\
  Forall (fun m => 1 <= mv_spent m /\ mv_spent m <= mv_points m /\
                   mv_spent m <= mv_distance m) (moves loc').
Proof.
  intros Hr Hrun. apply budget_move_loop in Hrun as (Hsum & Hpos & Hall).
  - pose proof (spent_length _ Hall). repeat split; [done|done|lia|done].
  - by apply reachable_wf.
  - unfold budget_ok, move_start, spent. simpl. repeat split; [lia|done].
Qed.

Lemma move_phase_budget_witness :
  exists g' loc' w',
    player_move_phase_log 1 placed_game quiet = Ret (g', loc', w') /\
    spent (moves loc') + points loc' = 3.
Proof.
  assert (exists g' loc' w',
            player_move_phase_log 1 placed_game quiet = Ret (g', loc', w'))
    as (g' & loc' & w' & Hrun).
  { do 3 eexists. vm_compute. reflexivity. }
  exists g', loc', w'. split; [done|].
  by destruct (move_phase_budget 1 placed_game quiet g' loc' w'
                 placed_game_reachable Hrun) as [H _].
Defined.

(** ** The program fails only on an exhausted console *)


























(** ** What [setup] leaves behind *)

Lemma placed_ok_place g i treasure a g' :
  placed_ok g -> 1 <= treasure <= 6 ->
  place g i treasure a = Ret g' -> placed_ok g'.
Proof.
  intros Hok Htr
    (p & tl & _ & Htl & _ & _ & Ets & Evs & _)%place_spec va v.
  rewrite Evs, Ets. intros Hv.
  apply lookup_app_Some in Hv as [Hv|[_ Hv]].
  - destruct (Hok va v Hv) as (Hl & Ht & ta & tl' & Hta & Htl' & Hd).
    split; [done|]. split; [done|].
    destruct (decide (ta = a)) as [->|Hne].
    + exists a. eexists. split; [done|]. split.
      * apply list_lookup_insert_eq. by eapply lookup_lt_Some.
      * simpl. congruence.
    + exists ta, tl'. split; [done|]. split; [|done].
      by rewrite list_lookup_insert_ne.
  - apply list_lookup_singleton_Some in Hv as [_ <-]. simpl.
    split; [done|]. split; [done|]. exists a. eexists. split; [done|].
    split; [apply list_lookup_insert_eq; by eapply lookup_lt_Some|done].
Qed.

Lemma placed_ok_place_villagers n i random_place g w g' w' :
  placed_ok g -> place_villagers n i random_place g w = Ret (g', w') ->
  placed_ok g'.
Proof.
  revert g w; induction n as [|n IH]; intros g w Hok; simpl.
  - by intros [= <- <-].
  - destruct (players g !! i) as [p|]; simpl; [|done].
    pose proof (randint_range w) as Hrange.
    destruct (randint_1_6 w) as [treasure w1]. simpl in Hrange.
    destruct (valid_tiles g) as [|x l] eqn:Hvalid; [by intros [= <- <-]|].
    intros H. apply bind_Ret in H as ([a w2] & _ & H).
    apply bind_Ret in H as (g1 & Hplace & H).
    eapply IH; [|exact H]. by eapply placed_ok_place.
Qed.

Lemma placed_ok_setup_from idx g w g' w' :
  placed_ok g -> setup_from idx g w = Ret (g', w') -> placed_ok g'.
Proof.
  revert g w; induction idx as [|i idx IH]; intros g w Hok; simpl.
  - by intros [= <- <-].
  - intros H. apply bind_Ret in H as ([g1 w1] & Hp & H).
    eapply IH; [|exact H]. unfold setup_player in Hp.
    apply bind_Ret in Hp as (p & _ & Hp).
    apply bind_Ret in Hp as ([rp w0] & _ & Hp).
    by eapply placed_ok_place_villagers.
Qed.

Lemma setup_placed_ok g0 w g w' :
  fresh g0 -> setup g0 w = Ret (g, w') -> placed_ok g.
Proof.
  intros (_ & _ & _ & _ & _ & Hvs & _)%fresh_spec Hs.
  eapply placed_ok_setup_from; [|exact Hs]. intros va v. by rewrite Hvs.
Qed.

(** X15.  When [setup] on a game that [Game()] built returns, every one of
    the 30 villagers is on land, carries a treasure between 1 and 6, is
    owned by the player whose list holds it, and stands on a tile of the
    board that lists it among its occupants and whose distance (3 for a
    beach, 2 for a forest, 1 for a mountain or the volcano) is the
    distance the villager has to go. *)
Theorem setup_villagers g0 w g w' va v :
  fresh g0 -> setup g0 w = Ret (g, w') -> vstore g !! va = Some v ->
  (va < 30)%nat /\
  Villager.state v = land /\ 1 <= Villager.treasure v <= 6 /\
  (forall i p, players g !! i = Some p -> va ∈ Player.villagers p ->
               Villager.owner v = Player.name p) /\
  exists ta tl,
    Villager.tile v = Some ta /\ ta ∈ get_all_tiles g /\
    tiles g !! ta = Some tl /\ va ∈ Tile.villagers tl /\
    Villager.distance_remaining v = TILE_INFO_distance (Tile.type tl).
Proof.
  intros Hfresh Hs Hv.
  assert (reachable g) as Hr.
  { exists g0. split; [done|]. by eapply setup_steps. }
  pose proof (reachable_wf g Hr) as Hwf.
  pose proof (reachable_linked g Hr) as Hlk.
  destruct (setup_fresh g0 w g w' Hfresh Hs) as (_ & Hlen & _).
  destruct (setup_placed_ok g0 w g w' Hfresh Hs va v Hv)
    as (Hl & Htr & ta & tl & Hta & Htl & Hd).
  split; [apply lookup_lt_Some in Hv; lia|].
  split; [done|]. split; [done|]. split.
  - intros i p Hp Hin. destruct (lk_owned g Hlk i p va Hp Hin) as (v' & Hv' & Ho).
    congruence.
  - exists ta, tl. split; [done|]. split; [by eapply lk_on_board|].
    split; [done|]. split.
    + destruct (wf_land g Hwf va v Hv Hl) as (ta' & tl' & Hta' & Htl' & Hin).
      congruence.
    + rewrite Hd. by destruct (wf_tile_shape g Hwf ta tl Htl) as [_ ->].
Qed.

Lemma setup_villagers_witness :
  exists v, vstore placed_game !! 14%nat = Some v /\
            Villager.state v = land /\ 1 <= Villager.treasure v <= 6.
Proof.
  assert (exists v, vstore placed_game !! 14%nat = Some v) as [v Hv].
  { eexists. vm_compute. reflexivity. }
  exists v. split; [done|].
  destruct (setup_villagers game0 seeded placed_game quiet 14 v)
    as (_ & Hl & Htr & _); [|by vm_compute|done|done].
  exists remaining_types. split; [done | by vm_compute].
Defined.

(** ** Nobody joins or leaves after [setup] *)

Lemma roster_apply_move g va k loc g' loc' :
  apply_move g va k loc = Ret (g', loc') -> roster g' = roster g.
Proof.
  intros (v & Hv & Evs & _)%apply_move_spec. unfold roster. rewrite Evs.
  change (map ?f ?l) with (f <$> l). rewrite list_fmap_insert.
  apply list_insert_id. rewrite list_lookup_fmap, Hv. simpl.
  destruct (moved_fields k v) as (-> & _ & -> & _). by rewrite moved_owner.
Qed.

Lemma roster_move_loop fuel i g loc w g' loc' w' :
  move_loop fuel i g loc w = Ret (g', loc', w') -> roster g' = roster g.
Proof.
  revert g loc w; induction fuel as [|fuel IH]; intros g loc w; simpl;
    [done|].
  destruct (players g !! i) as [p|] eqn:Hp; simpl; [|done].
  destruct (move_cond g p loc); [|by intros [= <- <- <-]].
  destruct (Player.is_human p).
  - destruct (human_iter g p loc w) as [[[[g1 loc1]|] w1]| |] eqn:Hit;
      simpl; [| |done..].
    + intros ->%IH.
      apply human_iter_spec in Hit
        as (_ & _ & [[-> ->]|(va & v & k & Hl & Hm)]); [done|].
      by eapply roster_apply_move.
    + by intros [= <- <- <-].
  - destruct (comp_iter g p loc) as [[[g1 loc1]|]| |] eqn:Hit;
      simpl; [| |done..].
    + intros ->%IH.
      apply comp_iter_spec in Hit as (va & v & k & _ & _ & Hl & Hm).
      by eapply roster_apply_move.
    + by intros [= <- <- <-].
Qed.

Lemma roster_sink_tile g w g' w' :
  sink_tile g w = Ret (g', w') -> roster g' = roster g.
Proof.
  intros [o H]%sink_tile_inv. apply sink_tile_at_spec in H.
  destruct o as [[[r c] a]|]; [|by destruct H as (_ & -> & _)].
  destruct H as (a0 & t0 & ty & row & tl & _ & _ & _ & _ & _ & _ & _ & ->).
  unfold roster. simpl. apply list_eq. intros va.
  change (map ?f ?l) with (f <$> l). rewrite !list_lookup_fmap, drown_lookup.
  destruct (vstore g !! va) as [v|]; [|done]. simpl. by case_decide.
Qed.

Lemma roster_creature_phase g w g' w' :
  creature_phase g w = Ret (g', w') -> roster g' = roster g.
Proof.
  intros (roll & victim & H)%creature_phase_inv.
  destruct (creature_phase_at_spec g w) as (g1 & v1 & w1 & E & _ & Hspec).
  rewrite E in H. injection H as <- _ <- <-.
  destruct v1 as [va|]; [|by destruct Hspec as [_ ->]].
  destruct Hspec as (_ & _ & -> & _).
  unfold roster. apply list_eq. intros vb.
  change (map ?f ?l) with (f <$> l). rewrite !list_lookup_fmap, kill_lookup.
  case_decide; [|done]. by destruct (vstore g !! vb).
Qed.

Lemma roster_player_turn i g w g' over w' :
  player_turn i g w = Ret (g', over, w') -> roster g' = roster g.
Proof.
  unfold player_turn. destruct (all_tiles_sunk g); [by intros [= <- <- <-]|].
  intros H. apply bind_Ret in H as ([g1 w1] & Hm & H).
  apply player_move_phase_inv in Hm as [loc1 Hm].
  apply roster_move_loop in Hm.
  destruct (all_tiles_sunk g1); [by injection H as <- <- <-|].
  apply bind_Ret in H as ([g2 w2] & Hs & H). apply roster_sink_tile in Hs.
  destruct (all_tiles_sunk g2);
    [injection H as <- <- <-; simpl; unfold roster in *; simpl; congruence|].
  apply bind_Ret in H as ([g3 w3] & Hc & H). apply roster_creature_phase in Hc.
  injection H as <- <- <-. congruence.
Qed.

Lemma roster_for_players idx g w g' over w' :
  for_players idx g w = Ret (g', over, w') -> roster g' = roster g.
Proof.
  revert g w; induction idx as [|i idx IH]; intros g w; simpl.
  - by intros [= <- <- <-].
  - intros H. apply bind_Ret in H as ([[g1 o1] w1] & Ht & H).
    apply roster_player_turn in Ht. destruct o1.
    + injection H as <- <- <-. done.
    + apply IH in H. congruence.
Qed.

Lemma roster_play_round g w g' over w' :
  play_round g w = Ret (g', over, w') -> roster g' = roster g.
Proof.
  unfold play_round. intros H.
  apply bind_Ret in H as ([[g2 o2] w2] & Hf & H).
  apply roster_for_players in Hf. unfold check_max_turns in H.
  destruct (_ && _); injection H as <- <- <-; done.
Qed.

Lemma cast_play_loop fuel g w g' w' :
  play_loop fuel g w = Ret (g', w') ->
  roster g' = roster g /\ players g' = players g.
Proof.
  revert g w; induction fuel as [|fuel IH]; intros g w; simpl; [done|].
  destruct (all_tiles_sunk g) eqn:Hsunk; [by intros [= <- <-]|].
  intros H. apply bind_Ret in H as ([[g1 o1] w1] & Hr & H).
  pose proof (roster_play_round _ _ _ _ _ Hr) as Hros.
  apply play_round_spec in Hr as (_ & Hpl & _); [|done].
  destruct o1.
  - by injection H as <- <-.
  - apply IH in H as [-> ->]. done.
Qed.

Lemma omap_length_le {A B} (f : A -> option B) (l : list A) :
  (length (omap f l) <= length l)%nat.
Proof.
  induction l as [|x l IH]; [done|]. csimpl.
  destruct (f x); simpl; lia.
Qed.

Lemma sum_bound {A} (f : A -> Z) (l : list A) :
  Forall (fun x => 1 <= f x <= 6) l ->
  0 <= foldr Z.add 0 (map f l) <= 6 * Z.of_nat (length l).
Proof.
  induction 1 as [|x l Hx _ IH]; [simpl; lia|].
  cbn [map foldr length]. rewrite Nat2Z.inj_succ. lia.
Qed.

Lemma score_of_range g p :
  (forall va v, vstore g !! va = Some v -> 1 <= Villager.treasure v <= 6) ->
  0 <= score_of g p <= 6 * Z.of_nat (length (Player.villagers p)).
Proof.
  intros Htr. unfold score_of.
  pose proof (sum_bound (fun x : nat * Villager.t => Villager.treasure x.2)
                        (safe_villagers g p)) as Hb.
  assert (length (safe_villagers g p) <= length (Player.villagers p))%nat.
  { unfold safe_villagers. etrans; [apply length_filter|].
    unfold villagers_of. apply omap_length_le. }
  destruct Hb; [|lia].
  apply Forall_forall. intros [va v] [Hv _]%elem_of_safe_villagers.
  simpl. by eapply Htr.
Qed.

(** X16.  A game played to the end from [Game()]: the villagers at the end
    are the 30 that [setup] placed, with the ids, owners and treasures
    they got there, and none of them is left on land; every player still
    owns 10 villagers and has a score between 0 and 60, the sum of the
    treasures of its safe villagers; the winner is one of the players and
    no player has a higher score. *)
Theorem play_final_state g0 w g i p w' :
  fresh g0 -> play g0 w = Ret (g, (i, p), w') ->
  (exists g1 w1, setup g0 w = Ret (g1, w1) /\ roster g = roster g1) /\
  length (vstore g) = 30%nat /\
  (forall va v, vstore g !! va = Some v ->
     Villager.state v <> land /\ 1 <= Villager.treasure v <= 6) /\
  (forall j q, players g !! j = Some q ->
     length (Player.villagers q) = 10%nat /\
     Player.score q = score_of g q /\ 0 <= Player.score q <= 60) /\
  players g !! i = Some p /\
  (forall j q, players g !! j = Some q -> Player.score q <= Player.score p).
Proof.
  intros Hfresh Hplay.
  pose proof (play_reachable g0 w g (i, p) w' Hfresh Hplay) as Hr.
  pose proof (reachable_linked g Hr) as Hlk.
  destruct (play_ends_in_round_five g0 w g (i, p) w' Hfresh Hplay)
    as (_ & Hsunk%all_tiles_sunk_spec & _).
  unfold play in Hplay.
  apply bind_Ret in Hplay as ([g1 w1] & Hs & Hplay).
  apply bind_Ret in Hplay as ([g2 w2] & Hl & Hplay).
  apply bind_Ret in Hplay as ([g3 win] & Hf & Hplay).
  injection Hplay as -> -> <-.
  destruct (setup_fresh g0 w g1 w1 Hfresh Hs) as (_ & Hlen & Hpl).
  pose proof (setup_placed_ok g0 w g1 w1 Hfresh Hs) as Hok.
  apply cast_play_loop in Hl as [Hros Hpl2].
  unfold finish in Hf. apply bind_Ret in Hf as (win & Hw & Hf).
  injection Hf as <- ->.
  set (g2' := if decide (game_end_reason g2 = EmptyString)
              then set_game_end_reason "End condition met." g2 else g2) in *.
  assert (vstore g2' = vstore g2 /\ players g2' = players g2) as [Evs Eps].
  { unfold g2'. by case_decide. }
  assert (roster (compute_scores g2') = roster g1) as Hroster.
  { unfold roster in *. simpl. by rewrite Evs. }
  assert (forall va v, vstore (compute_scores g2') !! va = Some v ->
            1 <= Villager.treasure v <= 6) as Htr.
  { intros va v Hv.
    assert (roster (compute_scores g2') !! va =
            Some (Villager.id v, Villager.owner v, Villager.treasure v))
      as Hrow.
    { unfold roster. change (map ?f ?l) with (f <$> l).
      by rewrite list_lookup_fmap, Hv. }
    rewrite Hroster in Hrow. unfold roster in Hrow.
    change (map ?f ?l) with (f <$> l) in Hrow.
    rewrite list_lookup_fmap in Hrow.
    destruct (vstore g1 !! va) as [v1|] eqn:Hv1; [|done].
    injection Hrow as _ _ <-. by destruct (Hok va v1 Hv1) as (_ & ? & _). }
  split; [by exists g1, w1|]. split.
  { apply (f_equal length) in Hroster. unfold roster in Hroster.
    rewrite !length_map in Hroster. congruence. }
  split.
  { intros va v Hv. split; [|by eapply Htr]. intros Hland.
    destruct (wf_land _ (reachable_wf _ Hr) va v Hv Hland)
      as (ta & tl & Hta & _).
    pose proof (lk_on_board _ Hlk va v ta Hv Hland Hta) as Hin.
    rewrite Hsunk in Hin. by apply elem_of_nil in Hin. }
  apply winner_spec in Hw as (Hwin & Hmax & _).
  split; [|by split].
  intros j q (q0 & Hq0 & ->)%compute_scores_lookup.
  assert (length (Player.villagers q0) = 10%nat) as Hten.
  { rewrite Eps, Hpl2, Hpl in Hq0.
    destruct j as [|[|[|j]]]; simpl in Hq0; try done;
      by injection Hq0 as <-. }
  split; [done|]. split; [done|]. simpl.
  pose proof (score_of_range (compute_scores g2') q0 Htr) as Hb.
  change (score_of (compute_scores g2') q0) with (score_of g2' q0) in Hb.
  lia.
Qed.

Lemma play_final_state_witness :
  exists g i p w',
    play game0 idle = Ret (g, (i, p), w') /\
    length (vstore g) = 30%nat /\ 0 <= Player.score p <= 60.
Proof.
  assert (exists g i p w', play game0 idle = Ret (g, (i, p), w'))
    as (g & i & p & w' & Hplay).
  { do 4 eexists. vm_compute. reflexivity. }
  exists g, i, p, w'. split; [done|].
  destruct (play_final_state game0 idle g i p w')
    as (_ & Hlen & _ & Hsc & Hwin & _); [|done|].
  - exists remaining_types. split; [done | by vm_compute].
  - split; [done|]. by destruct (Hsc i p Hwin) as (_ & _ & ?).
Defined.

(** ** The prompts of the human player *)






